(** * Chess-CV: a shallow embedding of the board pipeline

    The development follows the C++ sources of the repository:

    - [processingOps.cpp]: [comparePoints], [checkIntersection],
      [arePointsNearby], [getIntersections], [scalePointsToOriginal],
      [setRectangles];
    - [chessCV.cpp]: the statements of [handleBoardFlow] that lead from the
      segments to the squares ([findSquares]);
    - [pieceDetectionOps.cpp]: [isEmptySpace], [getNNPieceLabel],
      [getPieceLabels], [getPieceLabelsNN], [normalizeHistogram],
      [getHistogramFeature], [convertMatToVec],
      [computeHistogramIntersectionDifference], [computeHistogramDiffs],
      [addLabelFeatures], [labelImages];
    - [csv_util.cpp]: [getstring], [getfloat], [append_image_data_csv],
      [read_image_data_csv];
    - [chessAnalysis.cpp]: [pieceToFen], [squareNameToIndex],
      [getFenFromLabels], [getBestMove], and the arrow that
      [getChessAnalysis] draws for the best move.

    Conventions of the embedding.

    - A C++ [float] is a binary32 number and a [double] a binary64 number;
      both are rationals ([Q]).  In [comparePoints], [checkIntersection],
      [scalePointsToOriginal] and [isEmptySpace], and where
      [getChessAnalysis] and the labelling loops compute a point, every
      arithmetic operation and every conversion is followed by the rounding
      of IEEE 754 ([fl32], [fl64]: to nearest, ties to even, as the x86-64
      build with SSE2 computes).  Infinities and NaN are not values of the
      model.  Two parts of the code are modelled in exact arithmetic: the
      comparison of a distance with the dedup radius in [arePointsNearby],
      and the histograms ([getHistogramFeature], [normalizeHistogram],
      [computeHistogramIntersectionDifference], [computeHistogramDiffs]).
      A comparison of a [float] with a side of an image in
      [getIntersections] is the exact one: the sides of an image are far
      below [2^24], and their conversion to [float] is exact.
    - A C++ [int] is a [Z].  The coordinates of a [cv::Rect] are computed
      with the 32-bit wrap-around written out ([wrap32]); loop counters and
      sizes, which stay far below [2^31], are plain integers.
    - A [std::vector] is a [list]; [v[i]] is an unchecked read, and a read
      outside the vector is the outcome [UB_OutOfRange] (undefined behaviour
      in C++), never a value.  A write past a [char] buffer is the same
      outcome.
    - A function that can throw, run into undefined behaviour or loop for
      ever returns an [outcome].
    - A file is the string of its bytes; the two feature files are passed
      to the functions that write them and returned by them.  [char] is
      signed, as on x86-64.
    - Printing is modelled in [chessAnalysis.cpp] (the console), in
      [pieceDetectionOps.cpp] (the trace of events, the lines of
      [labelImages]) and in [read_image_data_csv]; the counts that
      [getIntersections] and [setRectangles] print, the diagnostic of
      [checkIntersection] and everything drawn on an image or shown in a
      window are left out: no result depends on them.
    - OpenCV's image operations ([cvtColor], [Canny], [putText]), the
      segments of [calcHoughLines], the classifier, [std::sort], [atof],
      the conversion [%.4f], the keys of [cv::waitKey] and, in
      [getPieceLabels], the tables read from the feature files are
      parameters of the functions that use them. *)

From Stdlib Require Import String Ascii DecimalString.
From Stdlib Require Import List ZArith QArith Qabs Qround Qminmax Qpower Qreduction Bool.
From Stdlib Require Import Lia Lqa Permutation PeanoNat.
From Stdlib Require Reals Qreals Lra.
Import ListNotations.

Local Open Scope string_scope.
Local Open Scope list_scope.
Local Open Scope Z_scope.

(* ------------------------------------------------------------------ *)
(** * Outcomes of running C++ code *)

(** What can go wrong in the modelled functions. *)
Inductive fault : Type :=
| UB_OutOfRange (index : Z) (size : nat)
    (** [v[index]] with [index] outside [0 .. size-1]: undefined behaviour *)
| cv_Exception
    (** OpenCV assertion failure, e.g. a region of interest outside the matrix *)
| std_out_of_range
    (** thrown by [std::unordered_map::at] on a missing key *)
| Diverges.
    (** the loop never terminates *)

Inductive outcome (A : Type) : Type :=
| Ok (a : A)
| Fault (f : fault).

Arguments Ok {A} a.
Arguments Fault {A} f.

Definition bind {A B : Type} (m : outcome A) (k : A -> outcome B) : outcome B :=
  match m with
  | Ok a => k a
  | Fault f => Fault f
  end.

Notation "x <- m ;; k" := (bind m (fun x => k))
  (at level 61, m at next level, right associativity).

(** [v[i]] for a [std::vector] (or a C array) [v] and an [int] index. *)
Definition vec_at {A : Type} (v : list A) (i : Z) : outcome A :=
  if i <? 0 then Fault (UB_OutOfRange i (length v))
  else match nth_error v (Z.to_nat i) with
       | Some a => Ok a
       | None => Fault (UB_OutOfRange i (length v))
       end.

(** [for (int i = lo; i < lo + n; i++) s = body(i, s);] *)
Fixpoint for_loop {S : Type} (n : nat) (i : Z) (body : Z -> S -> outcome S) (s : S)
  : outcome S :=
  match n with
  | O => Ok s
  | Datatypes.S n' => s' <- body i s ;; for_loop n' (i + 1) body s'
  end.

(** The indices [i, i+1, ..., i+n-1] that [for_loop n i] runs through. *)
Fixpoint zrange (i : Z) (n : nat) : list Z :=
  match n with
  | O => []
  | Datatypes.S n' => i :: zrange (i + 1) n'
  end.

(** [std::to_string(int)]. *)
Definition to_string (n : Z) : string := NilZero.string_of_int (Z.to_int n).

(** 32-bit two's complement wrap-around of an [int] result. *)
Definition wrap32 (z : Z) : Z := (z + 2147483648) mod 4294967296 - 2147483648.

Definition INT_MIN : Z := -2147483648.
Definition INT_MAX : Z := 2147483647.

(* ------------------------------------------------------------------ *)
(** * chessAnalysis.cpp *)

(** [std::unordered_map<std::string, std::string> pieceToFen]. *)
Definition pieceToFen : list (string * string) :=
  [ ("wp", "P"); ("wn", "N"); ("wb", "B"); ("wr", "R"); ("wq", "Q"); ("wk", "K");
    ("bp", "p"); ("bn", "n"); ("bb", "b"); ("br", "r"); ("bq", "q"); ("bk", "k") ].

(** [pieceToFen.at(key)]: throws [std::out_of_range] on a missing key. *)
Fixpoint map_at (m : list (string * string)) (key : string) : outcome string :=
  match m with
  | [] => Fault std_out_of_range
  | (k, v) :: m' => if String.eqb k key then Ok v else map_at m' key
  end.

(** The console: [std::cin] as the whitespace-separated tokens still to be
    read, [stdout] as the lines printed so far. *)
Record console : Type := mkConsole { stdin : list string; stdout : list string }.

Definition printf (line : string) (io : console) : console :=
  mkConsole (stdin io) (stdout io ++ [line]).

(** The flush of the empty-square counter:
    [if (currentEmpty > 0) { fen += std::to_string(currentEmpty); currentEmpty = 0; }] *)
Definition flushEmpty (st : Z * string) : Z * string :=
  let '(currentEmpty, fen) := st in
  if 0 <? currentEmpty then (0, (fen ++ to_string currentEmpty)%string)
  else (currentEmpty, fen).

(** One iteration of the loop of [getFenFromLabels] at index [i], on the
    label [squareLabels[i]]; the state is [(currentEmpty, fen)]. *)
Definition fenStep (i : Z) (label : string) (st : Z * string) : outcome (Z * string) :=
  let st :=
    if (i mod 8 =? 0) && negb (i =? 0) then
      let '(currentEmpty, fen) := flushEmpty st in
      (currentEmpty, (fen ++ "/")%string)
    else st in
  if String.eqb label "ee" then
    let '(currentEmpty, fen) := st in Ok (currentEmpty + 1, fen)
  else
    let '(currentEmpty, fen) := flushEmpty st in
    c <- map_at pieceToFen label ;;
    Ok (currentEmpty, (fen ++ c)%string).

(** [for (int i = 0; i < squareLabels.size(); i++)], as a traversal of the
    labels from index [i] on. *)
Fixpoint fenLoop (labels : list string) (i : Z) (st : Z * string) : outcome (Z * string) :=
  match labels with
  | [] => Ok st
  | label :: rest => st' <- fenStep i label st ;; fenLoop rest (i + 1) st'
  end.

Definition turnPrompt : string :=
  "Please enter 'w' if it's white's turn and 'b' if it's black's turn:".

(** [while (turn != "w" && turn != "b") { printf(...); std::cin >> turn; }]
    entered with [turn] neither ["w"] nor ["b"]: each round prints the prompt
    and reads one token.  When the input is exhausted the extraction fails,
    [turn] keeps its value and the loop never ends. *)
Fixpoint readTurn (input : list string) (out : list string) : console * outcome string :=
  match input with
  | [] => (mkConsole [] (out ++ [turnPrompt]), Fault Diverges)
  | tok :: rest =>
      if String.eqb tok "w" || String.eqb tok "b"
      then (mkConsole rest (out ++ [turnPrompt]), Ok tok)
      else readTurn rest (out ++ [turnPrompt])
  end.

Definition sizeMessage (n : nat) : string :=
  ("Improper size of labels parameter. Should be 64 squares. Size is: "
     ++ to_string (Z.of_nat n))%string.

(** [std::string getFenFromLabels(std::vector<std::string> squareLabels)]. *)
Definition getFenFromLabels (squareLabels : list string) (io : console)
  : console * outcome string :=
  if negb (length squareLabels =? 64)%nat then
    (printf (sizeMessage (length squareLabels)) io, Ok "")
  else
    match fenLoop squareLabels 0 (0, "") with
    | Fault f => (io, Fault f)
    | Ok (_, fen) =>
        let fen := (fen ++ " ")%string in
        match readTurn (stdin io) (stdout io) with
        | (io', Fault f) => (io', Fault f)
        | (io', Ok turn) =>
            let fen := ((fen ++ turn) ++ " - - 0 0")%string in
            (printf ("Resulting fen: " ++ fen)%string io', Ok fen)
        end
    end.

(** The board field of a notation string: everything before the first blank. *)
Fixpoint boardField (s : string) : string :=
  match s with
  | EmptyString => EmptyString
  | String c s' => if Ascii.eqb c " " then EmptyString else String c (boardField s')
  end.

(* ------------------------------------------------------------------ *)
(** * The part of OpenCV the code relies on *)

(** [a < b] on floats. *)
Definition Qlt_bool (a b : Q) : bool := negb (Qle_bool b a).

(** [cv::Point2f]. *)
Record Point2f : Type := mkPoint2f { px : Q; py : Q }.

(** [cv::Point] (that is [cv::Point2i]). *)
Record Point2i : Type := mkPoint2i { ix : Z; iy : Z }.

(** [cv::Size]. *)
Record Size : Type := mkSize { size_width : Z; size_height : Z }.

(** [cv::Vec4i]: a segment [(x1, y1, x2, y2)]. *)
Record Vec4i : Type := mkVec4i { v0 : Z; v1 : Z; v2 : Z; v3 : Z }.

(** [cv::Rect] (that is [cv::Rect_<int>]). *)
Record Rect : Type := mkRect { x : Z; y : Z; width : Z; height : Z }.

(** Rounding to the nearest integer, ties to the even one (the rounding
    mode of [cvRound]). *)
Definition cvRound (v : Q) : Z :=
  let f := Qfloor v in
  match Qcompare (v - inject_Z f) (1 # 2) with
  | Lt => f
  | Gt => f + 1
  | Eq => if Z.even f then f else f + 1
  end.

(** [cv::saturate_cast<int>(float)] is [cvRound]; a value that does not fit
    an [int] yields [INT_MIN] (the SSE2 conversion of the x86-64 build). *)
Definition saturate_cast_int (v : Q) : Z :=
  let r := cvRound v in
  if (INT_MIN <=? r) && (r <=? INT_MAX) then r else INT_MIN.

(** The conversion [Point2f -> Point2i] that [cv::Rect(Point2f, Point2f)]
    applies to its arguments. *)
Definition toPoint2i (p : Point2f) : Point2i :=
  mkPoint2i (saturate_cast_int (px p)) (saturate_cast_int (py p)).

(** [cv::Rect_<int>::Rect_(const Point&, const Point&)]. *)
Definition Rect_ (pt1 pt2 : Point2i) : Rect :=
  let x := Z.min (ix pt1) (ix pt2) in
  let y := Z.min (iy pt1) (iy pt2) in
  mkRect x y (wrap32 (Z.max (ix pt1) (ix pt2) - x)) (wrap32 (Z.max (iy pt1) (iy pt2) - y)).

(** [Rect::tl()] and [Rect::br()]. *)
Definition tl (r : Rect) : Point2i := mkPoint2i (x r) (y r).
Definition br (r : Rect) : Point2i :=
  mkPoint2i (wrap32 (x r + width r)) (wrap32 (y r + height r)).

(** [cv::Mat]: its size and its elements, [at_ m row col]. *)
Record Mat (A : Type) : Type := mkMat { rows : Z; cols : Z; at_ : Z -> Z -> A }.

Arguments mkMat {A} rows cols at_.
Arguments rows {A} m.
Arguments cols {A} m.
Arguments at_ {A} m row col.

(** [m(roi)]: the sub-matrix of [m] on the rectangle [roi]; OpenCV asserts
    that the rectangle lies inside the matrix and throws otherwise. *)
Definition roi {A : Type} (m : Mat A) (r : Rect) : outcome (Mat A) :=
  if (0 <=? x r) && (0 <=? width r) && (x r + width r <=? cols m)
     && (0 <=? y r) && (0 <=? height r) && (y r + height r <=? rows m)
  then Ok (mkMat (height r) (width r) (fun row col => at_ m (row + y r) (col + x r)))
  else Fault cv_Exception.

(** A BGR pixel, [cv::Vec3b]. *)
Record Vec3b : Type := mkVec3b { blue : Z; green : Z; red : Z }.

(** The indices [0 .. n-1] of a loop [for (int i = 0; i < n; i++)]. *)
Definition indices (n : Z) : list Z := zrange 0 (Z.to_nat n).

(** [cv::sum(m)[0]] of a single-channel matrix. *)
Definition cv_sum (m : Mat Z) : Z :=
  fold_left (fun acc row =>
               fold_left (fun acc col => acc + at_ m row col) (indices (cols m)) acc)
            (indices (rows m)) 0.

(* ------------------------------------------------------------------ *)
(** * Floating-point arithmetic *)

(** The binade of a positive rational [q]: the exponent [e] with
    [2^e <= q < 2^(e+1)]. *)
Definition binade (q : Q) : Z :=
  let e := Z.log2 (Qnum q) - Z.log2 (Z.pos (Qden q)) in
  if Qle_bool (2 ^ e) q then e else e - 1.

(** Rounding to the nearest binary floating-point number with [prec] bits
    of precision and least normal exponent [emin], ties to the even
    significand (the rounding of IEEE 754, which every arithmetic operation
    and every conversion of the x86-64 build applies to its exact result):
    the number is divided by the unit in the last place of its binade, the
    quotient is rounded to the nearest integer, ties to even (what
    [cvRound] computes), and scaled back.  Below [2^emin] the unit is that
    of the subnormal numbers.  A result beyond the largest finite number,
    which C++ turns into an infinity, is left as the rounded rational. *)
Definition roundBinary (prec emin : Z) (q : Q) : Q :=
  let a := Qabs q in
  let e := Z.max (binade a) emin in
  let ulp := (2 ^ (e - prec + 1))%Q in
  let r := Qred (inject_Z (cvRound (a / ulp)) * ulp) in
  if Qlt_bool q 0 then (- r)%Q else r.

(** Rounding to [float] (binary32) and to [double] (binary64). *)
Definition fl32 (q : Q) : Q := roundBinary 24 (-126) q.
Definition fl64 (q : Q) : Q := roundBinary 53 (-1022) q.

(** [a + b], [a - b], [a * b] and [a / b] on two [float]s. *)
Definition fadd (a b : Q) : Q := fl32 (a + b).
Definition fsub (a b : Q) : Q := fl32 (a - b).
Definition fmul (a b : Q) : Q := fl32 (a * b).
Definition fdiv (a b : Q) : Q := fl32 (a / b).

(** [a + b] and [a * b] on two [double]s. *)
Definition dadd (a b : Q) : Q := fl64 (a + b).
Definition dmul (a b : Q) : Q := fl64 (a * b).

(* ------------------------------------------------------------------ *)
(** * chessAnalysis.cpp: the best move *)

(** [std::unordered_map<std::string, int> squareNameToIndex]. *)
Definition squareNameToIndex : list (string * Z) :=
  [
    ("a8", 0); ("b8", 1); ("c8", 2); ("d8", 3); ("e8", 4); ("f8", 5); ("g8", 6); ("h8", 7);
    ("a7", 8); ("b7", 9); ("c7", 10); ("d7", 11); ("e7", 12); ("f7", 13); ("g7", 14); ("h7", 15);
    ("a6", 16); ("b6", 17); ("c6", 18); ("d6", 19); ("e6", 20); ("f6", 21); ("g6", 22); ("h6", 23);
    ("a5", 24); ("b5", 25); ("c5", 26); ("d5", 27); ("e5", 28); ("f5", 29); ("g5", 30); ("h5", 31);
    ("a4", 32); ("b4", 33); ("c4", 34); ("d4", 35); ("e4", 36); ("f4", 37); ("g4", 38); ("h4", 39);
    ("a3", 40); ("b3", 41); ("c3", 42); ("d3", 43); ("e3", 44); ("f3", 45); ("g3", 46); ("h3", 47);
    ("a2", 48); ("b2", 49); ("c2", 50); ("d2", 51); ("e2", 52); ("f2", 53); ("g2", 54); ("h2", 55);
    ("a1", 56); ("b1", 57); ("c1", 58); ("d1", 59); ("e1", 60); ("f1", 61); ("g1", 62); ("h1", 63) ].

(** [m.find(key)]: the value stored under [key], if there is one. *)
Fixpoint map_find {V : Type} (m : list (string * V)) (key : string) : option V :=
  match m with
  | [] => None
  | (k, v) :: m' => if String.eqb k key then Some v else map_find m' key
  end.

(** [std::pair<int, int> getBestMove(std::string fullString)]. *)
Definition getBestMove (fullString : string) (io : console) : console * (Z * Z) :=
  if String.prefix "bestmove" fullString && (13 <=? String.length fullString)%nat then
    let bestMove := String.substring 9 4 fullString in
    let firstSquare := String.substring 0 2 bestMove in
    let secondSquare := String.substring 2 2 bestMove in
    let io := printf ("Best move: " ++ firstSquare ++ " to " ++ secondSquare)%string io in
    match map_find squareNameToIndex firstSquare,
          map_find squareNameToIndex secondSquare with
    | Some firstIndex, Some secondIndex => (io, (firstIndex, secondIndex))
    | _, _ => (io, (0, 0))
    end
  else (io, (0, 0)).

(** The centre of a rectangle as [getChessAnalysis] computes it:
    [cv::Point2f(r.x + (0.5 * r.width), r.y + (0.5 * r.height))]; the
    arguments are computed in [double] and stored as [float]s. *)
Definition rectCentre (r : Rect) : Point2f :=
  mkPoint2f (fl32 (dadd (inject_Z (x r)) (dmul (1 # 2) (inject_Z (width r)))))
            (fl32 (dadd (inject_Z (y r)) (dmul (1 # 2) (inject_Z (height r))))).

(** The branch [if (j.find("bestmove") != j.end())] of [getChessAnalysis],
    entered with [fullString = j["bestmove"]]: the arrow that
    [cv::arrowedLine] draws, from its start to its end, if one is drawn.
    (The request to the engine, the parsing of its answer and the text of
    the evaluation are not modelled.) *)
Definition drawBestMove (squares : list Rect) (fullString : string) (io : console)
  : console * outcome (option (Point2f * Point2f)) :=
  let '(io, bestMove) := getBestMove fullString io in
  if negb (fst bestMove =? snd bestMove) then
    (io,
     startSquare <- vec_at squares (fst bestMove) ;;
     endSquare <- vec_at squares (snd bestMove) ;;
     Ok (Some (rectCentre startSquare, rectCentre endSquare)))
  else (io, Ok None).

(* ------------------------------------------------------------------ *)
(** * processingOps.cpp *)

(** [bool comparePoints(const cv::Point2f &p1, const cv::Point2f &p2)]; the
    sums [p1.y + ySlack] and [p2.y + ySlack] are [float] additions. *)
Definition comparePoints (p1 p2 : Point2f) : bool :=
  let ySlack := 8%Q in
  if Qlt_bool (fadd (py p1) ySlack) (py p2) then true
  else Qlt_bool (py p2) (fadd (py p1) ySlack)
       && Qlt_bool (py p1) (fadd (py p2) ySlack)
       && Qlt_bool (px p1) (px p2).

(** [bool checkIntersection(line1, line2, imageSize, r)]: the returned flag
    and the value of the reference parameter [r] after the call.  The
    coordinates of the segments and the sides of the image are converted to
    [float]; the differences, the products and the quotient [t1] are
    [float] operations; [t1] is stored in a [double], so that [d1 * t1] is
    a product in [double], which OpenCV stores as a [float]; the sum with
    [o1] is a [float] addition.  [std::abs(cross)] is compared with the
    [double] nearest to [1e-8]. *)
Definition checkIntersection (line1 line2 : Vec4i) (imageSize : Size) (r : Point2f)
  : bool * Point2f :=
  let o1 := mkPoint2f (fl32 (inject_Z (v0 line1))) (fl32 (inject_Z (v1 line1))) in
  let p1 := mkPoint2f (fl32 (inject_Z (v2 line1))) (fl32 (inject_Z (v3 line1))) in
  let o2 := mkPoint2f (fl32 (inject_Z (v0 line2))) (fl32 (inject_Z (v1 line2))) in
  let p2 := mkPoint2f (fl32 (inject_Z (v2 line2))) (fl32 (inject_Z (v3 line2))) in
  let x := mkPoint2f (fsub (px o2) (px o1)) (fsub (py o2) (py o1)) in
  let d1 := mkPoint2f (fsub (px p1) (px o1)) (fsub (py p1) (py o1)) in
  let d2 := mkPoint2f (fsub (px p2) (px o2)) (fsub (py p2) (py o2)) in
  let cross := fsub (fmul (px d1) (py d2)) (fmul (py d1) (px d2)) in
  if Qlt_bool (Qabs cross) (fl64 (1 # 100000000)) then (false, r)
  else
    let t1 := fdiv (fsub (fmul (px x) (py d2)) (fmul (py x) (px d2))) cross in
    let r := mkPoint2f (fadd (px o1) (fl32 (dmul (px d1) t1)))
                       (fadd (py o1) (fl32 (dmul (py d1) t1))) in
    (Qle_bool 0 (px r) && Qle_bool 0 (py r)
       && Qlt_bool (px r) (fl32 (inject_Z (size_width imageSize)))
       && Qlt_bool (py r) (fl32 (inject_Z (size_height imageSize))), r).

(** The argument of [sqrtf] in [distMacro(a, b)]. *)
Definition distSq (a b : Point2f) : Q :=
  ((px a - px b) * (px a - px b) + (py a - py b) * (py a - py b))%Q.

(** [sqrtf(s) <= d], decided without taking the root: a square root is never
    negative, and for [0 <= d] it is at most [d] exactly when [s <= d * d]. *)
Definition sqrtf_le (s d : Q) : bool :=
  if Qlt_bool d 0 then false else Qle_bool s (d * d).

(** [bool arePointsNearby(point, points, distance)]. *)
Fixpoint arePointsNearby (point : Point2f) (points : list Point2f) (distance : Q) : bool :=
  match points with
  | [] => false
  | p :: rest =>
      if sqrtf_le (distSq point p) distance then true
      else arePointsNearby point rest distance
  end.

Section GetIntersections.

(** [std::sort(first, last, comp)] of the C++ library. *)
Variable std_sort : (Point2f -> Point2f -> bool) -> list Point2f -> list Point2f.

(** The body of the inner loop of [getIntersections] for the segments
    [line1 = lines[i]] and [line2 = lines[j]]. *)
Definition intersectionStep (dst_rows dst_cols : Z) (imageSize : Size) (line1 line2 : Vec4i)
    (intersections : list Point2f) : list Point2f :=
  let '(hasIntersection, intersection) :=
    checkIntersection line1 line2 imageSize (mkPoint2f 0 0) in
  if hasIntersection
     && (Qlt_bool 25 (px intersection)
         && Qlt_bool (px intersection) (inject_Z (dst_cols - 25))
         && Qlt_bool 25 (py intersection)
         && Qlt_bool (py intersection) (inject_Z (dst_rows - 25)))
  then
    let nearby := arePointsNearby intersection intersections 30 in
    if negb nearby then intersections ++ [intersection] else intersections
  else intersections.

(** [for (i = 0; i < lines.size(); i++) for (j = i + 1; j < lines.size(); j++)]:
    [lines[i]] is the head of the remaining segments, [lines[j]] runs over
    the segments after it. *)
Fixpoint intersectionLoop (dst_rows dst_cols : Z) (imageSize : Size) (lines : list Vec4i)
    (intersections : list Point2f) : list Point2f :=
  match lines with
  | [] => intersections
  | line1 :: rest =>
      intersectionLoop dst_rows dst_cols imageSize rest
        (fold_left (fun acc line2 => intersectionStep dst_rows dst_cols imageSize line1 line2 acc)
                   rest intersections)
  end.

(** [int getIntersections(dst, lines, imageSize, intersections, showIntersections)]:
    the vector [intersections] after the call.  Of [dst] only the size is
    read; the circles and numbers drawn on it are not modelled. *)
Definition getIntersections (dst_rows dst_cols : Z) (lines : list Vec4i) (imageSize : Size)
    (intersections : list Point2f) : list Point2f :=
  std_sort comparePoints (intersectionLoop dst_rows dst_cols imageSize lines intersections).

End GetIntersections.

(** [std::vector<cv::Point2f> scalePointsToOriginal(image, points,
    originalSize, smallerSize, showPoints)] for a [smallerSize] with
    non-zero sides (the circles and numbers drawn on [image] are not
    modelled). *)
Definition scalePointsToOriginal (points : list Point2f) (originalSize smallerSize : Size)
  : list Point2f :=
  let scaleX := fdiv (fl32 (inject_Z (size_width originalSize)))
                     (fl32 (inject_Z (size_width smallerSize))) in
  let scaleY := fdiv (fl32 (inject_Z (size_height originalSize)))
                     (fl32 (inject_Z (size_height smallerSize))) in
  map (fun point => mkPoint2f (fmul (px point) scaleX) (fmul (py point) scaleY)) points.

(** The body of the inner loop of [setRectangles]. *)
Definition rectangleStep (intersections : list Point2f) (row col : Z) (rectangles : list Rect)
  : outcome (list Rect) :=
  topLeft <- vec_at intersections (row * 9 + col) ;;
  bottomRight <- vec_at intersections ((row + 1) * 9 + (col + 1)) ;;
  Ok (rectangles ++ [Rect_ (toPoint2i topLeft) (toPoint2i bottomRight)]).

(** [int setRectangles(dst, intersections, rectangles, showRectangles)]: the
    vector [rectangles] after the call (the drawing on [dst] is not
    modelled). *)
Definition setRectangles (intersections : list Point2f) (rectangles : list Rect)
  : outcome (list Rect) :=
  for_loop 8 0 (fun row rectangles =>
    for_loop 8 0 (fun col rectangles => rectangleStep intersections row col rectangles)
             rectangles)
    rectangles.

(* ------------------------------------------------------------------ *)
(** * chessCV.cpp: from the segments to the squares *)

(** The statements that the branches ['s'], ['p'], ['x'] and ['a'] of
    [handleBoardFlow] share (they are repeated in [handleSavingDisplay] and
    in [labelImages]), from the segments that [calcHoughLines] returns for
    the image resized to 428 x 524 to the rectangles of the squares:
    [getIntersections(dst, lines, newSize, intersections)] on the resized
    image, [scalePointsToOriginal(dst, intersections, src.size(), newSize)],
    [setRectangles(dst, originalPoints, rectangles)]. *)
Definition findSquares
    (std_sort : (Point2f -> Point2f -> bool) -> list Point2f -> list Point2f)
    (lines : list Vec4i) (srcSize : Size) : outcome (list Rect) :=
  let newSize := mkSize 428 524 in
  let intersections := getIntersections std_sort 524 428 lines newSize [] in
  let originalPoints := scalePointsToOriginal intersections srcSize newSize in
  setRectangles originalPoints [].

(* ------------------------------------------------------------------ *)
(** * pieceDetectionOps.hpp and pieceDetectionOps.cpp *)

(** [const std::string PIECE_VALUES[12]]. *)
Definition PIECE_VALUES : list string :=
  ["bb"; "bk"; "bn"; "bp"; "bq"; "br"; "wb"; "wk"; "wn"; "wp"; "wq"; "wr"].

(** What a run of the labelling code lets an observer see: the lines it
    prints, and each call of [isEmptySpace] with the flag it is given. *)
Inductive event : Type :=
| Printed (line : string)
| Called_isEmptySpace (currentRect : Rect) (isDarkSquare : bool).

(** A computation that appends to the trace of events and ends in an
    outcome. *)
Definition M (A : Type) : Type := list event -> list event * outcome A.

Definition ret {A : Type} (a : A) : M A := fun tr => (tr, Ok a).

Definition lift {A : Type} (o : outcome A) : M A := fun tr => (tr, o).

Definition emit (e : event) : M unit := fun tr => (tr ++ [e], Ok tt).

Definition bindM {A B : Type} (m : M A) (k : A -> M B) : M B :=
  fun tr =>
    match m tr with
    | (tr', Ok a) => k a tr'
    | (tr', Fault f) => (tr', Fault f)
    end.

Notation "x <~ m ;; k" := (bindM m (fun x => k))
  (at level 61, m at next level, right associativity).

(** [for (T x : xs) s = body(x, s);] *)
Fixpoint for_each {A S : Type} (xs : list A) (body : A -> S -> M S) (s : S) : M S :=
  match xs with
  | [] => ret s
  | a :: rest => s' <~ body a s ;; for_each rest body s'
  end.

(** The conversion [double -> int] of an initialiser: truncation. *)
Definition Qtrunc (q : Q) : Z := if Qlt_bool q 0 then Qceiling q else Qfloor q.

(** [cv::minMaxLoc(scores, nullptr, &confidence, nullptr, &classIdPoint)] on
    a single row: the column of the first largest score, [-1] on an empty
    row. *)
Fixpoint maxLocFrom (scores : list Q) (i : Z) (best : Q) (bestIdx : Z) : Z :=
  match scores with
  | [] => bestIdx
  | v :: rest =>
      if Qlt_bool best v then maxLocFrom rest (i + 1) v i
      else maxLocFrom rest (i + 1) best bestIdx
  end.

Definition maxLoc (scores : list Q) : Z :=
  match scores with
  | [] => -1
  | v :: rest => maxLocFrom rest 1 v 0
  end.

(** [histogram.at<float>(r, c) = histogram.at<float>(r, c) + 1]. *)
Definition Mat_incr (m : Mat Q) (r c : Z) : Mat Q :=
  mkMat (rows m) (cols m)
        (fun row col => if (row =? r) && (col =? c) then (at_ m row col + 1)%Q
                        else at_ m row col).

(** [void normalizeHistogram(cv::Mat &histogram, float hTotal)]. *)
Definition normalizeHistogram (histogram : Mat Q) (hTotal : Q) : Mat Q :=
  mkMat (rows histogram) (cols histogram)
        (fun row col => (at_ histogram row col / hTotal)%Q).

(** [cv::Mat getHistogramFeature(cv::Mat &image, int numBins)]; the pixels
    are [uchar] triples. *)
Definition getHistogramFeature (image : Mat Vec3b) (numBins : Z) : Mat Q :=
  let histogram :=
    fold_left (fun histogram i =>
      fold_left (fun histogram j =>
        let p := at_ image i j in
        let total := inject_Z (blue p + green p + red p) in
        let '(r, g) :=
          if Qeq_bool total 0 then (0%Q, 0%Q)
          else ((inject_Z (red p) / total)%Q, (inject_Z (green p) / total)%Q) in
        let rIndex := Qtrunc (r * inject_Z (numBins - 1) + (1 # 2)) in
        let gIndex := Qtrunc (g * inject_Z (numBins - 1) + (1 # 2)) in
        Mat_incr histogram rIndex gIndex)
        (indices (cols image)) histogram)
      (indices (rows image))
      (mkMat numBins numBins (fun _ _ => 0%Q)) in
  let hTotal := inject_Z (rows image * cols image) in
  normalizeHistogram histogram hTotal.

(** [void convertMatToVec(cv::Mat &histogram, std::vector<float> &result)]
    (a matrix made by [cv::Mat::zeros] is continuous): the elements, row by
    row. *)
Definition convertMatToVec (histogram : Mat Q) : list Q :=
  flat_map (fun row => map (fun col => at_ histogram row col) (indices (cols histogram)))
           (indices (rows histogram)).

(** [float computeHistogramIntersectionDifference(std::vector<float> h1,
    std::vector<float> h2)]. *)
Definition computeHistogramIntersectionDifference (h1 h2 : list Q) : M Q :=
  _ <~ (if negb (length h1 =? length h2)%nat then emit (Printed "Size issues...")
        else ret tt) ;;
  intersection <~ lift (for_loop (length h1) 0
                          (fun i intersection =>
                             a <- vec_at h1 i ;;
                             b <- vec_at h2 i ;;
                             Ok (intersection + Qmin a b)%Q)
                          0%Q) ;;
  ret (1 - intersection)%Q.

(** [FLT_MAX]. *)
Definition FLT_MAX : Q := inject_Z (2 ^ 128 - 2 ^ 104).

(** [std::string computeHistogramDiffs(image, currentRect, labels,
    featureData, nBins)]. *)
Definition computeHistogramDiffs (image : Mat Vec3b) (currentRect : Rect)
    (labels : list string) (featureData : list (list Q)) (nBins : Z) : M string :=
  square <~ lift (roi image currentRect) ;;
  let featuresMat := getHistogramFeature square nBins in
  let features := convertMatToVec featuresMat in
  best <~ for_each (indices (Z.of_nat (length labels)))
            (fun i (best : Q * string) =>
               let '(bestDiff, bestLabel) := best in
               data <~ lift (vec_at featureData i) ;;
               currentDiff <~ computeHistogramIntersectionDifference features data ;;
               if Qlt_bool currentDiff bestDiff then
                 label <~ lift (vec_at labels i) ;;
                 ret (currentDiff, label)
               else ret (bestDiff, bestLabel))
            (FLT_MAX, "") ;;
  ret (snd best).

Section PieceDetection.

(** OpenCV's image operations and the classifier, as the code calls them. *)
Variable cvtColor_BGR2GRAY : Mat Vec3b -> outcome (Mat Z).
Variable Canny : Mat Z -> Z -> Z -> outcome (Mat Z).
Variable putText : Mat Vec3b -> string -> Point2i -> Mat Vec3b.

(** [blobFromImage], [readNetFromONNX(PIECE_CLASSIFIER_FILE_PATH)],
    [setInput], [forward] and [reshape(1, 1)]: the row of class scores. *)
Variable classifier : Mat Vec3b -> outcome (list Q).

(** The tables that [read_image_data_csv] loads from the two feature files. *)
Variable lightLabels darkLabels : list string.
Variable lightData darkData : list (list Q).

(** [bool isEmptySpace(cv::Mat &image, cv::Rect &currentRect, bool isDarkSquare)];
    [currentRect.width * 0.2] is a product in [double] (of the [double]
    nearest to [0.2]) that is stored in a [float]. *)
Definition isEmptySpace (image : Mat Vec3b) (currentRect : Rect) (isDarkSquare : bool)
  : outcome bool :=
  let startX := fl32 (dmul (inject_Z (width currentRect)) (fl64 (2 # 10))) in
  let endX := fl32 (dmul (inject_Z (width currentRect)) (fl64 (8 # 10))) in
  let startY := fl32 (dmul (inject_Z (height currentRect)) (fl64 (2 # 10))) in
  let endY := fl32 (dmul (inject_Z (height currentRect)) (fl64 (8 # 10))) in
  square <- roi image currentRect ;;
  temp <- cvtColor_BGR2GRAY square ;;
  temp <- Canny temp 10 250 ;;
  regionToCheck <- roi temp (Rect_ (toPoint2i (mkPoint2f startX startY))
                                   (toPoint2i (mkPoint2f endX endY))) ;;
  let cannySum := cv_sum regionToCheck in
  Ok (cannySum <? 7000).

(** [std::string getNNPieceLabel(cv::Mat &image, cv::Rect &currentRect)]. *)
Definition getNNPieceLabel (image : Mat Vec3b) (currentRect : Rect) : M string :=
  square <~ lift (roi image currentRect) ;;
  output <~ lift (classifier square) ;;
  let classId := maxLoc output in
  _ <~ emit (Printed ("class ID: " ++ to_string classId)) ;;
  label <~ lift (vec_at PIECE_VALUES classId) ;;
  _ <~ emit (Printed ("label name: " ++ label)) ;;
  ret label.

(** Where the label of a square is drawn:
    [cv::Point(currentRect.x + (0.25 * currentRect.width),
               currentRect.y + (0.6 * currentRect.height))], computed in
    [double] and truncated to [int]. *)
Definition labelOrigin (currentRect : Rect) : Point2i :=
  mkPoint2i
    (Qtrunc (dadd (inject_Z (x currentRect))
                  (dmul (fl64 (25 # 100)) (inject_Z (width currentRect)))))
    (Qtrunc (dadd (inject_Z (y currentRect))
                  (dmul (fl64 (6 # 10)) (inject_Z (height currentRect))))).

(** The variables of the loops of [getPieceLabels] and [getPieceLabelsNN]. *)
Record labelState : Type := mkLabelState {
  dst : Mat Vec3b;
  squareLabels : list string;
  current : Z;
  isDarkSquare : bool
}.

(** The call [isEmptySpace(temp, currentRect, isDarkSquare)], observed. *)
Definition call_isEmptySpace (temp : Mat Vec3b) (currentRect : Rect) (isDark : bool) : M bool :=
  _ <~ emit (Called_isEmptySpace currentRect isDark) ;;
  lift (isEmptySpace temp currentRect isDark).

(** One iteration of the loop of [getPieceLabels]. *)
Definition pieceLabelsStep (temp : Mat Vec3b) (showLabels : bool) (currentRect : Rect)
    (s : labelState) : M labelState :=
  empty <~ call_isEmptySpace temp currentRect (isDarkSquare s) ;;
  s' <~ (if empty then
           let dst' := if showLabels then putText (dst s) "ee" (labelOrigin currentRect)
                       else dst s in
           ret (mkLabelState dst' (squareLabels s ++ ["ee"]) (current s) (isDarkSquare s))
         else
           currentLabel <~ (if isDarkSquare s
                            then computeHistogramDiffs (dst s) currentRect darkLabels darkData 16
                            else computeHistogramDiffs (dst s) currentRect lightLabels lightData 16) ;;
           let dst' := if showLabels then putText (dst s) currentLabel (labelOrigin currentRect)
                       else dst s in
           ret (mkLabelState dst' (squareLabels s ++ [currentLabel]) (current s)
                             (isDarkSquare s))) ;;
  let isDark' := if negb (current s' mod 8 =? 7) then negb (isDarkSquare s')
                 else isDarkSquare s' in
  ret (mkLabelState (dst s') (squareLabels s') (current s' + 1) isDark').

(** [int getPieceLabels(dst, rectangles, squareLabels, showLabels)]: the
    image [dst] and the vector [squareLabels] after the call. *)
Definition getPieceLabels (dst0 : Mat Vec3b) (rectangles : list Rect)
    (squareLabels0 : list string) (showLabels : bool) : M (Mat Vec3b * list string) :=
  let temp := dst0 in
  s <~ for_each rectangles (pieceLabelsStep temp showLabels)
         (mkLabelState dst0 squareLabels0 0 false) ;;
  ret (dst s, squareLabels s).

(** One iteration of the loop of [getPieceLabelsNN] (which has no variable
    [current]; the field stays [0]). *)
Definition pieceLabelsNNStep (temp : Mat Vec3b) (showLabels : bool) (currentRect : Rect)
    (s : labelState) : M labelState :=
  empty <~ call_isEmptySpace temp currentRect (isDarkSquare s) ;;
  s' <~ (if empty then
           let dst' := if showLabels then putText (dst s) "ee" (labelOrigin currentRect)
                       else dst s in
           ret (mkLabelState dst' (squareLabels s ++ ["ee"]) (current s) (isDarkSquare s))
         else
           currentLabel <~ getNNPieceLabel (dst s) currentRect ;;
           let dst' := if showLabels then putText (dst s) currentLabel (labelOrigin currentRect)
                       else dst s in
           ret (mkLabelState dst' (squareLabels s ++ [currentLabel]) (current s)
                             (isDarkSquare s))) ;;
  ret (mkLabelState (dst s') (squareLabels s') (current s') (negb (isDarkSquare s'))).

(** [int getPieceLabelsNN(dst, rectangles, squareLabels, showLabels)]. *)
Definition getPieceLabelsNN (dst0 : Mat Vec3b) (rectangles : list Rect)
    (squareLabels0 : list string) (showLabels : bool) : M (Mat Vec3b * list string) :=
  let temp := dst0 in
  s <~ for_each rectangles (pieceLabelsNNStep temp showLabels)
         (mkLabelState dst0 squareLabels0 0 false) ;;
  ret (dst s, squareLabels s).

End PieceDetection.

(** The flags that the calls of [isEmptySpace] in a trace were given, in the
    order of the calls. *)
Fixpoint flagsPassed (tr : list event) : list bool :=
  match tr with
  | [] => []
  | Called_isEmptySpace _ isDark :: rest => isDark :: flagsPassed rest
  | Printed _ :: rest => flagsPassed rest
  end.

(* ------------------------------------------------------------------ *)
(** * csv_util.cpp *)

(** A file is the string of its bytes, and a stream open for reading is the
    bytes still to be read: [fgetc] takes the first of them, and returns
    [EOF] for ever once none is left.  The functions store the result of
    [fgetc] in a [char] before comparing it with [EOF]; [char] is taken to
    be signed (as on x86-64), so that the byte 255 compares equal to [EOF].
    A C string ends at its first NUL. *)
Definition NUL : ascii := "000"%char.
Definition newline : ascii := "010"%char.
Definition EOF_char : ascii := "255"%char.

(** The characters of a [char] array up to the terminator. *)
Fixpoint c_str (s : string) : string :=
  match s with
  | EmptyString => EmptyString
  | String ch rest => if Ascii.eqb ch NUL then EmptyString else String ch (c_str rest)
  end.

(** [os[p] = '\0'; return(eol);] at the end of [getstring], [getint] and
    [getfloat], for a buffer of [capacity] bytes holding [os]. *)
Definition endField (capacity : nat) (os : string) (eol : bool) (fp : string)
  : outcome (string * bool * string) :=
  if (capacity <=? String.length os)%nat
  then Fault (UB_OutOfRange (Z.of_nat (String.length os)) capacity)
  else Ok (os, eol, fp).

(** The loop of [getstring], [getint] and [getfloat]: the characters up to
    the next [','], ['\n'] or [EOF] go to the buffer; the result is the
    buffer, whether the line (or the file) ended, and the rest of the
    stream.  Writing past the buffer is undefined behaviour. *)
Fixpoint scanField (capacity : nat) (fp : string) (os : string)
  : outcome (string * bool * string) :=
  match fp with
  | EmptyString => endField capacity os true EmptyString
  | String ch rest =>
      if Ascii.eqb ch "," then endField capacity os false rest
      else if Ascii.eqb ch newline || Ascii.eqb ch EOF_char
           then endField capacity os true rest
      else if (capacity <=? String.length os)%nat
           then Fault (UB_OutOfRange (Z.of_nat (String.length os)) capacity)
           else scanField capacity rest (os ++ String ch EmptyString)
  end.

(** [int getstring(FILE *fp, char os[])], for a buffer [os] of [capacity]
    bytes. *)
Definition getstring (capacity : nat) (fp : string) : outcome (string * bool * string) :=
  scanField capacity fp "".

Section CsvUtil.

(** [atof] followed by the conversion to [float], and the conversion
    [%.4f] of [sprintf] and [printf]. *)
Variable atof : string -> Q.
Variable sprintf_4f : Q -> string.

(** [int getfloat(FILE *fp, float *v)]. *)
Definition getfloat (fp : string) : outcome (Q * bool * string) :=
  match scanField 256 fp "" with
  | Ok (s, eol, fp') => Ok (atof (c_str s), eol, fp')
  | Fault f => Fault f
  end.

(** The loop that writes the values in [append_image_data_csv]. *)
Fixpoint writeValues (image_data : list Q) (fp : string) : outcome string :=
  match image_data with
  | [] => Ok fp
  | v :: rest =>
      let tmp := ("," ++ sprintf_4f v)%string in
      if (256 <=? String.length tmp)%nat
      then Fault (UB_OutOfRange (Z.of_nat (String.length tmp)) 256)
      else writeValues rest (fp ++ c_str tmp)
  end.

(** [int append_image_data_csv(filename, label_name, pieceColor, image_data,
    reset_file)] on a file that can be opened: the contents of the file
    after the call.  A file that does not exist yet is created, its
    contents before the call are empty.  (When the file cannot be opened the
    function prints a message and ends the program.) *)
Definition append_image_data_csv (file : string) (label_name pieceColor : ascii)
    (image_data : list Q) (reset_file : bool) : outcome string :=
  let fp := if reset_file then "" else file in
  let buffer := String label_name (String "," (String pieceColor EmptyString)) in
  let fp := (fp ++ c_str buffer)%string in
  fp <- writeValues image_data fp ;;
  Ok (fp ++ String newline EmptyString)%string.

(** The inner loop of [read_image_data_csv]: the values of a line.  The
    loop is given more rounds than the stream has bytes. *)
Fixpoint readValues (fuel : nat) (fp : string) (dvec : list Q) : outcome (list Q * string) :=
  match fuel with
  | O => Fault Diverges
  | Datatypes.S fuel' =>
      match getfloat fp with
      | Ok (fval, eol, fp') =>
          let dvec := dvec ++ [fval] in
          if eol then Ok (dvec, fp') else readValues fuel' fp' dvec
      | Fault f => Fault f
      end
  end.

(** The outer loop of [read_image_data_csv]. *)
Fixpoint readRecords (fuel : nat) (fp : string) (labels : list string)
    (data : list (list Q)) : outcome (list string * list (list Q)) :=
  match fuel with
  | O => Fault Diverges
  | Datatypes.S fuel' =>
      match getstring 256 fp with
      | Fault f => Fault f
      | Ok (_, true, _) => Ok (labels, data)
      | Ok (label, false, fp) =>
          match getstring 256 fp with
          | Fault f => Fault f
          | Ok (_, true, _) => Ok (labels, data)
          | Ok (color, false, fp) =>
              match readValues (Datatypes.S (String.length fp)) fp [] with
              | Fault f => Fault f
              | Ok (dvec, fp) =>
                  let fname := (c_str color ++ c_str label)%string in
                  readRecords fuel' fp (labels ++ [fname]) (data ++ [dvec])
              end
          end
      end
  end.

(** What [read_image_data_csv] prints when [echo_file] is set, one string
    per call of [printf]. *)
Definition echoData (data : list (list Q)) : list string :=
  flat_map (fun dvec => map (fun v => (sprintf_4f v ++ "  ")%string) dvec
                        ++ [String newline EmptyString]) data
  ++ [String newline EmptyString].

(** [int read_image_data_csv(filename, labels, data, echo_file)]; [file] is
    the contents of the file, [None] when it cannot be opened.  The result
    is what is printed, the value returned and the two vectors after the
    call. *)
Definition read_image_data_csv (file : option string) (labels : list string)
    (data : list (list Q)) (echo_file : bool)
  : list string * outcome (Z * list string * list (list Q)) :=
  match file with
  | None =>
      ([("Unable to open feature file" ++ String newline EmptyString)%string],
       Ok (-1, labels, data))
  | Some fp =>
      match readRecords (Datatypes.S (String.length fp)) fp labels data with
      | Fault f => ([], Fault f)
      | Ok (labels', data') =>
          (if echo_file then echoData data' else [], Ok (0, labels', data'))
      end
  end.

End CsvUtil.

(* ------------------------------------------------------------------ *)
(** * pieceDetectionOps.cpp: labelling the squares *)

(** [std::unordered_set<char> possibleLabels]. *)
Definition possibleLabels : list ascii := ["e"; "p"; "b"; "n"; "r"; "q"; "k"]%char.

(** The conversion of the [int] that [cv::waitKey] returns to a [char]
    ([static_cast<char>(key)], and the argument of [possibleLabels.find]):
    the low 8 bits. *)
Definition char_of_key (key : Z) : ascii := ascii_of_N (Z.to_N (key mod 256)).

(** [for (T x : xs) s = body(x, s);] for a body that can fail. *)
Fixpoint for_range {A S : Type} (xs : list A) (body : A -> S -> outcome S) (s : S)
  : outcome S :=
  match xs with
  | [] => Ok s
  | a :: rest => s' <- body a s ;; for_range rest body s'
  end.

(** What the loop of [labelImages] works on: the keys that [cv::waitKey(0)]
    is still to return, the contents of the two feature files (light, dark),
    the lines printed, the variables [current] and [isDarkSquare]; and, to
    state what the loop did, the calls of [addLabelFeatures] that returned:
    the index of the square, the piece, the colour and the flag. *)
Record labelling : Type := mkLabelling {
  keys : list Z;
  files : string * string;
  printed : list string;
  stored : list (Z * ascii * ascii * bool);
  currentSquare : Z;
  darkSquare : bool
}.

Section LabelImages.

Variable sprintf_4f : Q -> string.
Variable std_sort : (Point2f -> Point2f -> bool) -> list Point2f -> list Point2f.

(** [void addLabelFeatures(src, rectangle, label, pieceColor, isDarkSquare)]:
    the contents of the two feature files, [(light, dark)], after the
    call. *)
Definition addLabelFeatures (src : Mat Vec3b) (rectangle : Rect) (label pieceColor : ascii)
    (isDarkSquare : bool) (files : string * string) : outcome (string * string) :=
  square <- roi src rectangle ;;
  let nBins := 16 in
  let histogram := getHistogramFeature square nBins in
  let histVec := convertMatToVec histogram in
  if isDarkSquare then
    dark <- append_image_data_csv sprintf_4f (snd files) label pieceColor histVec false ;;
    Ok (fst files, dark)
  else
    light <- append_image_data_csv sprintf_4f (fst files) label pieceColor histVec false ;;
    Ok (light, snd files).

(** One iteration of the loop of [labelImages]; the windows it opens and
    closes are left out.  [cv::waitKey(0)] waits for a key: without a key it
    never returns. *)
Definition labelImagesStep (src : Mat Vec3b) (currentRect : Rect) (s : labelling)
  : outcome labelling :=
  match keys s with
  | [] => Fault Diverges
  | key :: keys1 =>
      s1 <- (if existsb (Ascii.eqb (char_of_key key)) possibleLabels then
               let line := ("Identified as: "
                              ++ String (char_of_key key) (String newline ""))%string in
               match keys1 with
               | [] => Fault Diverges
               | color :: keys2 =>
                   files1 <- addLabelFeatures src currentRect (char_of_key key)
                               (char_of_key color) (darkSquare s) (files s) ;;
                   Ok (mkLabelling keys2 files1 (printed s ++ [line])
                         (stored s ++ [(currentSquare s, char_of_key key,
                                        char_of_key color, darkSquare s)])
                         (currentSquare s) (darkSquare s))
               end
             else Ok (mkLabelling keys1 (files s) (printed s) (stored s)
                                  (currentSquare s) (darkSquare s))) ;;
      let dark := if negb (currentSquare s1 mod 8 =? 7) then negb (darkSquare s1)
                  else darkSquare s1 in
      Ok (mkLabelling (keys s1) (files s1) (printed s1) (stored s1)
                      (currentSquare s1 + 1) dark)
  end.

(** [int labelImages(cv::Mat &src)], given the segments that
    [calcHoughLines] returns for the resized image. *)
Definition labelImages (src : Mat Vec3b) (lines : list Vec4i) (keys0 : list Z)
    (files0 : string * string) : outcome labelling :=
  rectangles <- findSquares std_sort lines (mkSize (cols src) (rows src)) ;;
  for_range rectangles (labelImagesStep src) (mkLabelling keys0 files0 [] [] 0 false).

End LabelImages.

(* ------------------------------------------------------------------ *)
(** * Notions used in the statements *)

(** The rounding of a non-negative number. *)
Definition roundAbs (prec emin : Z) (a : Q) : Q :=
  let e := Z.max (binade a) emin in
  let ulp := (2 ^ (e - prec + 1))%Q in
  (inject_Z (cvRound (a / ulp)) * ulp)%Q.



(** The requirements of [std::sort] on its comparison: a strict weak
    ordering of the values that are compared. *)
Definition incomparable {A : Type} (cmp : A -> A -> bool) (a b : A) : Prop :=
  cmp a b = false /\ cmp b a = false.

Definition strictWeakOrderingOn {A : Type} (dom : A -> Prop) (cmp : A -> A -> bool) : Prop :=
  (forall a, dom a -> cmp a a = false)
  /\ (forall a b c, dom a -> dom b -> dom c ->
        cmp a b = true -> cmp b c = true -> cmp a c = true)
  /\ (forall a b c, dom a -> dom b -> dom c ->
        incomparable cmp a b -> incomparable cmp b c -> incomparable cmp a c).

(** Two points are further than the dedup radius of 30 apart: the square of
    their Euclidean distance exceeds [30 * 30]. *)
Definition farApart (p q : Point2f) : Prop := (900 < distSq p q)%Q.

(** The Euclidean distance of two points, a real number: what
    [distMacro(p, q)] computes, up to rounding. *)
Definition euclideanDistance (p q : Point2f) : Rdefinitions.R :=
  R_sqrt.sqrt (Rdefinitions.Q2R (distSq p q)).

(** The Euclidean distance of [p] and [q] is greater than [radius]. *)
Definition distanceExceeds (radius : Z) (p q : Point2f) : Prop :=
  Rdefinitions.Rlt (Rdefinitions.IZR radius) (euclideanDistance p q).

(** No two points of the list are within the dedup radius of each other. *)
Definition pairwiseFar (l : list Point2f) : Prop := ForallOrdPairs farApart l.

(** A sorting function to run [getIntersections] with: insertion sort. *)
Fixpoint insertSorted {A : Type} (cmp : A -> A -> bool) (a : A) (l : list A) : list A :=
  match l with
  | [] => [a]
  | b :: rest => if cmp b a then b :: insertSorted cmp a rest else a :: b :: rest
  end.

Definition insertionSort {A : Type} (cmp : A -> A -> bool) (l : list A) : list A :=
  fold_right (insertSorted cmp) [] l.

(** No value of the list compares as less than an earlier one. *)
Fixpoint sortedBy {A : Type} (cmp : A -> A -> bool) (l : list A) : bool :=
  match l with
  | [] => true
  | a :: rest => forallb (fun b => negb (cmp b a)) rest && sortedBy cmp rest
  end.

(** What the C++ standard promises of [std::sort(first, last, comp)]: when
    [comp] is a strict weak ordering of the values of the range, the range
    afterwards holds the same values, sorted.  When it is not, the behaviour
    of the call is undefined: nothing is promised. *)
Definition conformingSort {A : Type} (sort : (A -> A -> bool) -> list A -> list A) : Prop :=
  forall cmp l,
    strictWeakOrderingOn (fun a => In a l) cmp ->
    Permutation (sort cmp l) l /\ sortedBy cmp (sort cmp l) = true.



(** The rectangle that [setRectangles] builds for the square in row [row]
    and column [col] when both reads are inside the vector. *)
Definition gridCell (intersections : list Point2f) (row col : Z) : Rect :=
  Rect_ (toPoint2i (nth (Z.to_nat (row * 9 + col)) intersections (mkPoint2f 0 0)))
        (toPoint2i (nth (Z.to_nat ((row + 1) * 9 + (col + 1))) intersections (mkPoint2f 0 0))).

(** [z] is the integer nearest to [v], the even one when [v] lies halfway
    between two integers. *)
Definition nearestPixel (v : Q) (z : Z) : Prop :=
  (Qabs (v - inject_Z z) <= 1 # 2)%Q
  /\ ((Qabs (v - inject_Z z) == 1 # 2)%Q -> Z.even z = true).

(** The pixel nearest to a point. *)
Definition nearestPixelPoint (p : Point2f) (c : Point2i) : Prop :=
  nearestPixel (px p) (ix c) /\ nearestPixel (py p) (iy c).

(** The rectangle [r] spans from the pixel [topLeft], its top-left corner, to
    the pixel [bottomRight], its bottom-right corner (the corner that
    [Rect::br()] returns, one past the last column and row). *)
Definition spansFrom (r : Rect) (topLeft bottomRight : Point2i) : Prop :=
  x r = ix topLeft /\ y r = iy topLeft
  /\ x r + width r = ix bottomRight /\ y r + height r = iy bottomRight.

(** The rectangle [r] is the bounding box of the pixels [a] and [b]. *)
Definition boundingBox (r : Rect) (a b : Point2i) : Prop :=
  spansFrom r (mkPoint2i (Z.min (ix a) (ix b)) (Z.min (iy a) (iy b)))
              (mkPoint2i (Z.max (ix a) (ix b)) (Z.max (iy a) (iy b))).

(** The coordinates of every point are in the range of the pixel
    coordinates of an image: not negative, and at most [INT_MAX]. *)
Definition imagePoints (points : list Point2f) : bool :=
  forallb (fun p => Qle_bool 0 (px p) && Qle_bool (px p) (inject_Z INT_MAX)
                    && Qle_bool 0 (py p) && Qle_bool (py p) (inject_Z INT_MAX)) points.

(** The 81 points are a 9x9 lattice flattened row by row: the point at index
    [i] is in lattice row [i / 9] and lattice column [i mod 9]; a point of an
    earlier row is not below a point of a later row, and a point of an
    earlier column is not to the right of a point of a later column. *)
Definition sorted_row_major (points : list Point2f) : bool :=
  forallb (fun i =>
    forallb (fun j =>
      let p := nth i points (mkPoint2f 0 0) in
      let q := nth j points (mkPoint2f 0 0) in
      (if (i / 9 <? j / 9)%nat then Qle_bool (py p) (py q) else true)
      && (if (i mod 9 <? j mod 9)%nat then Qle_bool (px p) (px q) else true))
      (seq 0 81))
    (seq 0 81).

(** How a run of [n] empty squares is written: its decimal count, and
    nothing for an empty run. *)
Definition runText (n : Z) : string := if 0 <? n then to_string n else "".

(** The part of the loop body of [getFenFromLabels] that handles the square
    itself (the part after the row separator). *)
Definition squareStep (label : string) (st : Z * string) : outcome (Z * string) :=
  if String.eqb label "ee" then
    let '(currentEmpty, fen) := st in Ok (currentEmpty + 1, fen)
  else
    let '(currentEmpty, fen) := flushEmpty st in
    c <- map_at pieceToFen label ;;
    Ok (currentEmpty, (fen ++ c)%string).

Fixpoint squareLoop (labels : list string) (st : Z * string) : outcome (Z * string) :=
  match labels with
  | [] => Ok st
  | label :: rest => st' <- squareStep label st ;; squareLoop rest st'
  end.

(** The notation of the board as the specification words it.  The squares
    of a row, entered with a run of [n] empty squares: a run of consecutive
    empty squares is written as its count, before the next piece or at the
    end of the row; a piece is written as its letter. *)
Fixpoint specEncodeSquares (row : list string) (n : Z) : outcome string :=
  match row with
  | [] => Ok (runText n)
  | label :: rest =>
      if String.eqb label "ee" then specEncodeSquares rest (n + 1)
      else
        c <- map_at pieceToFen label ;;
        s <- specEncodeSquares rest 0 ;;
        Ok (runText n ++ c ++ s)%string
  end.

(** The rows, each encoded on its own, with a separator between two rows. *)
Fixpoint specEncodeRows (rows : list (list string)) : outcome string :=
  match rows with
  | [] => Ok ""
  | row :: rest =>
      s <- specEncodeSquares row 0 ;;
      match rest with
      | [] => Ok s
      | _ => t <- specEncodeRows rest ;; Ok (s ++ "/" ++ t)%string
      end
  end.

(** The labels cut into [n] rows of 8. *)
Fixpoint rowsOf8 (n : nat) (labels : list string) : list (list string) :=
  match n with
  | O => []
  | Datatypes.S n' => firstn 8 labels :: rowsOf8 n' (skipn 8 labels)
  end.

Definition specEncodeBoard (labels : list string) : outcome string :=
  specEncodeRows (rowsOf8 8 labels).

(** The number of empty squares at the end of a row: when all squares are
    empty, their number; otherwise what it is without the first square. *)
Fixpoint trailingEmpty (labels : list string) : Z :=
  match labels with
  | [] => 0
  | _ :: rest =>
      if forallb (fun label => String.eqb label "ee") labels
      then Z.of_nat (length labels)
      else trailingEmpty rest
  end.

(** The last of the eight rows of the board. *)
Definition lastRow (labels : list string) : list string := last (rowsOf8 8 labels) [].

(** The name of the square in file [file] ([0] is the a-file) and on rank
    [rank + 1], and its row-major index on a board seen from White's side:
    rank 8 is row 0. *)
Definition squareName (file rank : nat) : string :=
  String (ascii_of_nat (97 + file)) (String (ascii_of_nat (49 + rank)) EmptyString).

Definition squareIndex (file rank : nat) : Z := Z.of_nat ((7 - rank) * 8 + file).

(** An answer of the engine that names a move: ["bestmove"], one more
    character, the names of two squares, and anything after them. *)
Definition namesMove (fullString : string) (file1 rank1 file2 rank2 : nat) : Prop :=
  (file1 < 8)%nat /\ (rank1 < 8)%nat /\ (file2 < 8)%nat /\ (rank2 < 8)%nat
  /\ exists (c : ascii) (rest : string),
       fullString
       = ("bestmove"
            ++ String c (squareName file1 rank1 ++ squareName file2 rank2 ++ rest))%string.

(** A rectangle of an image whose sides are below [2^23] pixels. *)
Definition imageRect (r : Rect) : Prop :=
  0 <= x r /\ 0 <= y r /\ 0 <= width r /\ 0 <= height r
  /\ x r + width r < 2 ^ 23 /\ y r + height r < 2 ^ 23.


(** [z] is the fraction [f] of [w] pixels up to the rounding of the code:
    half a pixel for the conversion to [int], and the fraction [2^-22] of
    [w] for the product in [double] and its conversion to [float]. *)
Definition fractionOf (f : Q) (w z : Z) : Prop :=
  (Qabs (inject_Z z - f * inject_Z w) <= (1 # 2) + inject_Z w * (1 # 4194304))%Q.

(** The sum of the bins of a histogram. *)
Definition sumQ (h : list Q) : Q := fold_right Qplus 0%Q h.

(** The histogram intersection [sum_i min(h1[i], h2[i])] of two histograms. *)
Fixpoint intersectionQ (h1 h2 : list Q) : Q :=
  match h1, h2 with
  | a :: h1', b :: h2' => (Qmin a b + intersectionQ h1' h2')%Q
  | _, _ => 0%Q
  end.

(** The coordinates of a segment of an image: below [2^23] in absolute
    value. *)
Definition pixelSegment (l : Vec4i) : Prop :=
  Z.abs (v0 l) < 2 ^ 23 /\ Z.abs (v1 l) < 2 ^ 23
  /\ Z.abs (v2 l) < 2 ^ 23 /\ Z.abs (v3 l) < 2 ^ 23.

(** The point lies inside an image of [rows] by [cols] pixels, more than the
    margin of 25 away from its border. *)
Definition insideMargin (rows cols : Z) (p : Point2f) : Prop :=
  (25 < px p)%Q /\ (px p < inject_Z (cols - 25))%Q
  /\ (25 < py p)%Q /\ (py p < inject_Z (rows - 25))%Q.

(** The checkerboard: the square of row-major index [i] is in row [i / 8]
    and column [i mod 8]; squares alternate along a row, the alternation
    starts over with the opposite colour in the next row, and square 0 is
    light.  The flag is [true] on a dark square. *)
Definition checkerboard (i : nat) : bool := Nat.odd (i / 8 + i mod 8).

(** A computation that calls [isEmptySpace] nowhere: it leaves the flags of
    the trace as they are. *)
Definition quiet {A : Type} (m : M A) : Prop :=
  forall tr, flagsPassed (fst (m tr)) = flagsPassed tr.

(** The pixels of an image are [uchar] triples: every channel of every pixel
    of the image lies in [0, 255]. *)
Definition ucharImage (image : Mat Vec3b) : bool :=
  forallb (fun row =>
    forallb (fun col =>
      let p := at_ image row col in
      (0 <=? blue p) && (blue p <=? 255) && (0 <=? green p) && (green p <=? 255)
      && (0 <=? red p) && (red p <=? 255))
      (indices (cols image)))
    (indices (rows image)).

(** The bin that [getHistogramFeature] increments for a pixel. *)
Definition pixelBin (p : Vec3b) (numBins : Z) : Z * Z :=
  let total := inject_Z (blue p + green p + red p) in
  let '(r, g) :=
    if Qeq_bool total 0 then (0%Q, 0%Q)
    else ((inject_Z (red p) / total)%Q, (inject_Z (green p) / total)%Q) in
  (Qtrunc (r * inject_Z (numBins - 1) + (1 # 2)),
   Qtrunc (g * inject_Z (numBins - 1) + (1 # 2))).

(** The histogram dissimilarity of two vectors: one minus the sum of the
    bin minima. *)
Definition dissimilarity (h1 h2 : list Q) : Q := (1 - intersectionQ h1 h2)%Q.

(** A table of features as [labelImages] writes it with [nBins] bins per
    axis: one vector of [nBins * nBins] non-negative entries per label. *)
Definition featureTable (nBins : Z) (labels : list string) (featureData : list (list Q))
  : Prop :=
  length featureData = length labels
  /\ Forall (fun data => length data = Z.to_nat (nBins * nBins)
                         /\ Forall (fun v => (0 <= v)%Q) data) featureData.

(** The body of the loop of [computeHistogramDiffs], and what the loop
    holds after [m] rounds: the first entry of least dissimilarity among the
    first [m] entries of the table. *)
Definition bestMatchStep (features : list Q) (labels : list string)
    (featureData : list (list Q)) (i : Z) (best : Q * string) : M (Q * string) :=
  let '(bestDiff, bestLabel) := best in
  data <~ lift (vec_at featureData i) ;;
  currentDiff <~ computeHistogramIntersectionDifference features data ;;
  if Qlt_bool currentDiff bestDiff then
    label <~ lift (vec_at labels i) ;;
    ret (currentDiff, label)
  else ret (bestDiff, bestLabel).

Definition bestSoFar (features : list Q) (labels : list string)
    (featureData : list (list Q)) (m : nat) (best : Q * string) : Prop :=
  (m = 0%nat /\ best = (FLT_MAX, ""))
  \/ exists i, (i < m)%nat
               /\ (fst best == dissimilarity features (nth i featureData []))%Q
               /\ snd best = nth i labels ""
               /\ (forall j, (j < m)%nat ->
                              (dissimilarity features (nth i featureData [])
                               <= dissimilarity features (nth j featureData []))%Q)
               /\ (forall j, (j < i)%nat ->
                              (dissimilarity features (nth i featureData [])
                               < dissimilarity features (nth j featureData []))%Q).

(** A label that [getFenFromLabels] can encode: the empty square or one of
    the twelve pieces. *)
Definition encodable (label : string) : Prop := label = "ee" \/ In label PIECE_VALUES.

(** A non-empty table of 256-bin histograms under piece labels. *)
Definition pieceTable (labels : list string) (featureData : list (list Q)) : Prop :=
  labels <> [] /\ featureTable 16 labels featureData
  /\ Forall (fun label => In label PIECE_VALUES) labels.

(** A character that is neither a separator of the feature files nor the
    end of a C string. *)
Definition plainChar (ch : ascii) : bool :=
  negb (Ascii.eqb ch ",") && negb (Ascii.eqb ch newline) && negb (Ascii.eqb ch EOF_char)
  && negb (Ascii.eqb ch NUL).

Fixpoint plainString (s : string) : bool :=
  match s with
  | EmptyString => true
  | String ch rest => plainChar ch && plainString rest
  end.

(** A record of a feature file: the piece, the colour and the values. *)
Definition csvRecord : Type := ascii * ascii * list Q.

(** A value that [sprintf] writes in fewer than 255 plain characters. *)
Definition writable (sprintf_4f : Q -> string) (v : Q) : Prop :=
  plainString (sprintf_4f v) = true /\ (String.length (sprintf_4f v) < 255)%nat.

(** A record that [append_image_data_csv] writes so that
    [read_image_data_csv] reads it back: plain characters for the piece and
    the colour, and at least one value, all of them writable. *)
Definition storable (sprintf_4f : Q -> string) (r : csvRecord) : Prop :=
  let '(label_name, pieceColor, image_data) := r in
  plainChar label_name = true /\ plainChar pieceColor = true
  /\ image_data <> []
  /\ Forall (writable sprintf_4f) image_data.

(** The text of the values of a record, of a record, and of records in a
    feature file. *)
Fixpoint valuesText (sprintf_4f : Q -> string) (image_data : list Q) : string :=
  match image_data with
  | [] => ""
  | v :: rest => ("," ++ sprintf_4f v ++ valuesText sprintf_4f rest)%string
  end.

Definition recordText (sprintf_4f : Q -> string) (r : csvRecord) : string :=
  let '(label_name, pieceColor, image_data) := r in
  (String label_name (String "," (String pieceColor EmptyString))
     ++ valuesText sprintf_4f image_data ++ String newline EmptyString)%string.

Fixpoint recordsText (sprintf_4f : Q -> string) (records : list csvRecord) : string :=
  match records with
  | [] => ""
  | r :: rest => (recordText sprintf_4f r ++ recordsText sprintf_4f rest)%string
  end.

(** The label and the values that [read_image_data_csv] stores for a
    record. *)
Definition labelRead (r : csvRecord) : string :=
  String (snd (fst r)) (String (fst (fst r)) EmptyString).

Definition valuesRead (atof : string -> Q) (sprintf_4f : Q -> string) (r : csvRecord)
  : list Q :=
  map (fun v => atof (sprintf_4f v)) (snd r).

(** A line with fewer than three fields: no comma, or one. *)
Definition shortLine (line : string) : Prop :=
  (plainString line = true /\ (String.length line < 256)%nat)
  \/ exists a b,
       line = (a ++ String "," b)%string
       /\ plainString a = true /\ plainString b = true
       /\ (String.length a < 256)%nat /\ (String.length b < 256)%nat.

(** Records appended one after the other. *)
Fixpoint appendRecords (sprintf_4f : Q -> string) (records : list csvRecord) (file : string)
  : outcome string :=
  match records with
  | [] => Ok file
  | (label_name, pieceColor, image_data) :: rest =>
      file' <- append_image_data_csv sprintf_4f file label_name pieceColor image_data false ;;
      appendRecords sprintf_4f rest file'
  end.

(** The calls of [addLabelFeatures] of a list, one after the other. *)
Fixpoint storeAll (sprintf_4f : Q -> string) (src : Mat Vec3b) (rectangles : list Rect)
    (calls : list (Z * ascii * ascii * bool)) (files0 : string * string)
  : outcome (string * string) :=
  match calls with
  | [] => Ok files0
  | (k, label, pieceColor, isDark) :: rest =>
      currentRect <- vec_at rectangles k ;;
      files1 <- addLabelFeatures sprintf_4f src currentRect label pieceColor isDark files0 ;;
      storeAll sprintf_4f src rectangles rest files1
  end.

(** What holds of the loop of [labelImages] before the square of index
    [k]: the counter and the flag are those of the square, the calls made so
    far were for earlier squares, each with the flag of the checkerboard and
    a key of [possibleLabels], and the files are what the calls made of
    them. *)
Definition labelledBefore (sprintf_4f : Q -> string) (src : Mat Vec3b)
    (rectangles : list Rect) (files0 : string * string) (k : nat) (s : labelling) : Prop :=
  currentSquare s = Z.of_nat k
  /\ darkSquare s = checkerboard k
  /\ Forall (fun call : Z * ascii * ascii * bool =>
               let '(i, label, pieceColor, isDark) := call in
               0 <= i < Z.of_nat k
               /\ isDark = checkerboard (Z.to_nat i)
               /\ In label possibleLabels) (stored s)
  /\ storeAll sprintf_4f src rectangles (stored s) files0 = Ok (files s).

(* ------------------------------------------------------------------ *)
(** * Concrete inputs *)

(** The corners of a board of 50-pixel squares whose corner of index 0 is at
    [(30, 40)], row by row. *)
Definition boardCorners : list Point2f :=
  flat_map (fun r => map (fun c => mkPoint2f (inject_Z (30 + 50 * Z.of_nat c))
                                            (inject_Z (40 + 50 * Z.of_nat r)))
                         (seq 0 9))
           (seq 0 9).

(** The same corners, each moved by half a pixel to the right and down. *)
Definition halfCorners : list Point2f :=
  map (fun p => mkPoint2f (px p + (1 # 2)) (py p + (1 # 2))) boardCorners.

(** The corners of a board seen at a slant: every row of corners lies 50
    pixels below the row before it and 60 pixels further to the left. *)
Definition shearedCorners : list Point2f :=
  flat_map (fun r => map (fun c => mkPoint2f (inject_Z (500 + 50 * Z.of_nat c - 60 * Z.of_nat r))
                                            (inject_Z (40 + 50 * Z.of_nat r)))
                         (seq 0 9))
           (seq 0 9).

(** An image of one black pixel, and 64 rectangles that all are this
    pixel. *)
Definition onePixel : Mat Vec3b := mkMat 1 1 (fun _ _ => mkVec3b 0 0 0).

Definition pixelRects : list Rect := repeat (mkRect 0 0 1 1) 64.

(** Stand-ins for the external operations: a grey conversion and an edge
    detector that return a black image of the size of their input, a
    [putText] that draws nothing, and a classifier with 13 classes whose
    last class always wins. *)
Definition blackGray (m : Mat Vec3b) : outcome (Mat Z) :=
  Ok (mkMat (rows m) (cols m) (fun _ _ => 0)).

Definition blackEdges (m : Mat Z) (low high : Z) : outcome (Mat Z) :=
  Ok (mkMat (rows m) (cols m) (fun _ _ => 0)).

Definition noText (m : Mat Vec3b) (text : string) (org : Point2i) : Mat Vec3b := m.

Definition thirteenClasses (m : Mat Vec3b) : outcome (list Q) :=
  Ok (repeat 0%Q 12 ++ [1%Q]).

(** Two horizontal and two vertical segments: the four corners of one
    square. *)
Definition squareLines : list Vec4i :=
  [ mkVec4i 0 100 400 100; mkVec4i 0 200 400 200;
    mkVec4i 100 0 100 500; mkVec4i 200 0 200 500 ].


(** An image of two pixels, and a table of two histograms of four bins. *)
Definition twoPixels : Mat Vec3b :=
  mkMat 1 2 (fun _ col => if col =? 0 then mkVec3b 0 0 0 else mkVec3b 10 200 40).

Definition twoEntries : list (list Q) := [[1; 0; 0; 0]%Q; [1 # 2; 1 # 2; 0; 0]%Q].

(** An image of two tiles of 10 by 10 pixels side by side, the left one
    black and the right one of one colour; the two tiles as rectangles, and
    64 rectangles: 63 times the left tile, then the right tile. *)
Definition twoTiles : Mat Vec3b :=
  mkMat 10 20 (fun _ col => if col <? 10 then mkVec3b 0 0 0 else mkVec3b 10 200 40).

Definition twoRects : list Rect := [mkRect 0 0 10 10; mkRect 10 0 10 10].

Definition tileRects : list Rect := repeat (mkRect 0 0 10 10) 63 ++ [mkRect 10 0 10 10].

(** Further stand-ins: a grey conversion that keeps the blue channel, an
    edge detector that marks the pixels that are not black, a classifier
    whose first class always wins, and a histogram of 256 empty bins. *)
Definition blueGray (m : Mat Vec3b) : outcome (Mat Z) :=
  Ok (mkMat (rows m) (cols m) (fun row col => blue (at_ m row col))).

Definition markEdges (m : Mat Z) (low high : Z) : outcome (Mat Z) :=
  Ok (mkMat (rows m) (cols m) (fun row col => if 0 <? at_ m row col then 255 else 0)).

Definition firstClass (m : Mat Vec3b) : outcome (list Q) :=
  Ok (1%Q :: repeat 0%Q 11).

Definition zeroFeature : list Q := repeat 0%Q 256.

(** Stand-ins for [sprintf] and [atof]: a value is written as the number
    of its ten-thousandths, rounded down, and read back from that number. *)
Definition tenThousandths (v : Q) : string := to_string (Qfloor (v * 10000)).

Definition fromTenThousandths (s : string) : Q :=
  match NilZero.int_of_string s with
  | Some n => Qred (inject_Z (Z.of_int n) / 10000)
  | None => 0%Q
  end.

Definition twoRecords : list csvRecord :=
  [ ("p"%char, "w"%char, [1 # 2; 0; 1 # 2]%Q); ("k"%char, "b"%char, [1%Q]) ].

(** A field of 256 characters. *)
Definition longField : string := string_of_list_ascii (repeat "a"%char 256).

(** Eighteen segments of length 1 on the nine horizontal and the nine
    vertical lines of a board ([checkIntersection] intersects the lines
    through the segments), a small image of one colour, and the keys
    pressed: a white pawn on the first square, a black king on the second,
    and a key that is no label for each of the other 62 squares. *)
Definition gridLines : list Vec4i :=
  map (fun i => mkVec4i 0 (40 + 50 * Z.of_nat i) 1 (40 + 50 * Z.of_nat i)) (seq 0 9)
  ++ map (fun j => mkVec4i (30 + 45 * Z.of_nat j) 0 (30 + 45 * Z.of_nat j) 1) (seq 0 9).

Definition greenBoard : Mat Vec3b := mkMat 53 43 (fun _ _ => mkVec3b 10 200 40).

Definition someKeys : list Z := [112; 119; 107; 98] ++ repeat 32 62.

(* ------------------------------------------------------------------ *)
(** * Theorems *)

(** The notation of the starting position, white to move. *)
Example getFen_start_position :
  snd (getFenFromLabels
         (["br";"bn";"bb";"bq";"bk";"bb";"bn";"br"] ++ repeat "bp" 8 ++ repeat "ee" 32
            ++ repeat "wp" 8 ++ ["wr";"wn";"wb";"wq";"wk";"wb";"wn";"wr"])
         (mkConsole ["w"] []))
  = Ok "rnbqkbnr/pppppppp/8/8/8/8/PPPPPPPP/RNBQKBNR w - - 0 0".
Proof. vm_compute. reflexivity. Qed.

Example getFen_all_empty :
  snd (getFenFromLabels (repeat "ee" 64) (mkConsole ["w"] []))
  = Ok "8/8/8/8/8/8/8/ w - - 0 0".
Proof. vm_compute. reflexivity. Qed.

(* ------------------------------------------------------------------ *)
(** ** Comparisons on rationals *)

Lemma Qlt_bool_iff (a b : Q) : Qlt_bool a b = true <-> (a < b)%Q.
Proof.
  unfold Qlt_bool. rewrite negb_true_iff.
  split; intros H.
  - apply Qnot_le_lt. intros Hle. apply Qle_bool_iff in Hle. congruence.
  - destruct (Qle_bool b a) eqn:E; [|reflexivity].
    apply Qle_bool_iff in E. exfalso. exact (Qlt_not_le _ _ H E).
Qed.

Lemma Qlt_bool_spec (a b : Q) : BoolSpec (a < b)%Q (b <= a)%Q (Qlt_bool a b).
Proof.
  destruct (Qlt_bool a b) eqn:E; constructor.
  - now apply Qlt_bool_iff.
  - apply Qnot_lt_le. intros H. apply Qlt_bool_iff in H. congruence.
Qed.

Lemma Qle_bool_spec (a b : Q) : BoolSpec (a <= b)%Q (b < a)%Q (Qle_bool a b).
Proof.
  destruct (Qle_bool a b) eqn:E; constructor.
  - now apply Qle_bool_iff.
  - apply Qnot_le_lt. intros H. apply Qle_bool_iff in H. congruence.
Qed.


(* ------------------------------------------------------------------ *)
(** ** Rounding *)

Lemma cvRound_cases (v : Q) :
  (cvRound v = Qfloor v /\ (v - inject_Z (Qfloor v) < 1 # 2)%Q)
  \/ (cvRound v = Qfloor v /\ (v - inject_Z (Qfloor v) == 1 # 2)%Q
      /\ Z.even (Qfloor v) = true)
  \/ (cvRound v = Qfloor v + 1 /\ (1 # 2 < v - inject_Z (Qfloor v))%Q)
  \/ (cvRound v = Qfloor v + 1 /\ (v - inject_Z (Qfloor v) == 1 # 2)%Q
      /\ Z.even (Qfloor v) = false).
Proof.
  unfold cvRound.
  destruct (Qcompare_spec (v - inject_Z (Qfloor v)) (1 # 2)) as [E|L|G].
  - destruct (Z.even (Qfloor v)) eqn:Ev.
    + right. left. now repeat split.
    + right. right. right. now repeat split.
  - left. now split.
  - right. right. left. now split.
Qed.

Lemma cvRound_monotone (a b : Q) : (a <= b)%Q -> cvRound a <= cvRound b.
Proof.
  intros Hab.
  pose proof (Qfloor_resp_le a b Hab) as Hf.
  destruct (cvRound_cases a) as [[-> Ha]|[(-> & Ha & Ea)|[[-> Ha]|(-> & Ha & Ea)]]];
    destruct (cvRound_cases b) as [[-> Hb]|[(-> & Hb & Eb)|[[-> Hb]|(-> & Hb & Eb)]]];
    try lia;
    (destruct (Z.eq_dec (Qfloor a) (Qfloor b)) as [E|Hne]; [|lia]);
    rewrite E in *; exfalso; try lra; congruence.
Qed.

Lemma cvRound_inject_Z (z : Z) : cvRound (inject_Z z) = z.
Proof.
  unfold cvRound. rewrite Qfloor_Z.
  destruct (Qcompare_spec (inject_Z z - inject_Z z) (1 # 2)) as [E|L|G]; [lra | reflexivity | lra].
Qed.

Lemma inject_Z_pos (b : Z) : 0 < b -> (0 < inject_Z b)%Q.
Proof. intros H. change 0%Q with (inject_Z 0). now rewrite <- Zlt_Qlt. Qed.

Lemma pow2_pos (e : Z) : (0 < 2 ^ e)%Q.
Proof. apply Qpower_0_lt. reflexivity. Qed.

Lemma pow2_le (e e' : Z) : e <= e' -> (2 ^ e <= 2 ^ e')%Q.
Proof. intros H. apply Qpower_le_compat_l; [exact H | discriminate]. Qed.

Lemma pow2_lt_inv (e e' : Z) : (2 ^ e < 2 ^ e')%Q -> e < e'.
Proof. intros H. apply (Qpower_lt_compat_l_inv 2); [exact H | reflexivity]. Qed.

Lemma pow2_plus (e e' : Z) : (2 ^ (e + e') == 2 ^ e * 2 ^ e')%Q.
Proof. apply Qpower_plus. discriminate. Qed.

Lemma pow2_inject (n : Z) : 0 <= n -> (2 ^ n == inject_Z (2 ^ n))%Q.
Proof. intros H. now rewrite Zpower_Qpower. Qed.

Lemma Qmake_mult_den (n : Z) (d : positive) : ((n # d) * inject_Z (Z.pos d) == inject_Z n)%Q.
Proof. unfold Qeq, Qmult, inject_Z. simpl. rewrite Pos.mul_1_r. lia. Qed.

Lemma binade_spec (q : Q) :
  (0 < q)%Q -> (2 ^ binade q <= q)%Q /\ (q < 2 ^ (binade q + 1))%Q.
Proof.
  intros Hq. destruct q as [n d].
  assert (Hn : 0 < n) by (unfold Qlt in Hq; simpl in Hq; lia).
  unfold binade. cbn [Qnum Qden].
  set (ln := Z.log2 n). set (ld := Z.log2 (Z.pos d)).
  destruct (Z.log2_spec n Hn) as [Hn1 Hn2]. fold ln in Hn1, Hn2.
  destruct (Z.log2_spec (Z.pos d) (Pos2Z.is_pos d)) as [Hd1 Hd2]. fold ld in Hd1, Hd2.
  assert (Hln : 0 <= ln) by apply Z.log2_nonneg.
  assert (Hld : 0 <= ld) by apply Z.log2_nonneg.
  pose proof (Qmake_mult_den n d) as Hnd.
  assert (Hupper : (n # d < 2 ^ (ln - ld + 1))%Q).
  { replace (ln - ld + 1) with ((ln + 1) + - ld) by lia.
    rewrite pow2_plus, Qpower_opp.
    apply Qlt_shift_div_l; [apply pow2_pos|].
    rewrite !pow2_inject by lia.
    apply Qle_lt_trans with (inject_Z n).
    - rewrite <- Hnd. apply Qmult_le_l; [exact Hq|]. rewrite <- Zle_Qle. exact Hd1.
    - rewrite <- Zlt_Qlt. replace (ln + 1) with (Z.succ ln) by lia. exact Hn2. }
  assert (Hlower : (2 ^ (ln - ld - 1) <= n # d)%Q).
  { replace (ln - ld - 1) with (ln + - (ld + 1)) by lia.
    rewrite pow2_plus, Qpower_opp.
    apply Qle_shift_div_r; [apply pow2_pos|].
    rewrite !pow2_inject by lia.
    apply Qle_trans with (inject_Z n).
    - rewrite <- Zle_Qle. exact Hn1.
    - rewrite <- Hnd. apply Qmult_le_l; [exact Hq|]. rewrite <- Zle_Qle.
      replace (ld + 1) with (Z.succ ld) by lia. lia. }
  destruct (Qle_bool_spec (2 ^ (ln - ld)) (n # d)) as [H|H].
  - split; assumption.
  - split; [exact Hlower|]. replace (ln - ld - 1 + 1) with (ln - ld) by lia. exact H.
Qed.

Lemma binade_monotone (a b : Q) : (0 < a)%Q -> (a <= b)%Q -> binade a <= binade b.
Proof.
  intros Ha Hab.
  destruct (binade_spec a Ha) as [La _].
  destruct (binade_spec b ltac:(lra)) as [_ Ub].
  assert (H : (2 ^ binade a < 2 ^ (binade b + 1))%Q) by lra.
  apply pow2_lt_inv in H. lia.
Qed.

Lemma binade_lt (a : Q) (e : Z) : (0 < a)%Q -> (a < 2 ^ e)%Q -> binade a < e.
Proof.
  intros Ha H. destruct (binade_spec a Ha) as [La _].
  apply pow2_lt_inv. lra.
Qed.

Lemma binade_ge (a : Q) (e : Z) : (2 ^ e <= a)%Q -> e <= binade a.
Proof.
  intros H. pose proof (pow2_pos e).
  destruct (binade_spec a ltac:(lra)) as [_ Ua].
  assert (H' : (2 ^ e < 2 ^ (binade a + 1))%Q) by lra.
  apply pow2_lt_inv in H'. lia.
Qed.

Lemma cvRound_comp (a b : Q) : (a == b)%Q -> cvRound a = cvRound b.
Proof.
  intros E. apply Z.le_antisymm; apply cvRound_monotone; rewrite E; apply Qle_refl.
Qed.

Lemma cvRound_error (v : Q) : (Qabs (inject_Z (cvRound v) - v) <= 1 # 2)%Q.
Proof.
  pose proof (Qfloor_le v) as Hlo. pose proof (Qlt_floor v) as Hhi.
  rewrite inject_Z_plus in Hhi. change (inject_Z 1) with 1%Q in Hhi.
  apply Qabs_case; intros _;
    destruct (cvRound_cases v) as [[-> H]|[(-> & H & _)|[[-> H]|(-> & H & _)]]];
    rewrite ?inject_Z_plus; change (inject_Z 1) with 1%Q; lra.
Qed.

Lemma roundBinary_roundAbs (prec emin : Z) (q : Q) :
  (roundBinary prec emin q
   == if Qlt_bool q 0 then - roundAbs prec emin (Qabs q) else roundAbs prec emin (Qabs q))%Q.
Proof.
  unfold roundBinary, roundAbs. cbv zeta.
  destruct (Qlt_bool q 0); rewrite Qred_correct; reflexivity.
Qed.

Lemma div_pow2 (a : Q) (e : Z) : (a / 2 ^ e * 2 ^ e == a)%Q.
Proof. field. pose proof (pow2_pos e). lra. Qed.

Lemma roundAbs_0 (prec emin : Z) (a : Q) : (a == 0)%Q -> (roundAbs prec emin a == 0)%Q.
Proof.
  intros E. unfold roundAbs. cbv zeta.
  rewrite (cvRound_comp _ 0).
  - change (cvRound 0) with 0. ring.
  - generalize (binade a). intros b. rewrite E. unfold Qdiv. ring.
Qed.

Lemma roundAbs_nonneg (prec emin : Z) (a : Q) : (0 <= a)%Q -> (0 <= roundAbs prec emin a)%Q.
Proof.
  intros Ha. unfold roundAbs. cbv zeta.
  set (ulp := (2 ^ (Z.max (binade a) emin - prec + 1))%Q).
  assert (Hulp : (0 < ulp)%Q) by apply pow2_pos.
  apply Qmult_le_0_compat; [|lra].
  change 0%Q with (inject_Z 0). rewrite <- Zle_Qle.
  rewrite <- (cvRound_inject_Z 0). apply cvRound_monotone.
  change (inject_Z 0) with 0%Q.
  apply Qle_shift_div_l; [exact Hulp | lra].
Qed.

(** A number below [2^(e+1)] rounds to at most [2^(e+1)], a number from
    [2^e] on to at least [2^e]. *)
Lemma roundAbs_upper (prec emin : Z) (a : Q) :
  1 <= prec -> (0 < a)%Q ->
  (roundAbs prec emin a <= 2 ^ (Z.max (binade a) emin + 1))%Q.
Proof.
  intros Hp Ha. unfold roundAbs. cbv zeta.
  set (e := Z.max (binade a) emin).
  set (ulp := (2 ^ (e - prec + 1))%Q).
  assert (Hulp : (0 < ulp)%Q) by apply pow2_pos.
  destruct (binade_spec a Ha) as [_ Ua].
  assert (Hae : (a < 2 ^ (e + 1))%Q).
  { eapply Qlt_le_trans; [exact Ua|]. apply pow2_le. lia. }
  assert (E : (2 ^ (e + 1) == inject_Z (2 ^ prec) * ulp)%Q).
  { unfold ulp. rewrite <- pow2_inject, <- pow2_plus by lia.
    replace (prec + (e - prec + 1)) with (e + 1) by lia. reflexivity. }
  rewrite E. apply Qmult_le_compat_r; [|lra].
  rewrite <- Zle_Qle. rewrite <- (cvRound_inject_Z (2 ^ prec)).
  apply cvRound_monotone.
  apply Qle_shift_div_r; [exact Hulp|]. rewrite <- E. lra.
Qed.

Lemma roundAbs_lower (prec emin : Z) (a : Q) :
  1 <= prec -> (0 < a)%Q -> emin <= binade a ->
  (2 ^ binade a <= roundAbs prec emin a)%Q.
Proof.
  intros Hp Ha Hmin. unfold roundAbs. cbv zeta.
  rewrite Z.max_l by lia.
  set (e := binade a).
  set (ulp := (2 ^ (e - prec + 1))%Q).
  assert (Hulp : (0 < ulp)%Q) by apply pow2_pos.
  destruct (binade_spec a Ha) as [La _]. fold e in La.
  assert (E : (2 ^ e == inject_Z (2 ^ (prec - 1)) * ulp)%Q).
  { unfold ulp. rewrite <- pow2_inject, <- pow2_plus by lia.
    replace (prec - 1 + (e - prec + 1)) with e by lia. reflexivity. }
  rewrite E. apply Qmult_le_compat_r; [|lra].
  rewrite <- Zle_Qle. rewrite <- (cvRound_inject_Z (2 ^ (prec - 1))).
  apply cvRound_monotone.
  apply Qle_shift_div_l; [exact Hulp|]. rewrite <- E. lra.
Qed.

Lemma roundAbs_monotone (prec emin : Z) (a b : Q) :
  1 <= prec -> (0 <= a)%Q -> (a <= b)%Q ->
  (roundAbs prec emin a <= roundAbs prec emin b)%Q.
Proof.
  intros Hp Ha Hab.
  destruct (Qlt_le_dec 0 a) as [Hpos|Hzero].
  - pose proof (binade_monotone a b Hpos Hab) as Hbin.
    destruct (Z.eq_dec (Z.max (binade a) emin) (Z.max (binade b) emin)) as [E|Hne].
    + unfold roundAbs. cbv zeta. rewrite E.
      set (ulp := (2 ^ (Z.max (binade b) emin - prec + 1))%Q).
      assert (Hulp : (0 < ulp)%Q) by apply pow2_pos.
      apply Qmult_le_compat_r; [|lra].
      rewrite <- Zle_Qle. apply cvRound_monotone.
      apply Qmult_le_r with (z := ulp); [exact Hulp|].
      unfold ulp. rewrite !div_pow2. exact Hab.
    + assert (Hlt : Z.max (binade a) emin < binade b) by lia.
      eapply Qle_trans; [apply roundAbs_upper; assumption|].
      eapply Qle_trans; [|apply roundAbs_lower; [assumption | lra | lia]].
      apply pow2_le. lia.
  - assert (E : (a == 0)%Q) by lra.
    rewrite (roundAbs_0 prec emin a E). apply roundAbs_nonneg. lra.
Qed.

Lemma roundAbs_comp (prec emin : Z) (a b : Q) :
  1 <= prec -> (0 <= a)%Q -> (a == b)%Q ->
  (roundAbs prec emin a == roundAbs prec emin b)%Q.
Proof.
  intros Hp Ha E. apply Qle_antisym; apply roundAbs_monotone; try assumption; lra.
Qed.

(** Rounding is monotone. *)
Lemma roundBinary_monotone (prec emin : Z) (a b : Q) :
  1 <= prec -> (a <= b)%Q -> (roundBinary prec emin a <= roundBinary prec emin b)%Q.
Proof.
  intros Hp Hab. rewrite !roundBinary_roundAbs.
  destruct (Qlt_bool_spec a 0) as [Ha|Ha]; destruct (Qlt_bool_spec b 0) as [Hb|Hb].
  - apply Qopp_le_compat.
    apply roundAbs_monotone; [assumption | apply Qabs_nonneg |].
    rewrite !Qabs_neg by lra. lra.
  - pose proof (roundAbs_nonneg prec emin (Qabs a) (Qabs_nonneg a)).
    pose proof (roundAbs_nonneg prec emin (Qabs b) (Qabs_nonneg b)). lra.
  - lra.
  - apply roundAbs_monotone; [assumption | apply Qabs_nonneg |].
    rewrite !Qabs_pos by lra. exact Hab.
Qed.

Lemma roundBinary_comp (prec emin : Z) (a b : Q) :
  1 <= prec -> (a == b)%Q -> (roundBinary prec emin a == roundBinary prec emin b)%Q.
Proof.
  intros Hp E. apply Qle_antisym; apply roundBinary_monotone; try assumption; lra.
Qed.

Lemma roundBinary_0 (prec emin : Z) : (roundBinary prec emin 0 == 0)%Q.
Proof.
  rewrite roundBinary_roundAbs.
  destruct (Qlt_bool_spec 0 0) as [H|_]; [lra|].
  apply roundAbs_0. reflexivity.
Qed.

Lemma roundBinary_nonneg (prec emin : Z) (q : Q) :
  1 <= prec -> (0 <= q)%Q -> (0 <= roundBinary prec emin q)%Q.
Proof.
  intros Hp Hq. rewrite <- (roundBinary_0 prec emin).
  now apply roundBinary_monotone.
Qed.

(** The error of rounding a number of the normal range is at most the
    fraction [2^-prec] of the number. *)
Lemma roundAbs_error (prec emin : Z) (a : Q) :
  1 <= prec -> (2 ^ emin <= a)%Q ->
  (Qabs (roundAbs prec emin a - a) <= a * 2 ^ (- prec))%Q.
Proof.
  intros Hp Ha. pose proof (pow2_pos emin) as Hmin.
  assert (Hpos : (0 < a)%Q) by lra.
  pose proof (binade_ge a emin Ha) as Hbin.
  destruct (binade_spec a Hpos) as [La _].
  unfold roundAbs. cbv zeta. rewrite Z.max_l by lia.
  set (e := binade a) in *.
  set (ulp := (2 ^ (e - prec + 1))%Q).
  assert (Hulp : (0 < ulp)%Q) by apply pow2_pos.
  pose proof (cvRound_error (a / ulp)) as Herr.
  assert (E : (inject_Z (cvRound (a / ulp)) * ulp - a
               == (inject_Z (cvRound (a / ulp)) - a / ulp) * ulp)%Q).
  { field. lra. }
  rewrite E, Qabs_Qmult, (Qabs_pos ulp) by lra.
  apply Qle_trans with ((1 # 2) * ulp)%Q.
  - apply Qmult_le_compat_r; [exact Herr | lra].
  - assert (E2 : ((1 # 2) * ulp == 2 ^ e * 2 ^ (- prec))%Q).
    { unfold ulp. rewrite <- pow2_plus.
      replace (e - prec + 1) with ((e + - prec) + 1) by lia.
      rewrite (pow2_plus (e + - prec) 1). change (2 ^ 1)%Q with 2%Q. field. }
    rewrite E2. apply Qmult_le_compat_r; [exact La|].
    pose proof (pow2_pos (- prec)). lra.
Qed.

Lemma roundBinary_error (prec emin : Z) (q : Q) :
  1 <= prec -> (2 ^ emin <= q)%Q ->
  (q * (1 - 2 ^ (- prec)) <= roundBinary prec emin q)%Q
  /\ (roundBinary prec emin q <= q * (1 + 2 ^ (- prec)))%Q.
Proof.
  intros Hp Hq. pose proof (pow2_pos emin) as Hmin.
  rewrite roundBinary_roundAbs.
  destruct (Qlt_bool_spec q 0) as [H|_]; [lra|].
  assert (Eabs : (Qabs q == q)%Q) by (apply Qabs_pos; lra).
  rewrite (roundAbs_comp prec emin (Qabs q) q) by (try assumption; apply Qabs_nonneg).
  pose proof (roundAbs_error prec emin q Hp Hq) as Herr.
  revert Herr. apply Qabs_case; intros; lra.
Qed.

(** A significand of [prec] bits scaled by a power of two is rounded to
    itself. *)
Lemma roundBinary_dyadic (prec emin : Z) (k j : Z) :
  1 <= prec -> Z.abs k < 2 ^ prec -> j <= prec - 1 - emin ->
  (roundBinary prec emin (inject_Z k * 2 ^ (- j)) == inject_Z k * 2 ^ (- j))%Q.
Proof.
  intros Hp Hk Hj.
  assert (Hpos : forall k, 0 < k < 2 ^ prec ->
            (roundAbs prec emin (inject_Z k * 2 ^ (- j)) == inject_Z k * 2 ^ (- j))%Q).
  { clear k Hk. intros k Hk.
    set (a := (inject_Z k * 2 ^ (- j))%Q).
    pose proof (pow2_pos (- j)) as Hpj.
    assert (Hk0 : (0 < inject_Z k)%Q) by (apply inject_Z_pos; lia).
    assert (Ha : (0 < a)%Q) by (apply Qmult_lt_0_compat; assumption).
    assert (Hbin : binade a < prec - j).
    { apply binade_lt; [exact Ha|].
      replace (prec - j) with (prec + - j) by lia. rewrite pow2_plus.
      unfold a. apply Qmult_lt_compat_r; [exact Hpj|].
      rewrite pow2_inject by lia. rewrite <- Zlt_Qlt. lia. }
    unfold roundAbs. cbv zeta.
    set (e := Z.max (binade a) emin).
    set (t := prec - 1 - j - e).
    assert (Ht : 0 <= t) by (unfold t, e; lia).
    set (ulp := (2 ^ (e - prec + 1))%Q).
    assert (Hulp : (0 < ulp)%Q) by apply pow2_pos.
    assert (E : (a / ulp == inject_Z (k * 2 ^ t))%Q).
    { rewrite inject_Z_mult, <- pow2_inject by exact Ht.
      apply Qmult_inj_r with ulp; [lra|].
      unfold ulp. rewrite div_pow2. unfold a.
      rewrite <- Qmult_assoc, <- pow2_plus.
      replace (t + (e - prec + 1)) with (- j) by (unfold t; lia). reflexivity. }
    rewrite (cvRound_comp _ _ E), cvRound_inject_Z.
    rewrite <- E. apply div_pow2. }
  rewrite roundBinary_roundAbs.
  pose proof (pow2_pos (- j)) as Hpj.
  destruct (Z.lt_trichotomy k 0) as [Hneg|[->|Hp0]].
  - assert (Hlt : (inject_Z k * 2 ^ (- j) < 0)%Q).
    { assert (H : (0 < inject_Z (- k))%Q) by (apply inject_Z_pos; lia).
      rewrite inject_Z_opp in H. nra. }
    destruct (Qlt_bool_spec (inject_Z k * 2 ^ (- j)) 0) as [_|H]; [|lra].
    rewrite (roundAbs_comp prec emin _ (inject_Z (- k) * 2 ^ (- j))).
    + rewrite Hpos by lia. rewrite inject_Z_opp. ring.
    + exact Hp.
    + apply Qabs_nonneg.
    + rewrite Qabs_neg by lra. rewrite inject_Z_opp. ring.
  - destruct (Qlt_bool_spec (inject_Z 0 * 2 ^ (- j)) 0) as [H|_];
      [change (inject_Z 0) with 0%Q in H; lra|].
    rewrite roundAbs_0.
    + change (inject_Z 0) with 0%Q. ring.
    + change (inject_Z 0) with 0%Q. rewrite Qmult_0_l. reflexivity.
  - assert (Hgt : (0 < inject_Z k * 2 ^ (- j))%Q).
    { apply Qmult_lt_0_compat; [apply inject_Z_pos; lia | exact Hpj]. }
    destruct (Qlt_bool_spec (inject_Z k * 2 ^ (- j)) 0) as [H|_]; [lra|].
    rewrite (roundAbs_comp prec emin _ (inject_Z k * 2 ^ (- j))).
    + apply Hpos. lia.
    + exact Hp.
    + apply Qabs_nonneg.
    + apply Qabs_pos. lra.
Qed.

(** Integers of at most [prec] bits are rounded to themselves. *)
Lemma roundBinary_inject_Z (prec emin : Z) (k : Z) :
  1 <= prec -> emin <= prec - 1 -> Z.abs k < 2 ^ prec ->
  (roundBinary prec emin (inject_Z k) == inject_Z k)%Q.
Proof.
  intros Hp Hmin Hk.
  pose proof (roundBinary_dyadic prec emin k 0 Hp Hk ltac:(lia)) as H.
  change (2 ^ (- 0))%Q with 1%Q in H.
  rewrite <- (roundBinary_comp prec emin (inject_Z k * 1) (inject_Z k)) by
    (try assumption; ring).
  rewrite H. ring.
Qed.

Lemma fl32_monotone (a b : Q) : (a <= b)%Q -> (fl32 a <= fl32 b)%Q.
Proof. apply roundBinary_monotone. lia. Qed.

Lemma fl64_monotone (a b : Q) : (a <= b)%Q -> (fl64 a <= fl64 b)%Q.
Proof. apply roundBinary_monotone. lia. Qed.

Lemma fl32_comp (a b : Q) : (a == b)%Q -> (fl32 a == fl32 b)%Q.
Proof. apply roundBinary_comp. lia. Qed.

Lemma fl32_inject_Z (k : Z) : Z.abs k < 2 ^ 24 -> (fl32 (inject_Z k) == inject_Z k)%Q.
Proof. intros H. apply roundBinary_inject_Z; [lia | lia | exact H]. Qed.

(** Some roundings: [0.1f], [0.1f + 8], the integer [2^24 + 1], a tie, and
    the [double] nearest to [0.2]. *)
Example rounding_examples :
  fl32 (1 # 10) = (13421773 # 134217728)%Q
  /\ fadd (fl32 (1 # 10)) 8 = fl32 (81 # 10)
  /\ fl32 (inject_Z 16777217) = inject_Z 16777216
  /\ fl32 (8388609 + (1 # 2)) = inject_Z 8388610
  /\ fl64 (2 # 10) = (3602879701896397 # 18014398509481984)%Q.
Proof. repeat split; vm_compute; reflexivity. Qed.

(* ------------------------------------------------------------------ *)
(** ** Folds *)

Lemma fold_left_invariant {A S : Type} (P : S -> Prop) (f : S -> A -> S) (l : list A) :
  (forall s a, P s -> P (f s a)) -> forall s, P s -> P (fold_left f l s).
Proof.
  intros Hf. induction l as [|a l IH]; intros s Hs; cbn [fold_left]; [exact Hs|].
  apply IH, Hf, Hs.
Qed.

(* ------------------------------------------------------------------ *)
(** ** comparePoints *)









(** The three points of a cycle [a < b < c < a] of [comparePoints]. *)
Example comparePoints_cycle :
  let a := mkPoint2f 0 10 in
  let b := mkPoint2f 1 5 in
  let c := mkPoint2f 2 0 in
  comparePoints a b = true /\ comparePoints b c = true /\
  comparePoints a c = false /\ comparePoints c a = true.
Proof. vm_compute. repeat split. Qed.

(* ------------------------------------------------------------------ *)
(** ** Deduplication in getIntersections *)

Lemma distSq_sym (p q : Point2f) : (distSq p q == distSq q p)%Q.
Proof. unfold distSq. ring. Qed.

Lemma farApart_sym (p q : Point2f) : farApart p q -> farApart q p.
Proof. unfold farApart. intros H. rewrite distSq_sym. exact H. Qed.

Lemma sqrtf_le_30 (s : Q) : sqrtf_le s 30 = true <-> (s <= 900)%Q.
Proof.
  unfold sqrtf_le.
  destruct (Qlt_bool_spec 30 0) as [H|_]; [lra|].
  rewrite Qle_bool_iff.
  assert (E : (30 * 30 == 900)%Q) by reflexivity.
  rewrite E. reflexivity.
Qed.

Lemma distSq_nonneg (p q : Point2f) : (0 <= distSq p q)%Q.
Proof.
  unfold distSq.
  assert (H : forall a : Q, (0 <= a * a)%Q).
  { intros a. destruct (Qlt_le_dec a 0) as [Hneg|Hpos].
    - setoid_replace (a * a)%Q with ((- a) * (- a))%Q by ring.
      apply Qmult_le_0_compat; lra.
    - now apply Qmult_le_0_compat. }
  pose proof (H (px p - px q)%Q). pose proof (H (py p - py q)%Q). lra.
Qed.

Module RealDistance.

Import Reals Qreals Lra.

(** [sqrtf_le] decides the comparison of the real square root. *)
Lemma sqrtf_le_sqrt (s d : Q) :
  (0 <= s)%Q -> (sqrtf_le s d = true <-> (sqrt (Q2R s) <= Q2R d)%R).
Proof.
  intros Hs. unfold sqrtf_le, Qlt_bool.
  assert (Hs' : (0 <= Q2R s)%R)
    by (rewrite <- RMicromega.Q2R_0; now apply Qle_Rle).
  destruct (Qle_bool 0 d) eqn:Ed; cbn [negb].
  - apply Qle_bool_iff in Ed.
    assert (Hd : (0 <= Q2R d)%R)
      by (rewrite <- RMicromega.Q2R_0; now apply Qle_Rle).
    rewrite Qle_bool_iff. split; intros H.
    + apply Qle_Rle in H. rewrite Q2R_mult in H.
      rewrite <- (sqrt_square (Q2R d)) by exact Hd.
      now apply sqrt_le_1_alt.
    + apply Rle_Qle. rewrite Q2R_mult.
      apply sqrt_le_0; [exact Hs' | nra |].
      now rewrite sqrt_square.
  - split; [discriminate|]. intros H. exfalso.
    assert (Hd : (Q2R d < 0)%R).
    { rewrite <- RMicromega.Q2R_0. apply Qlt_Rlt. apply Qnot_le_lt. intros Hle.
      apply Qle_bool_iff in Hle. congruence. }
    pose proof (sqrt_pos (Q2R s)). lra.
Qed.

(** Two points are [farApart] exactly when their Euclidean distance exceeds
    30. *)
Lemma farApart_euclidean (p q : Point2f) :
  farApart p q <-> distanceExceeds 30 p q.
Proof.
  unfold farApart, distanceExceeds, euclideanDistance.
  pose proof (sqrtf_le_sqrt (distSq p q) 30 (distSq_nonneg p q)) as H.
  rewrite sqrtf_le_30 in H.
  assert (E : Q2R 30 = 30%R) by (unfold Q2R; simpl; lra).
  rewrite E in H.
  split; intros Hfar.
  - apply Rnot_le_lt. intros Hle. apply H in Hle.
    exact (Qlt_not_le _ _ Hfar Hle).
  - apply Qnot_le_lt. intros Hle. apply H in Hle. lra.
Qed.

End RealDistance.

Lemma arePointsNearby_true (c : Point2f) (l : list Point2f) :
  arePointsNearby c l 30 = true <-> exists q, In q l /\ (distSq c q <= 900)%Q.
Proof.
  induction l as [|p l IH]; simpl.
  - split; [discriminate | intros (q & [] & _)].
  - destruct (sqrtf_le (distSq c p) 30) eqn:E.
    + split; [|reflexivity]. intros _. exists p. split; [now left|].
      now apply sqrtf_le_30.
    + rewrite IH. split; intros (q & Hin & Hq).
      * exists q. split; [now right | exact Hq].
      * destruct Hin as [<-|Hin]; [|now exists q].
        apply sqrtf_le_30 in Hq. congruence.
Qed.

Lemma arePointsNearby_false (c : Point2f) (l : list Point2f) :
  arePointsNearby c l 30 = false -> Forall (fun q => farApart q c) l.
Proof.
  intros H. apply Forall_forall. intros q Hin.
  apply farApart_sym. unfold farApart.
  apply Qnot_le_lt. intros Hle.
  assert (Ht : arePointsNearby c l 30 = true)
    by (apply arePointsNearby_true; now exists q).
  congruence.
Qed.

Lemma pairwiseFar_snoc (l : list Point2f) (c : Point2f) :
  pairwiseFar l -> Forall (fun q => farApart q c) l -> pairwiseFar (l ++ [c]).
Proof.
  unfold pairwiseFar. induction 1 as [|a l Ha Hl IH]; intros Hc; simpl.
  - constructor; constructor.
  - inversion Hc as [|? ? Hac Hlc]; subst.
    constructor; [|now apply IH].
    apply Forall_app. split; [exact Ha | now constructor].
Qed.

Lemma intersectionStep_cases (dst_rows dst_cols : Z) (imageSize : Size)
    (line1 line2 : Vec4i) (acc : list Point2f) :
  let c := snd (checkIntersection line1 line2 imageSize (mkPoint2f 0 0)) in
  intersectionStep dst_rows dst_cols imageSize line1 line2 acc = acc
  \/ (arePointsNearby c acc 30 = false
      /\ intersectionStep dst_rows dst_cols imageSize line1 line2 acc = acc ++ [c]).
Proof.
  unfold intersectionStep.
  destruct (checkIntersection line1 line2 imageSize (mkPoint2f 0 0)) as [has c].
  simpl.
  destruct (has && _); [|now left].
  destruct (arePointsNearby c acc 30) eqn:E; simpl; [now left | now right].
Qed.

Lemma intersectionStep_pairwiseFar (dst_rows dst_cols : Z) (imageSize : Size)
    (line1 line2 : Vec4i) (acc : list Point2f) :
  pairwiseFar acc ->
  pairwiseFar (intersectionStep dst_rows dst_cols imageSize line1 line2 acc).
Proof.
  intros H.
  destruct (intersectionStep_cases dst_rows dst_cols imageSize line1 line2 acc)
    as [->|[Hfar ->]]; [exact H|].
  apply pairwiseFar_snoc; [exact H | now apply arePointsNearby_false].
Qed.

Lemma intersectionLoop_pairwiseFar (dst_rows dst_cols : Z) (imageSize : Size)
    (lines : list Vec4i) :
  forall acc, pairwiseFar acc ->
              pairwiseFar (intersectionLoop dst_rows dst_cols imageSize lines acc).
Proof.
  induction lines as [|line1 rest IH]; intros acc H; cbn [intersectionLoop]; [exact H|].
  apply IH. apply fold_left_invariant; [|exact H].
  intros acc0 line2. apply intersectionStep_pairwiseFar.
Qed.

Lemma pairwiseFar_perm (l l' : list Point2f) :
  Permutation l l' -> pairwiseFar l -> pairwiseFar l'.
Proof.
  unfold pairwiseFar.
  induction 1 as [|a l l' Hp IH|a b l|l l' l'' _ IH1 _ IH2]; intros H.
  - exact H.
  - inversion H as [|? ? Ha Hl]; subst. constructor.
    + apply Forall_forall. intros q Hq. rewrite Forall_forall in Ha.
      apply Ha. eapply Permutation_in; [symmetry; exact Hp | exact Hq].
    + now apply IH.
  - inversion H as [|? ? Hb Hl]; subst.
    inversion Hl as [|? ? Ha Hl']; subst.
    inversion Hb as [|? ? Hba Hbl]; subst.
    constructor; [|constructor; assumption].
    constructor; [now apply farApart_sym | assumption].
  - now apply IH2, IH1.
Qed.

Lemma pairwiseFar_nth_lt (l : list Point2f) :
  pairwiseFar l ->
  forall i j p q, (i < j)%nat -> nth_error l i = Some p -> nth_error l j = Some q ->
                  farApart p q.
Proof.
  unfold pairwiseFar. induction 1 as [|a l Ha Hl IH]; intros i j p q Hij Hi Hj.
  - destruct i; discriminate.
  - destruct j as [|j]; [lia|]. simpl in Hj.
    destruct i as [|i]; simpl in Hi.
    + injection Hi as <-. rewrite Forall_forall in Ha.
      apply Ha. eapply nth_error_In; exact Hj.
    + apply (IH i j); [lia | assumption | assumption].
Qed.

Lemma pairwiseFar_nth (l : list Point2f) :
  pairwiseFar l ->
  forall i j p q, i <> j -> nth_error l i = Some p -> nth_error l j = Some q ->
                  farApart p q.
Proof.
  intros H i j p q Hij Hi Hj.
  destruct (Nat.lt_ge_cases i j) as [Hlt|Hge].
  - exact (pairwiseFar_nth_lt l H i j p q Hlt Hi Hj).
  - apply farApart_sym.
    apply (pairwiseFar_nth_lt l H j i q p); [lia | assumption | assumption].
Qed.

Lemma insertSorted_perm {A : Type} (cmp : A -> A -> bool) (a : A) (l : list A) :
  Permutation (insertSorted cmp a l) (a :: l).
Proof.
  induction l as [|b l IH]; simpl; [reflexivity|].
  destruct (cmp b a); [|reflexivity].
  rewrite IH. apply perm_swap.
Qed.

Lemma insertionSort_perm {A : Type} (cmp : A -> A -> bool) (l : list A) :
  Permutation (insertionSort cmp l) l.
Proof.
  induction l as [|a l IH]; simpl; [reflexivity|].
  rewrite insertSorted_perm. now constructor.
Qed.

(** A candidate within 30 of an accepted point leaves the accumulator as it
    is: the first-found point stays, unchanged. *)
Lemma intersectionStep_duplicate (dst_rows dst_cols : Z) (imageSize : Size)
    (line1 line2 : Vec4i) (accepted : list Point2f) (q : Point2f) :
  In q accepted ->
  (distSq (snd (checkIntersection line1 line2 imageSize (mkPoint2f 0 0))) q <= 900)%Q ->
  intersectionStep dst_rows dst_cols imageSize line1 line2 accepted = accepted.
Proof.
  intros Hin Hq.
  destruct (intersectionStep_cases dst_rows dst_cols imageSize line1 line2 accepted)
    as [E|[Hfar _]]; [exact E|].
  generalize dependent (snd (checkIntersection line1 line2 imageSize (mkPoint2f 0 0))).
  intros c Hq Hfar.
  assert (Ht : arePointsNearby c accepted 30 = true).
  { apply arePointsNearby_true. exists q. split; assumption. }
  congruence.
Qed.

(** *** What [std::sort] needs and gives *)

Section StrictWeakOrdering.

Context {A : Type} (cmp : A -> A -> bool) (dom : A -> Prop).
Hypothesis ordering : strictWeakOrderingOn dom cmp.





End StrictWeakOrdering.




(** Where the behaviour of the call of [std::sort] is defined, the points
    that [getIntersections] returns from an empty accumulator are pairwise
    more than 30 apart: their Euclidean distance exceeds 30 (the square of
    it exceeds 900). *)
Lemma getIntersections_defined_dedup
    (std_sort : (Point2f -> Point2f -> bool) -> list Point2f -> list Point2f)
    (dst_rows dst_cols : Z) (lines : list Vec4i) (imageSize : Size) :
  conformingSort std_sort ->
  strictWeakOrderingOn
    (fun p => In p (intersectionLoop dst_rows dst_cols imageSize lines [])) comparePoints ->
  forall i j p q,
    i <> j ->
    nth_error (getIntersections std_sort dst_rows dst_cols lines imageSize []) i = Some p ->
    nth_error (getIntersections std_sort dst_rows dst_cols lines imageSize []) j = Some q ->
    (900 < distSq p q)%Q /\ distanceExceeds 30 p q.
Proof.
  intros Hsort Hord i j p q Hij Hi Hj.
  assert (Hfar : farApart p q).
  { refine (pairwiseFar_nth _ _ i j p q Hij Hi Hj).
    unfold getIntersections.
    eapply pairwiseFar_perm; [symmetry; apply (Hsort _ _ Hord)|].
    apply intersectionLoop_pairwiseFar. constructor. }
  split; [exact Hfar | now apply RealDistance.farApart_euclidean].
Qed.

(** Four segments that form the corners of one square: all four
    intersection points are kept, and they come out row by row. *)
Example getIntersections_square :
  map (fun p => (px p, py p))
      (getIntersections insertionSort 524 428 squareLines (mkSize 428 524) [])
  = [(100, 100); (200, 100); (100, 200); (200, 200)]%Q.
Proof. vm_compute. reflexivity. Qed.





(* ------------------------------------------------------------------ *)
(** ** Loops and unchecked reads *)

Lemma vec_at_Ok {A : Type} (v : list A) (i : Z) (a : A) :
  vec_at v i = Ok a <-> 0 <= i /\ nth_error v (Z.to_nat i) = Some a.
Proof.
  unfold vec_at. destruct (Z.ltb_spec i 0).
  - split; [discriminate | lia].
  - destruct (nth_error v (Z.to_nat i)); split.
    + intros [= ->]. now split.
    + intros [_ [= ->]]. reflexivity.
    + discriminate.
    + intros [_ [=]].
Qed.

Lemma vec_at_in_range {A : Type} (v : list A) (i : Z) (d : A) :
  0 <= i < Z.of_nat (length v) -> vec_at v i = Ok (nth (Z.to_nat i) v d).
Proof.
  intros H. apply vec_at_Ok. split; [lia|].
  apply nth_error_nth'. lia.
Qed.

Lemma vec_at_Fault {A : Type} (v : list A) (i : Z) (f : fault) :
  vec_at v i = Fault f ->
  f = UB_OutOfRange i (length v) /\ (i < 0 \/ Z.of_nat (length v) <= i).
Proof.
  unfold vec_at. destruct (Z.ltb_spec i 0).
  - intros [= <-]. split; [reflexivity | now left].
  - destruct (nth_error v (Z.to_nat i)) eqn:E; [discriminate|].
    intros [= <-]. split; [reflexivity|]. right.
    apply nth_error_None in E. lia.
Qed.

(** A loop whose body succeeds at every index computes the fold of the
    body's results. *)
Lemma for_loop_Ok {S : Type} (body : Z -> S -> outcome S) (f : Z -> S -> S) (n : nat) :
  forall (i : Z) (s : S),
    (forall k s', i <= k < i + Z.of_nat n -> body k s' = Ok (f k s')) ->
    for_loop n i body s = Ok (fold_left (fun s' k => f k s') (zrange i n) s).
Proof.
  induction n as [|n IH]; intros i s H; [reflexivity|].
  cbn [for_loop zrange fold_left]. rewrite H by lia. cbn [bind].
  apply IH. intros k s' Hk. apply H. lia.
Qed.

(** A loop that ends normally ran its body at every index. *)
Lemma for_loop_Ok_inv {S : Type} (body : Z -> S -> outcome S) (n : nat) :
  forall (i : Z) (s s' : S),
    for_loop n i body s = Ok s' ->
    forall k, i <= k < i + Z.of_nat n -> exists s1 s2, body k s1 = Ok s2.
Proof.
  induction n as [|n IH]; intros i s s' H k Hk; [lia|].
  cbn [for_loop] in H. destruct (body i s) as [s1|f] eqn:E; [|discriminate].
  cbn [bind] in H.
  destruct (Z.eq_dec k i) as [->|Hne]; [now exists s, s1|].
  apply (IH _ _ _ H). lia.
Qed.

(** A fault of a loop is a fault of its body at one of the indices. *)
Lemma for_loop_Fault_inv {S : Type} (body : Z -> S -> outcome S) (P : fault -> Prop)
    (n : nat) :
  forall (i : Z) (s : S),
    (forall k s1 f, i <= k < i + Z.of_nat n -> body k s1 = Fault f -> P f) ->
    forall f, for_loop n i body s = Fault f -> P f.
Proof.
  induction n as [|n IH]; intros i s H f E; [discriminate|].
  cbn [for_loop] in E. destruct (body i s) as [s1|f1] eqn:Eb; cbn [bind] in E.
  - apply (IH (i + 1) s1); [|exact E]. intros k s2 f2 Hk. apply H. lia.
  - injection E as <-. apply (H i s); [lia | exact Eb].
Qed.

(* ------------------------------------------------------------------ *)
(** ** setRectangles *)

Lemma rectangleStep_Fault (intersections : list Point2f) (row col : Z)
    (rectangles : list Rect) (f : fault) :
  0 <= row < 8 -> 0 <= col < 8 ->
  rectangleStep intersections row col rectangles = Fault f ->
  exists index,
    f = UB_OutOfRange index (length intersections)
    /\ Z.of_nat (length intersections) <= index < 81.
Proof.
  intros Hrow Hcol. unfold rectangleStep.
  destruct (vec_at intersections (row * 9 + col)) as [a|f1] eqn:E1; cbn [bind].
  - destruct (vec_at intersections ((row + 1) * 9 + (col + 1))) as [b|f2] eqn:E2;
      cbn [bind]; [discriminate|].
    intros [= <-]. apply vec_at_Fault in E2 as [-> H].
    eexists. split; [reflexivity | lia].
  - intros [= <-]. apply vec_at_Fault in E1 as [-> H].
    eexists. split; [reflexivity | lia].
Qed.

Lemma rectangleStep_Ok_inv (intersections : list Point2f) (row col : Z)
    (rectangles rectangles' : list Rect) :
  rectangleStep intersections row col rectangles = Ok rectangles' ->
  (Z.to_nat ((row + 1) * 9 + (col + 1)) < length intersections)%nat.
Proof.
  unfold rectangleStep.
  destruct (vec_at intersections (row * 9 + col)) as [a|f1]; cbn [bind]; [|discriminate].
  destruct (vec_at intersections ((row + 1) * 9 + (col + 1))) as [b|f2] eqn:E2;
    cbn [bind]; [|discriminate].
  intros _. apply vec_at_Ok in E2 as [_ E2].
  apply nth_error_Some. congruence.
Qed.

(** C1 (what the code does). With fewer than 81 points [setRectangles] does
    not report an error: it performs a read [intersections[index]] with
    [index] at or beyond the size of the vector, which is undefined
    behaviour. *)
Theorem setRectangles_too_few_points (intersections : list Point2f)
    (rectangles : list Rect) :
  (length intersections < 81)%nat ->
  exists index,
    setRectangles intersections rectangles
    = Fault (UB_OutOfRange index (length intersections))
    /\ Z.of_nat (length intersections) <= index < 81.
Proof.
  intros Hlen.
  destruct (setRectangles intersections rectangles) as [r|f] eqn:E.
  - exfalso. unfold setRectangles in E.
    destruct (for_loop_Ok_inv _ _ _ _ _ E 7 ltac:(lia)) as (s1 & s2 & E7).
    destruct (for_loop_Ok_inv _ _ _ _ _ E7 7 ltac:(lia)) as (s3 & s4 & E77).
    apply rectangleStep_Ok_inv in E77. simpl in E77. lia.
  - assert (H : exists index,
               f = UB_OutOfRange index (length intersections)
               /\ Z.of_nat (length intersections) <= index < 81).
    { unfold setRectangles in E. revert f E.
      apply for_loop_Fault_inv. intros row s1 f1 Hrow. revert f1.
      apply for_loop_Fault_inv. intros col s2 f2 Hcol.
      apply rectangleStep_Fault; lia. }
    destruct H as (index & -> & H). now exists index.
Qed.

Lemma setRectangles_too_few_points_witness :
  exists index,
    setRectangles (firstn 80 boardCorners) []
    = Fault (UB_OutOfRange index (length (firstn 80 boardCorners)))
    /\ Z.of_nat (length (firstn 80 boardCorners)) <= index < 81.
Proof.
  apply (setRectangles_too_few_points (firstn 80 boardCorners) []).
  vm_compute. lia.
Defined.

Example setRectangles_no_points :
  setRectangles [] [] = Fault (UB_OutOfRange 0 0).
Proof. reflexivity. Qed.

Example setRectangles_80_points :
  setRectangles (firstn 80 boardCorners) [] = Fault (UB_OutOfRange 80 80).
Proof. vm_compute. reflexivity. Qed.

Lemma setRectangles_Ok (intersections : list Point2f) (rectangles : list Rect) :
  (81 <= length intersections)%nat ->
  setRectangles intersections rectangles
  = Ok (rectangles
          ++ flat_map (fun row => map (gridCell intersections row) (zrange 0 8))
                      (zrange 0 8)).
Proof.
  intros Hlen. unfold setRectangles.
  rewrite (for_loop_Ok _ (fun row rects =>
                            rects ++ map (gridCell intersections row) (zrange 0 8))).
  - cbn [fold_left zrange flat_map]. f_equal.
    rewrite app_nil_r, <- !app_assoc. reflexivity.
  - intros row rects Hrow.
    rewrite (for_loop_Ok _ (fun col rects => rects ++ [gridCell intersections row col])).
    + cbn [fold_left zrange map]. f_equal.
      rewrite <- !app_assoc. reflexivity.
    + intros col rects' Hcol. unfold rectangleStep.
      rewrite (vec_at_in_range intersections (row * 9 + col) (mkPoint2f 0 0)) by lia.
      rewrite (vec_at_in_range intersections ((row + 1) * 9 + (col + 1)) (mkPoint2f 0 0))
        by lia.
      reflexivity.
Qed.

Lemma nth_error_grid {A : Type} (R : Z -> Z -> A) (row col : nat) :
  (row < 8)%nat -> (col < 8)%nat ->
  nth_error (flat_map (fun r => map (R r) (zrange 0 8)) (zrange 0 8)) (row * 8 + col)
  = Some (R (Z.of_nat row) (Z.of_nat col)).
Proof.
  intros Hrow Hcol.
  do 8 (destruct row as [|row];
        [do 8 (destruct col as [|col]; [reflexivity|]); lia|]).
  lia.
Qed.

Lemma length_grid {A : Type} (R : Z -> Z -> A) :
  length (flat_map (fun r => map (R r) (zrange 0 8)) (zrange 0 8)) = 64%nat.
Proof. reflexivity. Qed.

(** *** The corners of a rectangle built from two points *)

Lemma wrap32_small (z : Z) : INT_MIN <= z <= INT_MAX -> wrap32 z = z.
Proof.
  unfold wrap32, INT_MIN, INT_MAX. intros H.
  rewrite Z.mod_small; lia.
Qed.


Lemma cvRound_nearest (v : Q) : nearestPixel v (cvRound v).
Proof.
  pose proof (Qfloor_le v) as Hlo. pose proof (Qlt_floor v) as Hhi.
  rewrite inject_Z_plus in Hhi. change (inject_Z 1) with 1%Q in Hhi.
  unfold nearestPixel.
  destruct (cvRound_cases v) as [[-> H]|[(-> & H & Ev)|[[-> H]|(-> & H & Ev)]]];
    rewrite ?inject_Z_plus; change (inject_Z 1) with 1%Q.
  - split; [apply Qabs_case; intros; lra|].
    apply Qabs_case; intros; lra.
  - split; [apply Qabs_case; intros; lra | intros _; exact Ev].
  - split; [apply Qabs_case; intros; lra|].
    apply Qabs_case; intros; lra.
  - split; [apply Qabs_case; intros; lra|].
    intros _. rewrite Z.even_add, Ev. reflexivity.
Qed.

Lemma imagePoints_spec (points : list Point2f) (p : Point2f) :
  imagePoints points = true -> In p points ->
  (0 <= px p <= inject_Z INT_MAX)%Q /\ (0 <= py p <= inject_Z INT_MAX)%Q.
Proof.
  unfold imagePoints. intros H Hin. rewrite forallb_forall in H.
  specialize (H p Hin).
  repeat (apply andb_true_iff in H as [H ?]).
  repeat split; now apply Qle_bool_iff.
Qed.

(** A pixel coordinate is converted by [cvRound]. *)
Lemma saturate_cast_int_pixel (v : Q) :
  (0 <= v <= inject_Z INT_MAX)%Q ->
  saturate_cast_int v = cvRound v /\ 0 <= cvRound v <= INT_MAX.
Proof.
  intros [Hlo Hhi].
  assert (H0 : 0 <= cvRound v).
  { rewrite <- (cvRound_inject_Z 0). now apply cvRound_monotone. }
  assert (H1 : cvRound v <= INT_MAX).
  { rewrite <- (cvRound_inject_Z INT_MAX). now apply cvRound_monotone. }
  split; [|lia].
  unfold saturate_cast_int.
  destruct (Z.leb_spec INT_MIN (cvRound v)); [|unfold INT_MIN in *; lia].
  destruct (Z.leb_spec (cvRound v) INT_MAX); [reflexivity | lia].
Qed.

(** The rectangle that [cv::Rect] builds from two points of an image. *)
Lemma Rect_boundingBox (p q : Point2f) :
  (0 <= px p <= inject_Z INT_MAX)%Q -> (0 <= py p <= inject_Z INT_MAX)%Q ->
  (0 <= px q <= inject_Z INT_MAX)%Q -> (0 <= py q <= inject_Z INT_MAX)%Q ->
  let a := mkPoint2i (cvRound (px p)) (cvRound (py p)) in
  let b := mkPoint2i (cvRound (px q)) (cvRound (py q)) in
  nearestPixelPoint p a /\ nearestPixelPoint q b
  /\ boundingBox (Rect_ (toPoint2i p) (toPoint2i q)) a b
  /\ ((px p <= px q)%Q -> (py p <= py q)%Q ->
      spansFrom (Rect_ (toPoint2i p) (toPoint2i q)) a b).
Proof.
  intros Hpx Hpy Hqx Hqy. cbv zeta.
  destruct (saturate_cast_int_pixel _ Hpx) as [Epx Rpx].
  destruct (saturate_cast_int_pixel _ Hpy) as [Epy Rpy].
  destruct (saturate_cast_int_pixel _ Hqx) as [Eqx Rqx].
  destruct (saturate_cast_int_pixel _ Hqy) as [Eqy Rqy].
  split; [split; apply cvRound_nearest|].
  split; [split; apply cvRound_nearest|].
  assert (Hbox : boundingBox (Rect_ (toPoint2i p) (toPoint2i q))
                   (mkPoint2i (cvRound (px p)) (cvRound (py p)))
                   (mkPoint2i (cvRound (px q)) (cvRound (py q)))).
  { unfold boundingBox, spansFrom, Rect_, toPoint2i. cbn [ix iy x y width height].
    rewrite Epx, Epy, Eqx, Eqy.
    rewrite !wrap32_small by (unfold INT_MIN, INT_MAX in *; lia).
    repeat split; lia. }
  split; [exact Hbox|].
  intros Hx Hy.
  apply cvRound_monotone in Hx, Hy.
  unfold boundingBox in Hbox. cbn [ix iy] in Hbox.
  rewrite !Z.min_l, !Z.max_r in Hbox by assumption. exact Hbox.
Qed.

(** C3, as stated, fails.  The corners of the slanted board are sorted by
    [comparePoints] (row by row, every row from left to right), but the
    corner below and to the right of corner 0 in the lattice lies to its
    left in the image: [cv::Rect] takes the bounding box of the two points,
    and the top-left corner of rectangle 0 is not point 0.  The corners
    moved by half a pixel are sorted as well, row by row and column by
    column; the corners of a [cv::Rect] are integers, and the top-left
    corner of rectangle 0 is the pixel [(30, 40)], not the point
    [(30.5, 40.5)]. *)
Lemma setRectangles_corner_not_point :
  (length shearedCorners = 81%nat
   /\ sortedBy comparePoints shearedCorners = true
   /\ exists rectangles p0 r0,
        setRectangles shearedCorners [] = Ok rectangles
        /\ nth_error shearedCorners 0 = Some p0
        /\ nth_error rectangles 0 = Some r0
        /\ ~ (inject_Z (x r0) == px p0)%Q)
  /\ (length halfCorners = 81%nat
      /\ sortedBy comparePoints halfCorners = true
      /\ sorted_row_major halfCorners = true
      /\ exists rectangles p0 r0,
           setRectangles halfCorners [] = Ok rectangles
           /\ nth_error halfCorners 0 = Some p0
           /\ nth_error rectangles 0 = Some r0
           /\ ~ (inject_Z (x r0) == px p0)%Q).
Proof.
  split.
  - split; [reflexivity|]. split; [vm_compute; reflexivity|].
    destruct (setRectangles shearedCorners []) as [rectangles|f] eqn:E;
      [|vm_compute in E; discriminate E].
    exists rectangles, (mkPoint2f 500 40), (mkRect 490 40 10 50).
    split; [reflexivity|]. split; [reflexivity|].
    split; [|discriminate].
    vm_compute in E. injection E as <-. reflexivity.
  - split; [reflexivity|]. split; [vm_compute; reflexivity|].
    split; [vm_compute; reflexivity|].
    destruct (setRectangles halfCorners []) as [rectangles|f] eqn:E;
      [|vm_compute in E; discriminate E].
    exists rectangles, (mkPoint2f (61 # 2) (81 # 2)), (mkRect 30 40 50 50).
    split; [reflexivity|]. split; [vm_compute; reflexivity|].
    split; [|discriminate].
    vm_compute in E. injection E as <-. reflexivity.
Qed.

(** C3, amended. Given exactly 81 points with pixel coordinates,
    [setRectangles] appends exactly 64 rectangles to an empty vector, row by
    row; the rectangle of index [row * 8 + col] is the bounding box of the
    pixels nearest to [points[row * 9 + col]] and to
    [points[(row + 1) * 9 + (col + 1)]] (coordinates rounded to the nearest
    integer, ties to even); when the first point is neither to the right of
    nor below the second, the rectangle spans from the pixel nearest to the
    first (its top-left corner) to the pixel nearest to the second (its
    bottom-right corner); in particular the top-left corner of rectangle 0
    is then the pixel nearest to [points[0]]. *)
Theorem setRectangles_grid (intersections : list Point2f) :
  length intersections = 81%nat ->
  imagePoints intersections = true ->
  exists rectangles,
    setRectangles intersections [] = Ok rectangles
    /\ length rectangles = 64%nat
    /\ (forall row col, (row < 8)%nat -> (col < 8)%nat ->
          exists p q r a b,
            nth_error intersections (row * 9 + col) = Some p
            /\ nth_error intersections ((row + 1) * 9 + (col + 1)) = Some q
            /\ nth_error rectangles (row * 8 + col) = Some r
            /\ nearestPixelPoint p a /\ nearestPixelPoint q b
            /\ boundingBox r a b
            /\ ((px p <= px q)%Q -> (py p <= py q)%Q -> spansFrom r a b))
    /\ (exists p0 q0 r0 a0,
          nth_error intersections 0 = Some p0
          /\ nth_error intersections 10 = Some q0
          /\ nth_error rectangles 0 = Some r0
          /\ nearestPixelPoint p0 a0
          /\ ((px p0 <= px q0)%Q -> (py p0 <= py q0)%Q ->
              x r0 = ix a0 /\ y r0 = iy a0)).
Proof.
  intros Hlen Himage.
  eexists. split; [apply setRectangles_Ok; lia|].
  cbn [app]. split; [apply length_grid|].
  assert (Hcell : forall row col, (row < 8)%nat -> (col < 8)%nat ->
            exists p q r a b,
              nth_error intersections (row * 9 + col) = Some p
              /\ nth_error intersections ((row + 1) * 9 + (col + 1)) = Some q
              /\ nth_error
                   (flat_map (fun row => map (gridCell intersections row) (zrange 0 8))
                             (zrange 0 8)) (row * 8 + col) = Some r
              /\ nearestPixelPoint p a /\ nearestPixelPoint q b
              /\ boundingBox r a b
              /\ ((px p <= px q)%Q -> (py p <= py q)%Q -> spansFrom r a b)).
  { intros row col Hrow Hcol.
    set (i := (row * 9 + col)%nat). set (j := ((row + 1) * 9 + (col + 1))%nat).
    set (p := nth i intersections (mkPoint2f 0 0)).
    set (q := nth j intersections (mkPoint2f 0 0)).
    assert (Ep : nth_error intersections i = Some p) by (apply nth_error_nth'; lia).
    assert (Eq : nth_error intersections j = Some q) by (apply nth_error_nth'; lia).
    destruct (imagePoints_spec _ p Himage (nth_error_In _ _ Ep)) as [Hpx Hpy].
    destruct (imagePoints_spec _ q Himage (nth_error_In _ _ Eq)) as [Hqx Hqy].
    destruct (Rect_boundingBox p q Hpx Hpy Hqx Hqy) as (Na & Nb & Hbox & Hspan).
    exists p, q, (Rect_ (toPoint2i p) (toPoint2i q)),
      (mkPoint2i (cvRound (px p)) (cvRound (py p))),
      (mkPoint2i (cvRound (px q)) (cvRound (py q))).
    split; [exact Ep|]. split; [exact Eq|].
    split; [|split; [exact Na | split; [exact Nb | split; [exact Hbox | exact Hspan]]]].
    rewrite nth_error_grid by assumption. f_equal.
    unfold gridCell, p, q, i, j. do 2 f_equal; f_equal; lia. }
  split; [exact Hcell|].
  destruct (Hcell 0%nat 0%nat ltac:(lia) ltac:(lia))
    as (p0 & q0 & r0 & a0 & b0 & Hp & Hq & Hr & Na & _ & _ & Hspan).
  exists p0, q0, r0, a0.
  split; [exact Hp|]. split; [exact Hq|]. split; [exact Hr|]. split; [exact Na|].
  intros Hx Hy. destruct (Hspan Hx Hy) as (Ex & Ey & _). split; assumption.
Qed.

Lemma setRectangles_grid_witness :
  exists rectangles,
    setRectangles halfCorners [] = Ok rectangles
    /\ length rectangles = 64%nat
    /\ (forall row col, (row < 8)%nat -> (col < 8)%nat ->
          exists p q r a b,
            nth_error halfCorners (row * 9 + col) = Some p
            /\ nth_error halfCorners ((row + 1) * 9 + (col + 1)) = Some q
            /\ nth_error rectangles (row * 8 + col) = Some r
            /\ nearestPixelPoint p a /\ nearestPixelPoint q b
            /\ boundingBox r a b
            /\ ((px p <= px q)%Q -> (py p <= py q)%Q -> spansFrom r a b))
    /\ (exists p0 q0 r0 a0,
          nth_error halfCorners 0 = Some p0
          /\ nth_error halfCorners 10 = Some q0
          /\ nth_error rectangles 0 = Some r0
          /\ nearestPixelPoint p0 a0
          /\ ((px p0 <= px q0)%Q -> (py p0 <= py q0)%Q ->
              x r0 = ix a0 /\ y r0 = iy a0)).
Proof.
  apply (setRectangles_grid halfCorners); vm_compute; reflexivity.
Defined.

Example setRectangles_board_corners :
  match setRectangles boardCorners [] with
  | Ok rectangles =>
      nth_error rectangles 0 = Some (mkRect 30 40 50 50)
      /\ nth_error rectangles 9 = Some (mkRect 80 90 50 50)
      /\ nth_error rectangles 63 = Some (mkRect 380 390 50 50)
  | Fault _ => False
  end.
Proof. vm_compute. repeat split. Qed.

(* ------------------------------------------------------------------ *)
(** ** getFenFromLabels *)

Lemma string_length_app (s t : string) :
  String.length (s ++ t) = (String.length s + String.length t)%nat.
Proof. induction s as [|ch s IH]; cbn; [reflexivity | now rewrite IH]. Qed.

Lemma string_app_nil (s t : string) : (s ++ t)%string = "" -> s = "" /\ t = "".
Proof. destruct s; simpl; [now split | discriminate]. Qed.

Lemma getFenFromLabels_returns_nonempty (squareLabels : list string) (io io' : console)
    (fen : string) :
  length squareLabels = 64%nat ->
  getFenFromLabels squareLabels io = (io', Ok fen) -> fen <> "".
Proof.
  intros Hlen. unfold getFenFromLabels. rewrite Hlen. cbn [Nat.eqb negb].
  destruct (fenLoop squareLabels 0 (0, "")) as [[n board]|f]; [|discriminate].
  destruct (readTurn (stdin io) (stdout io)) as [io1 [turn|f]]; [|discriminate].
  intros [= _ <-] E.
  apply string_app_nil in E as [_ E]. discriminate E.
Qed.

(** C9. For a label vector whose size is not 64, [getFenFromLabels] prints
    the size diagnostic, reads nothing from the input and returns the empty
    string: no part of a board is encoded.  The empty string tells the
    caller of the failure, since a call with 64 labels never returns it. *)
Theorem getFenFromLabels_size_mismatch (squareLabels : list string) (io : console) :
  length squareLabels <> 64%nat ->
  getFenFromLabels squareLabels io
  = (mkConsole (stdin io) (stdout io ++ [sizeMessage (length squareLabels)]), Ok "")
  /\ (forall labels64 io1 io2 fen,
         length labels64 = 64%nat ->
         getFenFromLabels labels64 io1 = (io2, Ok fen) -> fen <> "").
Proof.
  intros Hlen. split.
  - unfold getFenFromLabels.
    destruct (Nat.eqb_spec (length squareLabels) 64) as [E|_]; [contradiction|].
    reflexivity.
  - intros labels64 io1 io2 fen. apply getFenFromLabels_returns_nonempty.
Qed.

Lemma getFenFromLabels_size_mismatch_witness :
  getFenFromLabels (repeat "ee" 63) (mkConsole ["w"] [])
  = (mkConsole ["w"]
       ["Improper size of labels parameter. Should be 64 squares. Size is: 63"],
     Ok "").
Proof.
  refine (eq_trans
            (proj1 (getFenFromLabels_size_mismatch (repeat "ee" 63) (mkConsole ["w"] []) _))
            _).
  - vm_compute. discriminate.
  - vm_compute. reflexivity.
Defined.

Lemma fenLoop_all_empty :
  fenLoop (repeat "ee" 64) 0 (0, "") = Ok (8, "8/8/8/8/8/8/8/").
Proof. vm_compute. reflexivity. Qed.

(** C2 (what the code does). On 64 labels ["ee"] the loop ends with the
    count of the last row still pending and nothing flushes it: whatever the
    console holds, a returned string has the board field [8/8/8/8/8/8/8/],
    with an empty eighth row, and not [8/8/8/8/8/8/8/8]. *)
Theorem getFenFromLabels_all_empty (io : console) :
  match snd (getFenFromLabels (repeat "ee" 64) io) with
  | Ok fen => boardField fen = "8/8/8/8/8/8/8/" /\ boardField fen <> "8/8/8/8/8/8/8/8"
  | Fault f => f = Diverges
  end.
Proof.
  unfold getFenFromLabels. rewrite fenLoop_all_empty.
  cbn [length repeat Nat.eqb negb].
  generalize (stdout io). induction (stdin io) as [|tok rest IH]; intros out.
  - reflexivity.
  - cbn [readTurn]. destruct (String.eqb tok "w" || String.eqb tok "b").
    + cbn [snd]. split; [reflexivity | discriminate].
    + destruct (readTurn rest (out ++ [turnPrompt])) as [io1 [turn|f]] eqn:E.
      * specialize (IH (out ++ [turnPrompt])). rewrite E in IH. exact IH.
      * specialize (IH (out ++ [turnPrompt])). rewrite E in IH. exact IH.
Qed.

(* ------------------------------------------------------------------ *)
(** ** isEmptySpace *)

(** C10. The decision of [isEmptySpace] does not depend on [isDarkSquare]:
    for every image and rectangle (inside the image or not), whatever the
    grey conversion and the edge detector compute, the call with the flag
    [true] and the call with the flag [false] have the same outcome. *)
Theorem isEmptySpace_ignores_isDarkSquare
    (cvtColor_BGR2GRAY : Mat Vec3b -> outcome (Mat Z))
    (Canny : Mat Z -> Z -> Z -> outcome (Mat Z))
    (image : Mat Vec3b) (currentRect : Rect) :
  isEmptySpace cvtColor_BGR2GRAY Canny image currentRect true
  = isEmptySpace cvtColor_BGR2GRAY Canny image currentRect false.
Proof.
  unfold isEmptySpace.
  destruct (roi image currentRect) as [square|f]; [|reflexivity].
  cbn [bind]. destruct (cvtColor_BGR2GRAY square) as [gray|f]; reflexivity.
Qed.

Example isEmptySpace_one_pixel :
  isEmptySpace blackGray blackEdges onePixel (mkRect 0 0 1 1) true = Ok true
  /\ isEmptySpace blackGray blackEdges onePixel (mkRect 0 0 1 1) false = Ok true
  /\ isEmptySpace blackGray blackEdges onePixel (mkRect 0 0 2 2) true = Fault cv_Exception.
Proof. vm_compute. repeat split. Qed.

(* ------------------------------------------------------------------ *)
(** ** computeHistogramIntersectionDifference *)

(** A loop whose body succeeds at the first [m] indices and faults at the
    next one ends in that fault. *)
Lemma for_loop_Fault_at {S : Type} (body : Z -> S -> outcome S) (f : Z -> S -> S)
    (flt : fault) (m : nat) :
  forall (n : nat) (i : Z) (s : S),
    (m < n)%nat ->
    (forall k s', i <= k < i + Z.of_nat m -> body k s' = Ok (f k s')) ->
    (forall s', body (i + Z.of_nat m) s' = Fault flt) ->
    for_loop n i body s = Fault flt.
Proof.
  induction m as [|m IH]; intros n i s Hmn Hok Hflt.
  - destruct n as [|n]; [lia|].
    cbn [for_loop]. replace i with (i + Z.of_nat 0) at 1 by lia.
    rewrite Hflt. reflexivity.
  - destruct n as [|n]; [lia|].
    cbn [for_loop]. rewrite Hok by lia. cbn [bind].
    apply IH; [lia | intros; apply Hok; lia |].
    intros s'. replace (i + 1 + Z.of_nat m) with (i + Z.of_nat (Datatypes.S m)) by lia.
    apply Hflt.
Qed.

(** The loop over the bins of [h1], when [h2] has at least as many bins:
    the sum of the bin minima. *)
Lemma intersection_loop (h1 : list Q) :
  forall (h2 pre1 pre2 : list Q) (acc : Q),
    (length h1 <= length h2)%nat ->
    length pre1 = length pre2 ->
    exists v,
      for_loop (length h1) (Z.of_nat (length pre1))
        (fun i intersection =>
           a <- vec_at (pre1 ++ h1) i ;;
           b <- vec_at (pre2 ++ h2) i ;;
           Ok (intersection + Qmin a b)%Q) acc = Ok v
      /\ (v == acc + intersectionQ h1 h2)%Q.
Proof.
  induction h1 as [|a h1 IH]; intros h2 pre1 pre2 acc Hlen Hpre.
  - exists acc. split; [reflexivity | simpl; ring].
  - destruct h2 as [|b h2]; [cbn [length] in Hlen; lia|].
    cbn [length for_loop].
    assert (E1 : vec_at (pre1 ++ a :: h1) (Z.of_nat (length pre1)) = Ok a).
    { apply vec_at_Ok. split; [lia|]. rewrite Nat2Z.id.
      now rewrite nth_error_app2, Nat.sub_diag by lia. }
    assert (E2 : vec_at (pre2 ++ b :: h2) (Z.of_nat (length pre1)) = Ok b).
    { apply vec_at_Ok. split; [lia|]. rewrite Nat2Z.id, Hpre.
      now rewrite nth_error_app2, Nat.sub_diag by lia. }
    rewrite E1. cbn [bind]. rewrite E2. cbn [bind].
    destruct (IH h2 (pre1 ++ [a]) (pre2 ++ [b]) (acc + Qmin a b)%Q) as (v & Ev & Hv).
    { cbn [length] in Hlen. lia. }
    { rewrite !length_app. simpl. lia. }
    exists v. split.
    + rewrite <- Ev. rewrite length_app, <- !app_assoc. cbn [length app].
      f_equal. lia.
    + rewrite Hv. cbn [intersectionQ]. ring.
Qed.

(** C7 (what the code does). On vectors of different lengths
    [computeHistogramIntersectionDifference] prints a line and goes on: when
    [h1] is the shorter one it returns an ordinary number, one minus the sum
    of the minima over the bins of [h1]; when [h2] is the shorter one it
    reads [h2] beyond its end. *)
Theorem computeHistogramIntersectionDifference_size_mismatch
    (h1 h2 : list Q) (tr : list event) :
  ((length h1 < length h2)%nat ->
   exists v : Q,
     computeHistogramIntersectionDifference h1 h2 tr
     = (tr ++ [Printed "Size issues..."], Ok v)
     /\ (v == 1 - intersectionQ h1 h2)%Q)
  /\ ((length h2 < length h1)%nat ->
      computeHistogramIntersectionDifference h1 h2 tr
      = (tr ++ [Printed "Size issues..."],
         Fault (UB_OutOfRange (Z.of_nat (length h2)) (length h2)))).
Proof.
  unfold computeHistogramIntersectionDifference, bindM, emit, lift, ret.
  split; intros Hlen;
    (destruct (Nat.eqb_spec (length h1) (length h2)) as [E|_]; [lia|]);
    cbn [negb].
  - destruct (intersection_loop h1 h2 [] [] 0%Q ltac:(lia) eq_refl) as (v & Ev & Hv).
    cbn [length app Z.of_nat] in Ev. rewrite Ev.
    eexists. split; [reflexivity|]. rewrite Hv. ring.
  - rewrite (for_loop_Fault_at _ (fun i acc => (acc + Qmin (nth (Z.to_nat i) h1 0)
                                                           (nth (Z.to_nat i) h2 0))%Q)
               (UB_OutOfRange (Z.of_nat (length h2)) (length h2)) (length h2)).
    + reflexivity.
    + exact Hlen.
    + intros k acc Hk.
      rewrite (vec_at_in_range h1 k 0%Q), (vec_at_in_range h2 k 0%Q) by lia.
      reflexivity.
    + intros acc. rewrite Z.add_0_l.
      rewrite (vec_at_in_range h1 _ 0%Q) by lia. cbn [bind].
      unfold vec_at. destruct (Z.ltb_spec (Z.of_nat (length h2)) 0); [lia|].
      rewrite Nat2Z.id.
      now rewrite (proj2 (nth_error_None h2 (length h2)) (Nat.le_refl _)).
Qed.

Lemma computeHistogramIntersectionDifference_size_mismatch_witness :
  (exists v : Q,
      computeHistogramIntersectionDifference [1%Q] [1%Q; 0%Q] []
      = ([Printed "Size issues..."], Ok v)
      /\ (v == 1 - intersectionQ [1%Q] [1%Q; 0%Q])%Q)
  /\ computeHistogramIntersectionDifference [1%Q; 0%Q] [1%Q] []
     = ([Printed "Size issues..."], Fault (UB_OutOfRange 1 1)).
Proof.
  split.
  - apply (proj1 (computeHistogramIntersectionDifference_size_mismatch
                    [1%Q] [1%Q; 0%Q] [])).
    simpl. lia.
  - apply (proj2 (computeHistogramIntersectionDifference_size_mismatch
                    [1%Q; 0%Q] [1%Q] [])).
    simpl. lia.
Defined.

(** The number returned for [h1 = [1]] and [h2 = [1, 0]] is [0], the
    dissimilarity of two identical histograms. *)
Example computeHistogramIntersectionDifference_prefix :
  match computeHistogramIntersectionDifference [1%Q] [1%Q; 0%Q] [] with
  | (tr, Ok v) => tr = [Printed "Size issues..."] /\ (v == 0)%Q
  | (_, Fault _) => False
  end.
Proof. vm_compute. split; reflexivity. Qed.

(* ------------------------------------------------------------------ *)
(** ** getNNPieceLabel *)

(** C8 (what the code does). When the arg-max index of the classifier's
    scores is outside [0 .. 11], [getNNPieceLabel] prints the index and then
    reads [PIECE_VALUES] outside its 12 entries: no failure is reported and
    no label is returned. *)
Theorem getNNPieceLabel_unknown_class
    (classifier : Mat Vec3b -> outcome (list Q))
    (image square : Mat Vec3b) (currentRect : Rect) (scores : list Q) (tr : list event) :
  roi image currentRect = Ok square ->
  classifier square = Ok scores ->
  maxLoc scores < 0 \/ 12 <= maxLoc scores ->
  getNNPieceLabel classifier image currentRect tr
  = (tr ++ [Printed ("class ID: " ++ to_string (maxLoc scores))],
     Fault (UB_OutOfRange (maxLoc scores) 12)).
Proof.
  intros Hroi Hscores Hid.
  unfold getNNPieceLabel, bindM, lift, emit. rewrite Hroi, Hscores.
  unfold vec_at. destruct (Z.ltb_spec (maxLoc scores) 0) as [Hneg|Hpos].
  - reflexivity.
  - assert (E : nth_error PIECE_VALUES (Z.to_nat (maxLoc scores)) = None).
    { apply nth_error_None. simpl. lia. }
    rewrite E. reflexivity.
Qed.

Lemma getNNPieceLabel_unknown_class_witness :
  getNNPieceLabel thirteenClasses onePixel (mkRect 0 0 1 1) []
  = ([Printed "class ID: 12"], Fault (UB_OutOfRange 12 12)).
Proof.
  refine (eq_trans
            (getNNPieceLabel_unknown_class thirteenClasses onePixel _
               (mkRect 0 0 1 1) (repeat 0%Q 12 ++ [1%Q]) [] eq_refl eq_refl _)
            _).
  - right. vm_compute. discriminate.
  - reflexivity.
Defined.

Example getNNPieceLabel_known_class :
  getNNPieceLabel (fun _ => Ok [0; 0; 0; 1; 0; 0; 0; 0; 0; 0; 0; 0]%Q)
                  onePixel (mkRect 0 0 1 1) []
  = ([Printed "class ID: 3"; Printed "label name: bp"], Ok "bp").
Proof. vm_compute. reflexivity. Qed.

Example getNNPieceLabel_no_scores :
  getNNPieceLabel (fun _ => Ok []) onePixel (mkRect 0 0 1 1) []
  = ([Printed "class ID: -1"], Fault (UB_OutOfRange (-1) 12)).
Proof. vm_compute. reflexivity. Qed.

(* ------------------------------------------------------------------ *)
(** ** The dark-square flag in getPieceLabels and getPieceLabelsNN *)

Lemma flagsPassed_app (tr1 tr2 : list event) :
  flagsPassed (tr1 ++ tr2) = flagsPassed tr1 ++ flagsPassed tr2.
Proof.
  induction tr1 as [|[line|r d] tr1 IH]; simpl; [reflexivity | exact IH | now rewrite IH].
Qed.

Lemma quiet_ret {A : Type} (a : A) : quiet (ret a).
Proof. intros tr. reflexivity. Qed.

Lemma quiet_lift {A : Type} (o : outcome A) : quiet (lift o).
Proof. intros tr. reflexivity. Qed.

Lemma quiet_Printed (line : string) : quiet (emit (Printed line)).
Proof. intros tr. unfold emit. cbn [fst]. rewrite flagsPassed_app. apply app_nil_r. Qed.

Lemma quiet_bindM {A B : Type} (m : M A) (k : A -> M B) :
  quiet m -> (forall a, quiet (k a)) -> quiet (bindM m k).
Proof.
  intros Hm Hk tr. unfold bindM. specialize (Hm tr).
  destruct (m tr) as [tr' [a|f]]; cbn [fst] in *.
  - now rewrite Hk.
  - exact Hm.
Qed.

Lemma quiet_for_each {A S : Type} (xs : list A) (body : A -> S -> M S) :
  (forall a s, quiet (body a s)) -> forall s, quiet (for_each xs body s).
Proof.
  intros Hbody. induction xs as [|a xs IH]; intros s; cbn [for_each].
  - apply quiet_ret.
  - apply quiet_bindM; [apply Hbody | exact IH].
Qed.

Ltac quiet_steps :=
  repeat first
    [ apply quiet_ret | apply quiet_lift | apply quiet_Printed
    | apply quiet_bindM; [|intros ?]
    | apply quiet_for_each; intros ? ?
    | match goal with
      | |- quiet (if ?c then _ else _) => destruct c
      | |- quiet (let '(_, _) := ?p in _) => destruct p
      end ].

Lemma quiet_computeHistogramIntersectionDifference (h1 h2 : list Q) :
  quiet (computeHistogramIntersectionDifference h1 h2).
Proof. unfold computeHistogramIntersectionDifference. quiet_steps. Qed.

Lemma quiet_computeHistogramDiffs (image : Mat Vec3b) (currentRect : Rect)
    (labels : list string) (featureData : list (list Q)) (nBins : Z) :
  quiet (computeHistogramDiffs image currentRect labels featureData nBins).
Proof.
  unfold computeHistogramDiffs. quiet_steps.
Qed.

Lemma quiet_getNNPieceLabel (classifier : Mat Vec3b -> outcome (list Q))
    (image : Mat Vec3b) (currentRect : Rect) :
  quiet (getNNPieceLabel classifier image currentRect).
Proof. unfold getNNPieceLabel. quiet_steps. Qed.

Lemma checkerboard_succ (k : nat) :
  checkerboard (S k)
  = if negb (Z.of_nat k mod 8 =? 7) then negb (checkerboard k) else checkerboard k.
Proof.
  unfold checkerboard.
  assert (Hmod : Z.of_nat k mod 8 = Z.of_nat (k mod 8)) by (now rewrite Nat2Z.inj_mod).
  rewrite Hmod.
  pose proof (Nat.div_mod_eq k 8) as Hk.
  pose proof (Nat.mod_upper_bound k 8 ltac:(lia)) as Hr.
  destruct (Z.eqb_spec (Z.of_nat (k mod 8)) 7) as [E|E]; cbn [negb].
  - assert (Hd : (S k / 8 = S (k / 8))%nat)
      by (symmetry; apply (Nat.div_unique (S k) 8 (S (k / 8)) 0); lia).
    assert (Hm : (S k mod 8 = 0)%nat)
      by (symmetry; apply (Nat.mod_unique (S k) 8 (S (k / 8)) 0); lia).
    rewrite Hd, Hm. replace (k mod 8)%nat with 7%nat by lia.
    rewrite !Nat.odd_add. cbn [Nat.odd]. rewrite Nat.odd_succ, <- Nat.negb_odd.
    destruct (Nat.odd (k / 8)); reflexivity.
  - assert (Hd : (S k / 8 = k / 8)%nat)
      by (symmetry; apply (Nat.div_unique (S k) 8 (k / 8) (S (k mod 8))); lia).
    assert (Hm : (S k mod 8 = S (k mod 8))%nat)
      by (symmetry; apply (Nat.mod_unique (S k) 8 (k / 8) (S (k mod 8))); lia).
    rewrite Hd, Hm, Nat.add_succ_r, Nat.odd_succ, <- Nat.negb_odd. reflexivity.
Qed.

Section DarkSquareFlag.

Variable cvtColor_BGR2GRAY : Mat Vec3b -> outcome (Mat Z).
Variable Canny : Mat Z -> Z -> Z -> outcome (Mat Z).
Variable putText : Mat Vec3b -> string -> Point2i -> Mat Vec3b.
Variable classifier : Mat Vec3b -> outcome (list Q).
Variable lightLabels darkLabels : list string.
Variable lightData darkData : list (list Q).
Variable temp : Mat Vec3b.
Variable showLabels : bool.

(** An iteration of [getPieceLabels] that ends normally passed the current
    flag to [isEmptySpace], counted the square, and flipped the flag unless
    the square was the last of its row. *)
Lemma pieceLabelsStep_flag (currentRect : Rect) (s s' : labelState) (tr tr' : list event) :
  pieceLabelsStep cvtColor_BGR2GRAY Canny putText lightLabels darkLabels lightData darkData
                  temp showLabels currentRect s tr = (tr', Ok s') ->
  flagsPassed tr' = flagsPassed tr ++ [isDarkSquare s]
  /\ current s' = current s + 1
  /\ isDarkSquare s' = if negb (current s mod 8 =? 7) then negb (isDarkSquare s)
                       else isDarkSquare s.
Proof.
  unfold pieceLabelsStep, call_isEmptySpace, bindM, emit, lift, ret.
  assert (Hfl : flagsPassed (tr ++ [Called_isEmptySpace currentRect (isDarkSquare s)])
                = flagsPassed tr ++ [isDarkSquare s])
    by (now rewrite flagsPassed_app).
  destruct (isEmptySpace cvtColor_BGR2GRAY Canny temp currentRect (isDarkSquare s))
    as [[|]|f]; [| |discriminate].
  - intros [= <- <-]. cbn [current isDarkSquare]. now repeat split.
  - set (tr0 := tr ++ [Called_isEmptySpace currentRect (isDarkSquare s)]) in *.
    set (labeler := if isDarkSquare s
                    then computeHistogramDiffs (dst s) currentRect darkLabels darkData 16
                    else computeHistogramDiffs (dst s) currentRect lightLabels lightData 16).
    assert (Hq : quiet labeler)
      by (unfold labeler; destruct (isDarkSquare s); apply quiet_computeHistogramDiffs).
    specialize (Hq tr0).
    destruct (labeler tr0) as [tr1 [label|f]]; [|discriminate].
    intros [= <- <-]. cbn [current isDarkSquare fst] in *.
    rewrite Hq, Hfl. now repeat split.
Qed.

(** An iteration of [getPieceLabelsNN] that ends normally passed the current
    flag to [isEmptySpace] and flipped it. *)
Lemma pieceLabelsNNStep_flag (currentRect : Rect) (s s' : labelState)
    (tr tr' : list event) :
  pieceLabelsNNStep cvtColor_BGR2GRAY Canny putText classifier
                    temp showLabels currentRect s tr = (tr', Ok s') ->
  flagsPassed tr' = flagsPassed tr ++ [isDarkSquare s]
  /\ isDarkSquare s' = negb (isDarkSquare s).
Proof.
  unfold pieceLabelsNNStep, call_isEmptySpace, bindM, emit, lift, ret.
  assert (Hfl : flagsPassed (tr ++ [Called_isEmptySpace currentRect (isDarkSquare s)])
                = flagsPassed tr ++ [isDarkSquare s])
    by (now rewrite flagsPassed_app).
  destruct (isEmptySpace cvtColor_BGR2GRAY Canny temp currentRect (isDarkSquare s))
    as [[|]|f]; [| |discriminate].
  - intros [= <- <-]. cbn [isDarkSquare]. now split.
  - set (tr0 := tr ++ [Called_isEmptySpace currentRect (isDarkSquare s)]) in *.
    pose proof (quiet_getNNPieceLabel classifier (dst s) currentRect tr0) as Hq.
    destruct (getNNPieceLabel classifier (dst s) currentRect tr0) as [tr1 [label|f]];
      [|discriminate].
    intros [= <- <-]. cbn [isDarkSquare fst] in *.
    rewrite Hq, Hfl. now split.
Qed.

(** The loop of [getPieceLabels], entered at square [k] with the flag of
    the checkerboard, passes the flags of the checkerboard. *)
Lemma pieceLabels_loop_flags (rectangles : list Rect) :
  forall (k : nat) (s s' : labelState) (tr tr' : list event),
    current s = Z.of_nat k ->
    isDarkSquare s = checkerboard k ->
    for_each rectangles
      (pieceLabelsStep cvtColor_BGR2GRAY Canny putText lightLabels darkLabels
                       lightData darkData temp showLabels) s tr = (tr', Ok s') ->
    flagsPassed tr' = flagsPassed tr ++ map checkerboard (seq k (length rectangles)).
Proof.
  induction rectangles as [|r rest IH]; intros k s s' tr tr' Hcur Hflag.
  - cbn. intros [= <- _]. now rewrite app_nil_r.
  - cbn [for_each]. unfold bindM at 1.
    destruct (pieceLabelsStep _ _ _ _ _ _ _ _ _ r s tr) as [tr1 [s1|f]] eqn:E;
      [|discriminate].
    apply pieceLabelsStep_flag in E as (Htr & Hcur1 & Hflag1).
    intros Hrest.
    apply (IH (S k)) in Hrest.
    + rewrite Hrest, Htr, Hflag, <- app_assoc. reflexivity.
    + lia.
    + rewrite Hflag1, Hcur, Hflag. symmetry. apply checkerboard_succ.
Qed.

(** The loop of [getPieceLabelsNN], entered at square [k] with the flag
    [Nat.odd k], passes [Nat.odd] of the index of each square. *)
Lemma pieceLabelsNN_loop_flags (rectangles : list Rect) :
  forall (k : nat) (s s' : labelState) (tr tr' : list event),
    isDarkSquare s = Nat.odd k ->
    for_each rectangles
      (pieceLabelsNNStep cvtColor_BGR2GRAY Canny putText classifier temp showLabels)
      s tr = (tr', Ok s') ->
    flagsPassed tr' = flagsPassed tr ++ map Nat.odd (seq k (length rectangles)).
Proof.
  induction rectangles as [|r rest IH]; intros k s s' tr tr' Hflag.
  - cbn. intros [= <- _]. now rewrite app_nil_r.
  - cbn [for_each]. unfold bindM at 1.
    destruct (pieceLabelsNNStep _ _ _ _ _ _ r s tr) as [tr1 [s1|f]] eqn:E;
      [|discriminate].
    apply pieceLabelsNNStep_flag in E as (Htr & Hflag1).
    intros Hrest.
    apply (IH (S k)) in Hrest.
    + rewrite Hrest, Htr, Hflag, <- app_assoc. reflexivity.
    + rewrite Hflag1, Hflag, Nat.odd_succ, Nat.negb_odd. reflexivity.
Qed.

End DarkSquareFlag.

(** C6 (what the code does). On 64 rectangles, when both functions end
    normally, [getPieceLabels] passes [isEmptySpace] the flags of the
    checkerboard, while [getPieceLabelsNN], which flips the flag after every
    square and never starts a row over, passes the parity of the index: at
    index 8, the first square of the second row, the one passes [true] and
    the other [false]. *)
Theorem isDarkSquare_flags_differ
    (cvtColor_BGR2GRAY : Mat Vec3b -> outcome (Mat Z))
    (Canny : Mat Z -> Z -> Z -> outcome (Mat Z))
    (putText : Mat Vec3b -> string -> Point2i -> Mat Vec3b)
    (classifier : Mat Vec3b -> outcome (list Q))
    (lightLabels darkLabels : list string) (lightData darkData : list (list Q))
    (dst : Mat Vec3b) (rectangles : list Rect) (showLabels : bool)
    (tr1 tr2 : list event) (r1 r2 : Mat Vec3b * list string) :
  length rectangles = 64%nat ->
  getPieceLabels cvtColor_BGR2GRAY Canny putText lightLabels darkLabels lightData darkData
                 dst rectangles [] showLabels [] = (tr1, Ok r1) ->
  getPieceLabelsNN cvtColor_BGR2GRAY Canny putText classifier
                   dst rectangles [] showLabels [] = (tr2, Ok r2) ->
  flagsPassed tr1 = map checkerboard (seq 0 64)
  /\ flagsPassed tr2 = map Nat.odd (seq 0 64)
  /\ nth_error (flagsPassed tr1) 8 = Some true
  /\ nth_error (flagsPassed tr2) 8 = Some false.
Proof.
  intros Hlen H1 H2.
  assert (F1 : flagsPassed tr1 = map checkerboard (seq 0 64)).
  { unfold getPieceLabels, bindM in H1.
    destruct (for_each rectangles _ _ []) as [tr [s|f]] eqn:E; [|discriminate].
    injection H1 as <- _.
    apply pieceLabels_loop_flags with (k := 0%nat) in E; [|reflexivity|reflexivity].
    now rewrite Hlen in E. }
  assert (F2 : flagsPassed tr2 = map Nat.odd (seq 0 64)).
  { unfold getPieceLabelsNN, bindM in H2.
    destruct (for_each rectangles _ _ []) as [tr [s|f]] eqn:E; [|discriminate].
    injection H2 as <- _.
    apply pieceLabelsNN_loop_flags with (k := 0%nat) in E; [|reflexivity].
    now rewrite Hlen in E. }
  rewrite F1, F2. repeat split.
Qed.

Lemma isDarkSquare_flags_differ_witness :
  exists tr1 tr2 r1 r2,
    getPieceLabels blackGray blackEdges noText [] [] [] []
                   onePixel pixelRects [] false [] = (tr1, Ok r1)
    /\ getPieceLabelsNN blackGray blackEdges noText thirteenClasses
                        onePixel pixelRects [] false [] = (tr2, Ok r2)
    /\ flagsPassed tr1 = map checkerboard (seq 0 64)
    /\ flagsPassed tr2 = map Nat.odd (seq 0 64)
    /\ nth_error (flagsPassed tr1) 8 = Some true
    /\ nth_error (flagsPassed tr2) 8 = Some false.
Proof.
  do 4 eexists.
  split; [vm_compute; reflexivity|].
  split; [vm_compute; reflexivity|].
  eapply (isDarkSquare_flags_differ blackGray blackEdges noText thirteenClasses
            [] [] [] [] onePixel pixelRects false).
  - reflexivity.
  - vm_compute. reflexivity.
  - vm_compute. reflexivity.
Defined.

(* ------------------------------------------------------------------ *)
(** ** Further properties *)

(** *** Histogram dissimilarity on vectors of equal length *)

Lemma computeHistogramIntersectionDifference_equal_sizes (h1 h2 : list Q)
    (tr : list event) :
  length h1 = length h2 ->
  exists v,
    computeHistogramIntersectionDifference h1 h2 tr = (tr, Ok v)
    /\ (v == 1 - intersectionQ h1 h2)%Q.
Proof.
  intros Hlen.
  unfold computeHistogramIntersectionDifference, bindM, lift, ret.
  rewrite Hlen, Nat.eqb_refl. cbn [negb]. rewrite <- Hlen.
  destruct (intersection_loop h1 h2 [] [] 0%Q ltac:(lia) eq_refl) as (v & Ev & Hv).
  cbn [length app Z.of_nat] in Ev. rewrite Ev.
  eexists. split; [reflexivity|]. rewrite Hv. ring.
Qed.


Lemma intersectionQ_nonneg (h1 : list Q) :
  forall h2, Forall (fun v => (0 <= v)%Q) h1 -> Forall (fun v => (0 <= v)%Q) h2 ->
             (0 <= intersectionQ h1 h2)%Q.
Proof.
  induction h1 as [|a h1 IH]; intros [|b h2] H1 H2; cbn [intersectionQ]; try lra.
  inversion H1; inversion H2; subst.
  assert (0 <= Qmin a b)%Q by (apply Q.min_glb; assumption).
  specialize (IH h2 ltac:(assumption) ltac:(assumption)). lra.
Qed.



(** *** Intersections *)

(** The difference of two pixel coordinates is computed exactly. *)
Lemma fsub_pixel (a b : Z) :
  Z.abs a < 2 ^ 23 -> Z.abs b < 2 ^ 23 ->
  (fsub (fl32 (inject_Z a)) (fl32 (inject_Z b)) == inject_Z (a - b))%Q.
Proof.
  intros Ha Hb. unfold fsub.
  rewrite <- (fl32_inject_Z (a - b)) by lia.
  apply fl32_comp.
  rewrite !fl32_inject_Z by lia.
  unfold Zminus. rewrite inject_Z_plus, inject_Z_opp. reflexivity.
Qed.

Lemma fl32_0 : (fl32 0 == 0)%Q.
Proof. apply roundBinary_0. Qed.

(** The cross product that [checkIntersection] computes is zero when the
    cross product of the directions of the two segments is. *)
Lemma cross_parallel (line1 line2 : Vec4i) :
  pixelSegment line1 -> pixelSegment line2 ->
  (v2 line1 - v0 line1) * (v3 line2 - v1 line2)
  - (v3 line1 - v1 line1) * (v2 line2 - v0 line2) = 0 ->
  (fsub (fmul (fsub (fl32 (inject_Z (v2 line1))) (fl32 (inject_Z (v0 line1))))
              (fsub (fl32 (inject_Z (v3 line2))) (fl32 (inject_Z (v1 line2)))))
        (fmul (fsub (fl32 (inject_Z (v3 line1))) (fl32 (inject_Z (v1 line1))))
              (fsub (fl32 (inject_Z (v2 line2))) (fl32 (inject_Z (v0 line2)))))
   == 0)%Q.
Proof.
  intros (H10 & H11 & H12 & H13) (H20 & H21 & H22 & H23) Hcross.
  rewrite <- fl32_0. unfold fsub at 1. apply fl32_comp.
  assert (E : (fmul (fsub (fl32 (inject_Z (v2 line1))) (fl32 (inject_Z (v0 line1))))
                    (fsub (fl32 (inject_Z (v3 line2))) (fl32 (inject_Z (v1 line2))))
               == fmul (fsub (fl32 (inject_Z (v3 line1))) (fl32 (inject_Z (v1 line1))))
                       (fsub (fl32 (inject_Z (v2 line2))) (fl32 (inject_Z (v0 line2)))))%Q).
  { unfold fmul. apply fl32_comp.
    rewrite !fsub_pixel by assumption.
    rewrite <- !inject_Z_mult. apply inject_Z_injective. lia. }
  rewrite E. ring.
Qed.

(** X2. For segments with pixel coordinates (below [2^23] in absolute
    value) in an image with sides below [2^24]: when [checkIntersection]
    accepts, the two segments are not parallel (the cross product of their
    directions is not zero) and the point [r] that it stores lies inside the
    image; for parallel segments it rejects and leaves [r] as it is. *)
Theorem checkIntersection_accepts (line1 line2 : Vec4i) (imageSize : Size)
    (r0 r : Point2f) :
  pixelSegment line1 -> pixelSegment line2 ->
  0 <= size_width imageSize < 2 ^ 24 -> 0 <= size_height imageSize < 2 ^ 24 ->
  let cross := (v2 line1 - v0 line1) * (v3 line2 - v1 line2)
               - (v3 line1 - v1 line1) * (v2 line2 - v0 line2) in
  (checkIntersection line1 line2 imageSize r0 = (true, r) ->
   cross <> 0
   /\ (0 <= px r)%Q /\ (px r < inject_Z (size_width imageSize))%Q
   /\ (0 <= py r)%Q /\ (py r < inject_Z (size_height imageSize))%Q)
  /\ (cross = 0 -> checkIntersection line1 line2 imageSize r0 = (false, r0)).
Proof.
  intros Hl1 Hl2 Hw Hh. cbv zeta.
  assert (Hreject : (v2 line1 - v0 line1) * (v3 line2 - v1 line2)
                    - (v3 line1 - v1 line1) * (v2 line2 - v0 line2) = 0 ->
                    checkIntersection line1 line2 imageSize r0 = (false, r0)).
  { intros Hcross. pose proof (cross_parallel line1 line2 Hl1 Hl2 Hcross) as E.
    unfold checkIntersection. cbv zeta. cbn [px py].
    match goal with
    | |- (if Qlt_bool (Qabs ?c) ?eps then _ else _) = _ =>
        destruct (Qlt_bool_spec (Qabs c) eps) as [_|Hbig]; [reflexivity|]
    end.
    exfalso. rewrite E in Hbig.
    assert (Heps : (0 < fl64 (1 # 100000000))%Q) by (vm_compute; reflexivity).
    change (Qabs 0) with 0%Q in Hbig. lra. }
  split; [|exact Hreject].
  intros Haccept. split.
  - intros Hcross. rewrite (Hreject Hcross) in Haccept. discriminate Haccept.
  - revert Haccept. unfold checkIntersection. cbv zeta. cbn [px py].
    match goal with
    | |- (if ?c then _ else _) = _ -> _ => destruct c; [discriminate|]
    end.
    intros [= Hin <-]. cbn [px py].
    rewrite !andb_true_iff in Hin. destruct Hin as [[[Hx0 Hy0] Hx1] Hy1].
    apply Qle_bool_iff in Hx0, Hy0. apply Qlt_bool_iff in Hx1, Hy1.
    pose proof (fl32_inject_Z (size_width imageSize) ltac:(lia)) as Ew.
    pose proof (fl32_inject_Z (size_height imageSize) ltac:(lia)) as Eh.
    split; [exact Hx0|].
    split; [eapply Qlt_le_trans; [exact Hx1 | rewrite Ew; apply Qle_refl]|].
    split; [exact Hy0|].
    eapply Qlt_le_trans; [exact Hy1 | rewrite Eh; apply Qle_refl].
Qed.

Lemma checkIntersection_accepts_witness :
  (exists r,
     checkIntersection (mkVec4i 0 100 45 100) (mkVec4i 25 0 25 1) (mkSize 428 524)
       (mkPoint2f 0 0) = (true, r)
     /\ (0 <= px r)%Q /\ (px r < 428)%Q /\ (0 <= py r)%Q /\ (py r < 524)%Q)
  /\ checkIntersection (mkVec4i 0 100 45 100) (mkVec4i 0 200 45 200) (mkSize 428 524)
       (mkPoint2f 0 0) = (false, mkPoint2f 0 0).
Proof.
  assert (S1 : pixelSegment (mkVec4i 0 100 45 100)) by (repeat split; reflexivity).
  assert (S2 : pixelSegment (mkVec4i 25 0 25 1)) by (repeat split; reflexivity).
  assert (S3 : pixelSegment (mkVec4i 0 200 45 200)) by (repeat split; reflexivity).
  split.
  - eexists. split; [vm_compute; reflexivity|].
    refine (proj2 (proj1 (checkIntersection_accepts _ _ (mkSize 428 524) (mkPoint2f 0 0) _
                            S1 S2 _ _) _)).
    + cbn. lia.
    + cbn. lia.
    + vm_compute. reflexivity.
  - apply (proj2 (checkIntersection_accepts _ _ (mkSize 428 524) (mkPoint2f 0 0)
                    (mkPoint2f 0 0) S1 S3 ltac:(cbn; lia) ltac:(cbn; lia))).
    reflexivity.
Defined.

(** The stored point is a rounded one: the horizontal segment at [y = 100]
    and the vertical segment at [x = 25] give the point
    [(25 + 2^-19, 100)]. *)
Example checkIntersection_rounded :
  checkIntersection (mkVec4i 0 100 45 100) (mkVec4i 25 0 25 1) (mkSize 428 524)
    (mkPoint2f 0 0)
  = (true, mkPoint2f (13107201 # 524288) 100).
Proof. vm_compute. reflexivity. Qed.

Lemma intersectionStep_insideMargin (dst_rows dst_cols : Z) (imageSize : Size)
    (line1 line2 : Vec4i) (acc : list Point2f) :
  Forall (insideMargin dst_rows dst_cols) acc ->
  Forall (insideMargin dst_rows dst_cols)
         (intersectionStep dst_rows dst_cols imageSize line1 line2 acc).
Proof.
  intros H. unfold intersectionStep.
  destruct (checkIntersection line1 line2 imageSize (mkPoint2f 0 0)) as [has c].
  destruct has; cbn [andb]; [|exact H].
  destruct (Qlt_bool_spec 25 (px c)); cbn [andb]; [|exact H].
  destruct (Qlt_bool_spec (px c) (inject_Z (dst_cols - 25))); cbn [andb]; [|exact H].
  destruct (Qlt_bool_spec 25 (py c)); cbn [andb]; [|exact H].
  destruct (Qlt_bool_spec (py c) (inject_Z (dst_rows - 25))); [|exact H].
  destruct (arePointsNearby c acc 30); cbn [negb]; [exact H|].
  apply Forall_app. split; [exact H|].
  constructor; [|constructor]. now repeat split.
Qed.

Lemma intersectionLoop_insideMargin (dst_rows dst_cols : Z) (imageSize : Size)
    (lines : list Vec4i) :
  forall acc, Forall (insideMargin dst_rows dst_cols) acc ->
              Forall (insideMargin dst_rows dst_cols)
                     (intersectionLoop dst_rows dst_cols imageSize lines acc).
Proof.
  induction lines as [|line1 rest IH]; intros acc H; cbn [intersectionLoop]; [exact H|].
  apply IH. apply fold_left_invariant; [|exact H].
  intros acc0 line2. apply intersectionStep_insideMargin.
Qed.

(** X3. Every point that [getIntersections] returns from an empty
    accumulator lies more than 25 pixels inside the border of [dst]. *)
Theorem getIntersections_margin
    (std_sort : (Point2f -> Point2f -> bool) -> list Point2f -> list Point2f)
    (std_sort_permutes : forall cmp l, Permutation (std_sort cmp l) l)
    (dst_rows dst_cols : Z) (lines : list Vec4i) (imageSize : Size) :
  Forall (insideMargin dst_rows dst_cols)
         (getIntersections std_sort dst_rows dst_cols lines imageSize []).
Proof.
  unfold getIntersections.
  eapply Permutation_Forall; [symmetry; apply std_sort_permutes|].
  apply intersectionLoop_insideMargin. constructor.
Qed.

Lemma getIntersections_margin_witness :
  Forall (insideMargin 524 428)
         (getIntersections insertionSort 524 428 squareLines (mkSize 428 524) []).
Proof.
  exact (getIntersections_margin insertionSort (@insertionSort_perm Point2f)
           524 428 squareLines (mkSize 428 524)).
Defined.

(** *** The board field against the specification's encoding *)

Lemma string_app_assoc (a b c : string) : ((a ++ b) ++ c = a ++ (b ++ c))%string.
Proof. induction a as [|ch a IH]; simpl; [reflexivity | now rewrite IH]. Qed.

Lemma string_app_nil_r (a : string) : (a ++ "" = a)%string.
Proof. induction a as [|ch a IH]; simpl; [reflexivity | now rewrite IH]. Qed.

Lemma flushEmpty_runText (n : Z) (fen : string) :
  0 <= n -> flushEmpty (n, fen) = (0, (fen ++ runText n)%string).
Proof.
  intros Hn. unfold flushEmpty, runText.
  destruct (Z.ltb_spec 0 n); [reflexivity|].
  replace n with 0 by lia. now rewrite string_app_nil_r.
Qed.

(** The loop over the squares of a row writes what the specification
    writes for the row, except for the run that is still open. *)
Lemma squareLoop_spec (row : list string) :
  forall (n : Z) (fen : string),
    0 <= n ->
    match specEncodeSquares row n with
    | Ok s =>
        exists n' fen',
          squareLoop row (n, fen) = Ok (n', fen')
          /\ (fen' ++ runText n' = fen ++ s)%string /\ 0 <= n'
    | Fault f => squareLoop row (n, fen) = Fault f
    end.
Proof.
  induction row as [|label rest IH]; intros n fen Hn; cbn [specEncodeSquares squareLoop].
  - exists n, fen. now repeat split.
  - unfold squareStep. destruct (String.eqb label "ee").
    + cbn [bind]. apply IH. lia.
    + rewrite flushEmpty_runText by exact Hn.
      destruct (map_at pieceToFen label) as [c|f]; cbn [bind]; [|reflexivity].
      specialize (IH 0 ((fen ++ runText n) ++ c)%string (Z.le_refl 0)).
      destruct (specEncodeSquares rest 0) as [s|f]; cbn [bind]; [|exact IH].
      destruct IH as (n' & fen' & E & Hfen & Hn').
      exists n', fen'. repeat split; [exact E | | exact Hn'].
      rewrite Hfen, !string_app_assoc. reflexivity.
Qed.

Lemma fenStep_plain (i : Z) (label : string) (st : Z * string) :
  i mod 8 <> 0 \/ i = 0 -> fenStep i label st = squareStep label st.
Proof.
  intros H. unfold fenStep, squareStep.
  destruct (Z.eqb_spec (i mod 8) 0) as [E|E]; destruct (Z.eqb_spec i 0) as [E0|E0];
    cbn [andb negb]; try reflexivity.
  lia.
Qed.

Lemma fenStep_separator (i n : Z) (label fen : string) :
  i mod 8 = 0 -> i <> 0 -> 0 <= n ->
  fenStep i label (n, fen)
  = squareStep label (0, ((fen ++ runText n) ++ "/")%string).
Proof.
  intros Hmod Hi Hn. unfold fenStep, squareStep.
  rewrite Hmod. destruct (Z.eqb_spec i 0) as [E0|_]; [contradiction|].
  cbn [Z.eqb andb negb]. rewrite flushEmpty_runText by exact Hn. reflexivity.
Qed.

Lemma fenLoop_plain (labels : list string) :
  forall (i : Z) (st : Z * string),
    (forall k, 0 <= k < Z.of_nat (length labels) -> (i + k) mod 8 <> 0) ->
    fenLoop labels i st = squareLoop labels st.
Proof.
  induction labels as [|label rest IH]; intros i st H; [reflexivity|].
  cbn [fenLoop squareLoop]. rewrite fenStep_plain.
  - destruct (squareStep label st) as [st'|f]; cbn [bind]; [|reflexivity].
    apply IH. intros k Hk.
    replace (i + 1 + k) with (i + (k + 1)) by lia.
    apply H. cbn [length]. lia.
  - left. specialize (H 0 ltac:(cbn [length]; lia)). now rewrite Z.add_0_r in H.
Qed.

(** A row of 8 squares at the indices [8 * m .. 8 * m + 7]. *)
Lemma fenLoop_row (row : list string) (m n : Z) (fen : string) :
  length row = 8%nat -> 0 <= m -> 0 <= n ->
  fenLoop row (8 * m) (n, fen)
  = squareLoop row (if m =? 0 then (n, fen)
                    else (0, ((fen ++ runText n) ++ "/")%string)).
Proof.
  intros Hlen Hm Hn.
  destruct row as [|label rest]; [discriminate|].
  cbn [fenLoop squareLoop].
  assert (Hrest : forall st, fenLoop rest (8 * m + 1) st = squareLoop rest st).
  { intros st. apply fenLoop_plain. intros k Hk.
    injection Hlen as Hlen. rewrite Hlen in Hk.
    replace (8 * m + 1 + k) with ((k + 1) + m * 8) by lia.
    rewrite Z.mod_add by lia. rewrite Z.mod_small; lia. }
  destruct (Z.eqb_spec m 0) as [->|Hm0].
  - rewrite fenStep_plain by (now right).
    destruct (squareStep label (n, fen)); cbn [bind]; [apply Hrest | reflexivity].
  - rewrite fenStep_separator; [| | lia | exact Hn].
    + destruct (squareStep label _); cbn [bind]; [apply Hrest | reflexivity].
    + rewrite Z.mul_comm. apply Z.mod_mul. lia.
Qed.

Lemma fenLoop_app (l1 l2 : list string) :
  forall (i : Z) (st : Z * string),
    fenLoop (l1 ++ l2) i st
    = (st' <- fenLoop l1 i st ;; fenLoop l2 (i + Z.of_nat (length l1)) st').
Proof.
  induction l1 as [|a l1 IH]; intros i st.
  - cbn. now rewrite Z.add_0_r.
  - cbn [app fenLoop length]. destruct (fenStep i a st) as [st'|f]; cbn [bind].
    + rewrite IH.
      now replace (i + 1 + Z.of_nat (length l1))
        with (i + Z.of_nat (Datatypes.S (length l1))) by lia.
    + reflexivity.
Qed.

(** The loop over whole rows, entered at row [m] with a run of [n] empty
    squares open (of the previous row, when [m] is not 0). *)
Lemma fenLoop_rows (rows : list (list string)) :
  forall (m n : Z) (fen : string),
    rows <> [] -> Forall (fun row => length row = 8%nat) rows -> 0 <= m -> 0 <= n ->
    (m = 0 -> n = 0) ->
    match specEncodeRows rows with
    | Ok t =>
        exists n' fen',
          fenLoop (concat rows) (8 * m) (n, fen) = Ok (n', fen')
          /\ (fen' ++ runText n'
              = fen ++ (if (m =? 0)%Z then t else runText n ++ "/" ++ t))%string
          /\ 0 <= n'
    | Fault f => fenLoop (concat rows) (8 * m) (n, fen) = Fault f
    end.
Proof.
  induction rows as [|row rest IH]; intros m n fen Hne Hall Hm Hn Hm0; [contradiction|].
  inversion Hall as [|? ? Hrow Hrest]; subst.
  cbn [concat specEncodeRows]. rewrite fenLoop_app, fenLoop_row by assumption.
  rewrite Hrow.
  set (sep := (if (m =? 0)%Z then "" else runText n ++ "/")%string).
  assert (Hst : (if m =? 0 then (n, fen) else (0, ((fen ++ runText n) ++ "/")%string))
                = (0, (fen ++ sep)%string)).
  { unfold sep. destruct (Z.eqb_spec m 0) as [E|E].
    - now rewrite (Hm0 E), string_app_nil_r.
    - now rewrite string_app_assoc. }
  rewrite Hst.
  pose proof (squareLoop_spec row 0 (fen ++ sep)%string (Z.le_refl 0)) as Hsq.
  destruct (specEncodeSquares row 0) as [s|f]; cbn [bind];
    [|rewrite Hsq; reflexivity].
  destruct Hsq as (n1 & fen1 & -> & Hfen1 & Hn1). cbn [bind].
  assert (Hgoal : forall t, (fen ++ sep ++ t
                             = fen ++ (if (m =? 0)%Z then t else runText n ++ "/" ++ t))%string).
  { intros t. unfold sep. destruct (m =? 0); [reflexivity|].
    now rewrite string_app_assoc. }
  destruct rest as [|row2 rest].
  - cbn [concat fenLoop]. exists n1, fen1.
    repeat split; [|exact Hn1].
    rewrite Hfen1, string_app_assoc. apply Hgoal.
  - specialize (IH (m + 1) n1 fen1 ltac:(discriminate) Hrest ltac:(lia) Hn1 ltac:(lia)).
    replace (8 * m + Z.of_nat 8) with (8 * (m + 1)) by lia.
    destruct (specEncodeRows (row2 :: rest)) as [t|f]; cbn [bind]; [|exact IH].
    destruct IH as (n' & fen' & E & Hfen' & Hn').
    exists n', fen'. repeat split; [exact E | | exact Hn'].
    rewrite Hfen'. destruct (Z.eqb_spec (m + 1) 0) as [E0|_]; [lia|].
    rewrite <- (Hgoal (s ++ "/" ++ t)%string).
    rewrite <- !string_app_assoc. rewrite Hfen1.
    rewrite !string_app_assoc. reflexivity.
Qed.

Lemma rowsOf8_64 (labels : list string) :
  length labels = 64%nat ->
  concat (rowsOf8 8 labels) = labels
  /\ Forall (fun row => length row = 8%nat) (rowsOf8 8 labels).
Proof.
  intros H.
  do 64 (destruct labels as [|? labels]; [discriminate H|]).
  destruct labels; [|discriminate H].
  split; [reflexivity | repeat constructor].
Qed.

Lemma readTurn_given (turn : string) (rest out : list string) :
  turn = "w" \/ turn = "b" ->
  readTurn (turn :: rest) out = (mkConsole rest (out ++ [turnPrompt]), Ok turn).
Proof. intros [-> | ->]; reflexivity. Qed.

Lemma trailingEmpty_all (labels : list string) :
  forallb (fun label => String.eqb label "ee") labels = true ->
  trailingEmpty labels = Z.of_nat (length labels).
Proof.
  destruct labels as [|label rest]; [reflexivity|].
  intros H. cbn [trailingEmpty]. now rewrite H.
Qed.

Lemma trailingEmpty_nonneg (labels : list string) : 0 <= trailingEmpty labels.
Proof.
  induction labels as [|label rest IH]; cbn [trailingEmpty]; [lia|].
  destruct (forallb _ (label :: rest)); [lia | exact IH].
Qed.

(** The counter of the loop after the squares of a row: the run that was
    open before the row goes on when all squares of the row are empty;
    otherwise the counter holds the empty squares at the end of the row. *)
Lemma squareLoop_count (row : list string) :
  forall (n n' : Z) (fen fen' : string),
    0 <= n ->
    squareLoop row (n, fen) = Ok (n', fen') ->
    n' = if forallb (fun label => String.eqb label "ee") row
         then n + Z.of_nat (length row)
         else trailingEmpty row.
Proof.
  induction row as [|label rest IH]; intros n n' fen fen' Hn.
  - cbn. intros [= <- _]. lia.
  - cbn [squareLoop forallb trailingEmpty]. unfold squareStep.
    destruct (String.eqb label "ee") eqn:El; cbn [bind andb].
    + intros E. apply IH in E; [|lia]. rewrite E.
      destruct (forallb _ rest); [cbn [length]; lia | reflexivity].
    + rewrite flushEmpty_runText by exact Hn.
      destruct (map_at pieceToFen label) as [c|f]; cbn [bind]; [|discriminate].
      intros E. apply IH in E; [|lia]. rewrite E.
      destruct (forallb _ rest) eqn:Erest; [|reflexivity].
      rewrite (trailingEmpty_all rest Erest). lia.
Qed.

(** The counter after the loop over whole rows: the empty squares at the
    end of the last row. *)
Lemma fenLoop_rows_count (rows : list (list string)) :
  forall (m n n' : Z) (fen fen' : string),
    rows <> [] -> Forall (fun row => length row = 8%nat) rows -> 0 <= m -> 0 <= n ->
    (m = 0 -> n = 0) ->
    fenLoop (concat rows) (8 * m) (n, fen) = Ok (n', fen') ->
    n' = trailingEmpty (last rows []).
Proof.
  induction rows as [|row rest IH]; intros m n n' fen fen' Hne Hall Hm Hn Hm0;
    [contradiction|].
  inversion Hall as [|? ? Hrow Hrest]; subst.
  cbn [concat]. rewrite fenLoop_app, fenLoop_row by assumption. rewrite Hrow.
  set (st := if m =? 0 then (n, fen) else (0, ((fen ++ runText n) ++ "/")%string)).
  assert (Hst : fst st = 0).
  { unfold st. destruct (Z.eqb_spec m 0) as [E|E]; [exact (Hm0 E) | reflexivity]. }
  destruct st as [n0 fen0]. cbn [fst] in Hst. subst n0.
  destruct (squareLoop row (0, fen0)) as [[n1 fen1]|f] eqn:Erow; cbn [bind];
    [|discriminate].
  assert (Hn1 : n1 = trailingEmpty row).
  { rewrite (squareLoop_count row 0 n1 fen0 fen1 (Z.le_refl 0) Erow).
    destruct (forallb _ row) eqn:Eall; [|reflexivity].
    rewrite (trailingEmpty_all row Eall). lia. }
  destruct rest as [|row2 rest].
  - cbn [concat fenLoop last]. intros [= <- _]. exact Hn1.
  - replace (8 * m + Z.of_nat 8) with (8 * (m + 1)) by lia.
    intros E.
    apply (IH (m + 1) n1 n' fen1 fen') in E;
      [| discriminate | exact Hrest | lia | | lia].
    + exact E.
    + subst n1. apply trailingEmpty_nonneg.
Qed.

(** X4. For 64 labels and a console whose next token is the turn, the
    string that [getFenFromLabels] returns is [fen ++ " " ++ turn ++
    " - - 0 0"], where [fen] is the board as the specification encodes it
    (rows of 8 separated by ['/'], runs of empty squares written as their
    count) without the count of the empty squares at the end of the last
    row: [fen] followed by that count is the specification's board.  A
    label that is neither ["ee"] nor a key of [pieceToFen] makes both fail
    with [std::out_of_range]. *)
Theorem getFenFromLabels_board_field (squareLabels : list string) (io : console)
    (turn : string) (rest : list string) :
  length squareLabels = 64%nat ->
  stdin io = turn :: rest ->
  turn = "w" \/ turn = "b" ->
  match specEncodeBoard squareLabels with
  | Ok board =>
      exists fen,
        snd (getFenFromLabels squareLabels io)
        = Ok (((fen ++ " ") ++ turn) ++ " - - 0 0")%string
        /\ board = (fen ++ runText (trailingEmpty (lastRow squareLabels)))%string
  | Fault f => snd (getFenFromLabels squareLabels io) = Fault f
  end.
Proof.
  intros Hlen Hin Hturn.
  destruct (rowsOf8_64 squareLabels Hlen) as [Hconcat Hrows].
  assert (Hne : rowsOf8 8 squareLabels <> []) by discriminate.
  pose proof (fenLoop_rows (rowsOf8 8 squareLabels) 0 0 "" Hne Hrows
                (Z.le_refl 0) (Z.le_refl 0) (fun _ => eq_refl)) as H.
  pose proof (fenLoop_rows_count (rowsOf8 8 squareLabels) 0 0) as Hcount.
  rewrite Hconcat in H, Hcount. cbn [Z.mul Z.eqb] in H, Hcount.
  unfold specEncodeBoard, getFenFromLabels. rewrite Hlen. cbn [Nat.eqb negb].
  destruct (specEncodeRows (rowsOf8 8 squareLabels)) as [board|f].
  - destruct H as (n & fen & E & Hfen & Hn).
    rewrite (Hcount n "" fen Hne Hrows (Z.le_refl 0) (Z.le_refl 0) (fun _ => eq_refl) E)
      in Hfen.
    rewrite E, Hin. rewrite readTurn_given by exact Hturn. cbn [snd].
    exists fen. split; [reflexivity|]. unfold lastRow. now rewrite Hfen.
  - rewrite H. reflexivity.
Qed.

Lemma getFenFromLabels_board_field_witness :
  exists fen,
    snd (getFenFromLabels (repeat "ee" 60 ++ ["wk"; "ee"; "ee"; "ee"]) (mkConsole ["b"] []))
    = Ok (((fen ++ " ") ++ "b") ++ " - - 0 0")%string
    /\ "8/8/8/8/8/8/8/4K3"
       = (fen ++ runText (trailingEmpty
                            (lastRow (repeat "ee" 60 ++ ["wk"; "ee"; "ee"; "ee"]))))%string.
Proof.
  exact (getFenFromLabels_board_field (repeat "ee" 60 ++ ["wk"; "ee"; "ee"; "ee"])
           (mkConsole ["b"] []) "b" [] eq_refl eq_refl (or_intror eq_refl)).
Defined.

Example getFen_open_run :
  snd (getFenFromLabels (repeat "ee" 60 ++ ["wk"; "ee"; "ee"; "ee"]) (mkConsole ["b"] []))
  = Ok "8/8/8/8/8/8/8/4K b - - 0 0"
  /\ specEncodeBoard (repeat "ee" 60 ++ ["wk"; "ee"; "ee"; "ee"]) = Ok "8/8/8/8/8/8/8/4K3"
  /\ trailingEmpty (lastRow (repeat "ee" 60 ++ ["wk"; "ee"; "ee"; "ee"])) = 3.
Proof. repeat split; vm_compute; reflexivity. Qed.

(* ------------------------------------------------------------------ *)
(** ** getBestMove and the arrow of the best move *)

Lemma map_find_In {V : Type} (m : list (string * V)) (key : string) (v : V) :
  map_find m key = Some v -> In (key, v) m.
Proof.
  induction m as [|[k w] m IH]; simpl; [discriminate|].
  destruct (String.eqb_spec k key) as [->|_].
  - intros [= ->]. now left.
  - intros H. right. now apply IH.
Qed.

Lemma squareNameToIndex_lookup (file rank : nat) :
  (file < 8)%nat -> (rank < 8)%nat ->
  map_find squareNameToIndex (squareName file rank) = Some (squareIndex file rank).
Proof.
  intros Hf Hr.
  do 8 (destruct file as [|file];
        [do 8 (destruct rank as [|rank]; [reflexivity|]); lia|]).
  lia.
Qed.

Ltac pick_below_8 tac :=
  first [ tac 0%nat | tac 1%nat | tac 2%nat | tac 3%nat
        | tac 4%nat | tac 5%nat | tac 6%nat | tac 7%nat ].

Lemma squareNameToIndex_names (name : string) (index : Z) :
  map_find squareNameToIndex name = Some index ->
  exists file rank,
    (file < 8)%nat /\ (rank < 8)%nat
    /\ name = squareName file rank /\ index = squareIndex file rank.
Proof.
  intros H. apply map_find_In in H. unfold squareNameToIndex in H.
  repeat (destruct H as [H|H];
          [injection H as <- <-;
           pick_below_8 ltac:(fun f =>
             exists f;
             pick_below_8 ltac:(fun r =>
               exists r; solve [repeat split; (lia || reflexivity)]))|]).
  destruct H.
Qed.

Lemma substring_0_0 (s : string) : String.substring 0 0 s = "".
Proof. destruct s; reflexivity. Qed.

(** What [getBestMove] does with a string of at least 13 characters that
    starts with ["bestmove"]: the character at position 8 is skipped, the
    next two characters name the first square and the two after them the
    second. *)
Lemma getBestMove_fields (c a1 b1 a2 b2 : ascii) (rest : string) (io : console) :
  snd (getBestMove
         ("bestmove" ++ String c (String a1 (String b1 (String a2 (String b2 rest)))))
         io)
  = match map_find squareNameToIndex (String a1 (String b1 "")),
          map_find squareNameToIndex (String a2 (String b2 "")) with
    | Some firstIndex, Some secondIndex => (firstIndex, secondIndex)
    | _, _ => (0, 0)
    end.
Proof.
  unfold getBestMove.
  assert (Hp : String.prefix "bestmove"
                 ("bestmove"
                    ++ String c (String a1 (String b1 (String a2 (String b2 rest)))))
               = true) by reflexivity.
  rewrite Hp. cbn [andb String.append String.length Nat.leb String.substring].
  rewrite !substring_0_0.
  destruct (map_find squareNameToIndex (String a1 (String b1 "")));
    destruct (map_find squareNameToIndex (String a2 (String b2 ""))); reflexivity.
Qed.

(** X5. [getBestMove] decodes an engine answer: for a string that starts
    with ["bestmove"], then any one character, then the names of two squares
    (files a..h, ranks 1..8), whatever follows, it returns the row-major
    indices of the two squares, [(8 - rank) * 8 + file] with the a-file as
    file 0. *)
Theorem getBestMove_decodes (file1 rank1 file2 rank2 : nat) (c : ascii) (rest : string)
    (io : console) :
  (file1 < 8)%nat -> (rank1 < 8)%nat -> (file2 < 8)%nat -> (rank2 < 8)%nat ->
  snd (getBestMove
         ("bestmove"
            ++ String c (squareName file1 rank1 ++ squareName file2 rank2 ++ rest))
         io)
  = (squareIndex file1 rank1, squareIndex file2 rank2).
Proof.
  intros Hf1 Hr1 Hf2 Hr2.
  etransitivity.
  - exact (getBestMove_fields c (ascii_of_nat (97 + file1)) (ascii_of_nat (49 + rank1))
             (ascii_of_nat (97 + file2)) (ascii_of_nat (49 + rank2)) rest io).
  - change (String (ascii_of_nat (97 + file1)) (String (ascii_of_nat (49 + rank1)) ""))
      with (squareName file1 rank1).
    change (String (ascii_of_nat (97 + file2)) (String (ascii_of_nat (49 + rank2)) ""))
      with (squareName file2 rank2).
    now rewrite !squareNameToIndex_lookup.
Qed.

Lemma getBestMove_decodes_witness :
  snd (getBestMove "bestmove e2e4 ponder e7e5" (mkConsole [] [])) = (52, 36).
Proof.
  exact (getBestMove_decodes 4 1 4 3 " " " ponder e7e5" (mkConsole [] [])
           ltac:(lia) ltac:(lia) ltac:(lia) ltac:(lia)).
Defined.

Lemma getBestMove_in_range (fullString : string) (io : console) :
  0 <= fst (snd (getBestMove fullString io)) < 64
  /\ 0 <= snd (snd (getBestMove fullString io)) < 64.
Proof.
  unfold getBestMove.
  destruct (String.prefix "bestmove" fullString && (13 <=? String.length fullString)%nat);
    [|cbn; lia].
  destruct (map_find squareNameToIndex
              (String.substring 0 2 (String.substring 9 4 fullString)))
    as [i|] eqn:E1; [|cbn; lia].
  destruct (map_find squareNameToIndex
              (String.substring 2 2 (String.substring 9 4 fullString)))
    as [j|] eqn:E2; [|cbn; lia].
  apply squareNameToIndex_names in E1 as (f1 & r1 & Hf1 & Hr1 & N1 & ->).
  apply squareNameToIndex_names in E2 as (f2 & r2 & Hf2 & Hr2 & N2 & ->).
  cbn [snd fst]. unfold squareIndex. lia.
Qed.

Lemma prefix_app (p s : string) :
  String.prefix p s = true -> exists t, s = (p ++ t)%string.
Proof.
  revert s. induction p as [|a p IH]; intros s H.
  - now exists s.
  - destruct s as [|b s]; [discriminate H|].
    cbn [String.prefix] in H. destruct (ascii_dec a b) as [->|_]; [|discriminate H].
    destruct (IH s H) as (t & ->). now exists t.
Qed.

Lemma app_prefix (p t : string) : String.prefix p (p ++ t) = true.
Proof.
  induction p as [|a p IH]; [now destruct t|].
  cbn [String.append String.prefix]. destruct (ascii_dec a a); [exact IH | contradiction].
Qed.

Lemma string_app_inv_head (p s t : string) : (p ++ s = p ++ t)%string -> s = t.
Proof.
  induction p as [|a p IH]; cbn [String.append]; [auto|].
  intros [= H]. now apply IH.
Qed.

Lemma squareNames_inv (c c' a1 b1 a2 b2 : ascii) (t rest : string)
    (file1 rank1 file2 rank2 : nat) :
  String c (String a1 (String b1 (String a2 (String b2 t))))
  = String c' (squareName file1 rank1 ++ squareName file2 rank2 ++ rest)%string ->
  String a1 (String b1 "") = squareName file1 rank1
  /\ String a2 (String b2 "") = squareName file2 rank2.
Proof.
  unfold squareName.
  generalize (ascii_of_nat (97 + file1)), (ascii_of_nat (49 + rank1)),
    (ascii_of_nat (97 + file2)), (ascii_of_nat (49 + rank2)).
  intros x1 y1 x2 y2. cbn [String.append].
  intros [= _ -> -> -> -> _]. split; reflexivity.
Qed.

(** X6. Whatever the string, the two indices that [getBestMove] returns are
    indices of squares, between 0 and 63.  Either the string names a move
    (it starts with ["bestmove"], has one more character and then the names
    of two squares), and the indices are those of the two squares; or it
    names no move, and the indices are [(0, 0)]. *)
Theorem getBestMove_range (fullString : string) (io : console) :
  let move := snd (getBestMove fullString io) in
  (0 <= fst move < 64 /\ 0 <= snd move < 64)
  /\ ((exists file1 rank1 file2 rank2,
         namesMove fullString file1 rank1 file2 rank2
         /\ move = (squareIndex file1 rank1, squareIndex file2 rank2))
      \/ (move = (0, 0)
          /\ forall file1 rank1 file2 rank2,
               ~ namesMove fullString file1 rank1 file2 rank2)).
Proof.
  cbv zeta. split; [apply getBestMove_in_range|].
  destruct (String.prefix "bestmove" fullString
            && (13 <=? String.length fullString)%nat) eqn:Hcond.
  - apply andb_true_iff in Hcond as [Hp Hlen].
    apply prefix_app in Hp as (t & ->). apply Nat.leb_le in Hlen.
    rewrite string_length_app in Hlen. cbn [String.length] in Hlen.
    do 5 (destruct t as [|? t]; [cbn [String.length] in Hlen; lia|]).
    rename a into c, a0 into a1, a1 into b1, a2 into a2, a3 into b2.
    rewrite getBestMove_fields.
    destruct (map_find squareNameToIndex (String a1 (String b1 ""))) as [i|] eqn:E1;
      [destruct (map_find squareNameToIndex (String a2 (String b2 ""))) as [j|] eqn:E2|].
    + left.
      apply squareNameToIndex_names in E1 as (f1 & r1 & Hf1 & Hr1 & N1 & ->).
      apply squareNameToIndex_names in E2 as (f2 & r2 & Hf2 & Hr2 & N2 & ->).
      exists f1, r1, f2, r2. split; [|reflexivity].
      repeat split; try assumption.
      exists c, t. rewrite <- N1, <- N2. reflexivity.
    + right. split; [reflexivity|].
      intros f1 r1 f2 r2 (Hf1 & Hr1 & Hf2 & Hr2 & c' & rest & E).
      apply string_app_inv_head, squareNames_inv in E as [_ N2].
      rewrite N2, squareNameToIndex_lookup in E2 by assumption. discriminate E2.
    + right. split; [reflexivity|].
      intros f1 r1 f2 r2 (Hf1 & Hr1 & Hf2 & Hr2 & c' & rest & E).
      apply string_app_inv_head, squareNames_inv in E as [N1 _].
      rewrite N1, squareNameToIndex_lookup in E1 by assumption. discriminate E1.
  - right. split; [unfold getBestMove; now rewrite Hcond|].
    intros f1 r1 f2 r2 (Hf1 & Hr1 & Hf2 & Hr2 & c & rest & ->).
    rewrite app_prefix in Hcond. rewrite string_length_app in Hcond.
    cbn in Hcond. discriminate Hcond.
Qed.

Lemma getBestMove_range_witness :
  snd (getBestMove "bestmove e2e9 ponder e7e5" (mkConsole [] [])) = (0, 0)
  /\ forall file1 rank1 file2 rank2,
       ~ namesMove "bestmove e2e9 ponder e7e5" file1 rank1 file2 rank2.
Proof.
  destruct (proj2 (getBestMove_range "bestmove e2e9 ponder e7e5" (mkConsole [] [])))
    as [(f1 & r1 & f2 & r2 & (_ & _ & Hf2 & Hr2 & c & rest & E) & _) | H]; [|exact H].
  exfalso.
  change "bestmove e2e9 ponder e7e5" with ("bestmove" ++ " e2e9 ponder e7e5")%string in E.
  apply string_app_inv_head, squareNames_inv in E as [_ N2].
  pose proof (squareNameToIndex_lookup f2 r2 Hf2 Hr2) as Hfind.
  rewrite <- N2 in Hfind. discriminate Hfind.
Defined.

(** [a + 0.5 * b] in [double], stored as a [float], is exact for pixel
    coordinates. *)
Lemma centre_exact (a b : Z) :
  0 <= a -> 0 <= b -> a + b < 2 ^ 23 ->
  (fl32 (dadd (inject_Z a) (dmul (1 # 2) (inject_Z b)))
   == inject_Z a + inject_Z b / 2)%Q.
Proof.
  intros Ha Hb Hab.
  assert (Ehalf : (dmul (1 # 2) (inject_Z b) == inject_Z b * 2 ^ (- (1)))%Q).
  { unfold dmul, fl64.
    rewrite <- (roundBinary_dyadic 53 (-1022) b 1) by lia.
    apply roundBinary_comp; [lia|]. change (2 ^ (- (1)))%Q with (1 # 2). ring. }
  assert (Esum : (dadd (inject_Z a) (dmul (1 # 2) (inject_Z b))
                  == inject_Z (2 * a + b) * 2 ^ (- (1)))%Q).
  { unfold dadd, fl64.
    rewrite <- (roundBinary_dyadic 53 (-1022) (2 * a + b) 1) by lia.
    apply roundBinary_comp; [lia|]. rewrite Ehalf.
    rewrite inject_Z_plus, inject_Z_mult. change (2 ^ (- (1)))%Q with (1 # 2).
    change (inject_Z 2) with 2%Q. ring. }
  rewrite (fl32_comp _ _ Esum). unfold fl32.
  rewrite (roundBinary_dyadic 24 (-126) (2 * a + b) 1) by lia.
  rewrite inject_Z_plus, inject_Z_mult. change (2 ^ (- (1)))%Q with (1 # 2).
  change (inject_Z 2) with 2%Q. field.
Qed.

(** X7. With 64 squares (or more) the reads [squares[bestMove.first]] and
    [squares[bestMove.second]] of [getChessAnalysis] are inside the vector,
    whatever string the engine answered; an arrow is drawn exactly when the
    string decodes to two different squares, and then it runs from the
    centre of the first square to the centre of the second as
    [getChessAnalysis] computes them; for a square of an image with sides
    below [2^23] pixels that is the point [(x + width / 2, y + height / 2)],
    with no rounding. *)
Theorem drawBestMove_arrow (squares : list Rect) (fullString : string) (io : console) :
  (64 <= length squares)%nat ->
  let move := snd (getBestMove fullString io) in
  exists startSquare endSquare,
    nth_error squares (Z.to_nat (fst move)) = Some startSquare
    /\ nth_error squares (Z.to_nat (snd move)) = Some endSquare
    /\ snd (drawBestMove squares fullString io)
       = Ok (if fst move =? snd move then None
             else Some (rectCentre startSquare, rectCentre endSquare))
    /\ (forall r, imageRect r ->
          (px (rectCentre r) == inject_Z (x r) + inject_Z (width r) / 2)%Q
          /\ (py (rectCentre r) == inject_Z (y r) + inject_Z (height r) / 2)%Q).
Proof.
  intros Hlen. cbv zeta.
  destruct (getBestMove_in_range fullString io) as [Hfst Hsnd].
  unfold drawBestMove.
  destruct (getBestMove fullString io) as [io' [i j]]. cbn [fst snd] in *.
  destruct (nth_error squares (Z.to_nat i)) as [a|] eqn:Ea;
    [|apply nth_error_None in Ea; lia].
  destruct (nth_error squares (Z.to_nat j)) as [b|] eqn:Eb;
    [|apply nth_error_None in Eb; lia].
  exists a, b. split; [reflexivity|]. split; [reflexivity|]. split.
  - destruct (Z.eqb_spec i j) as [E|E]; cbn [negb snd]; [reflexivity|].
    rewrite (proj2 (vec_at_Ok squares i a)) by (split; [lia | exact Ea]). cbn [bind].
    rewrite (proj2 (vec_at_Ok squares j b)) by (split; [lia | exact Eb]). reflexivity.
  - intros r (Hx & Hy & Hw & Hh & Hxw & Hyh). unfold rectCentre. cbn [px py].
    split; apply centre_exact; assumption.
Qed.

Lemma drawBestMove_arrow_witness :
  exists startSquare endSquare,
    nth_error (repeat (mkRect 5 0 15 10) 64)
      (Z.to_nat (fst (snd (getBestMove "bestmove e2e4" (mkConsole [] [])))))
    = Some startSquare
    /\ nth_error (repeat (mkRect 5 0 15 10) 64)
         (Z.to_nat (snd (snd (getBestMove "bestmove e2e4" (mkConsole [] [])))))
       = Some endSquare
    /\ snd (drawBestMove (repeat (mkRect 5 0 15 10) 64) "bestmove e2e4" (mkConsole [] []))
       = Ok (if fst (snd (getBestMove "bestmove e2e4" (mkConsole [] [])))
                =? snd (snd (getBestMove "bestmove e2e4" (mkConsole [] [])))
             then None
             else Some (rectCentre startSquare, rectCentre endSquare))
    /\ (forall r, imageRect r ->
          (px (rectCentre r) == inject_Z (x r) + inject_Z (width r) / 2)%Q
          /\ (py (rectCentre r) == inject_Z (y r) + inject_Z (height r) / 2)%Q).
Proof.
  apply (drawBestMove_arrow (repeat (mkRect 5 0 15 10) 64) "bestmove e2e4"
           (mkConsole [] [])).
  simpl. lia.
Defined.

(** The arrow for the answer ["bestmove e2e4"] on squares of 15 by 10
    pixels, and the centre that a square far outside any image would get:
    [8388609.5] is no [float]. *)
Example drawBestMove_centres :
  snd (drawBestMove (repeat (mkRect 5 0 15 10) 64) "bestmove e2e4" (mkConsole [] []))
  = Ok (Some (mkPoint2f (25 # 2) 5, mkPoint2f (25 # 2) 5))
  /\ rectCentre (mkRect 8388609 0 1 0) = mkPoint2f 8388610 0.
Proof. split; vm_compute; reflexivity. Qed.

(** With fewer than 64 squares the same reads can leave the vector. *)
Example drawBestMove_few_squares :
  snd (drawBestMove (repeat (mkRect 0 0 10 10) 36) "bestmove e2e4" (mkConsole [] []))
  = Fault (UB_OutOfRange 52 36).
Proof. vm_compute. reflexivity. Qed.

(* ------------------------------------------------------------------ *)
(** ** scalePointsToOriginal *)







(** Scaling can move two points closer together: in an image of 428 by 525
    pixels that was resized to 428 by 524, two points more than 30 apart are
    scaled to points exactly 30 apart. *)
Example scalePointsToOriginal_closer :
  let p := mkPoint2f 100 (fl32 (63900001526 # 1000000000)) in
  let q := mkPoint2f 130 (fl32 (63900005341 # 1000000000)) in
  (900 < distSq p q)%Q
  /\ match scalePointsToOriginal [p; q] (mkSize 428 525) (mkSize 428 524) with
     | [p'; q'] => (distSq p' q' == 900)%Q
     | _ => False
     end.
Proof. split; vm_compute; reflexivity. Qed.

(* ------------------------------------------------------------------ *)
(** ** From the segments to the squares *)

Lemma intersectionStep_length (dst_rows dst_cols : Z) (imageSize : Size)
    (line1 line2 : Vec4i) (acc : list Point2f) :
  (length (intersectionStep dst_rows dst_cols imageSize line1 line2 acc)
   <= length acc + 1)%nat.
Proof.
  destruct (intersectionStep_cases dst_rows dst_cols imageSize line1 line2 acc)
    as [->|[_ ->]]; [lia|].
  rewrite length_app. simpl. lia.
Qed.

Lemma intersectionLoop_length (dst_rows dst_cols : Z) (imageSize : Size)
    (lines : list Vec4i) :
  forall acc,
    (2 * length (intersectionLoop dst_rows dst_cols imageSize lines acc)
     <= 2 * length acc + length lines * (length lines - 1))%nat.
Proof.
  induction lines as [|line1 rest IH]; intros acc; cbn [intersectionLoop length].
  - lia.
  - specialize (IH (fold_left
                      (fun acc line2 =>
                         intersectionStep dst_rows dst_cols imageSize line1 line2 acc)
                      rest acc)).
    assert (Hfold : forall js acc0,
               (length (fold_left
                          (fun acc line2 =>
                             intersectionStep dst_rows dst_cols imageSize line1 line2 acc)
                          js acc0)
                <= length acc0 + length js)%nat).
    { induction js as [|line2 js IHj]; intros acc0; cbn [fold_left length]; [lia|].
      specialize (IHj (intersectionStep dst_rows dst_cols imageSize line1 line2 acc0)).
      pose proof (intersectionStep_length dst_rows dst_cols imageSize line1 line2 acc0).
      lia. }
    specialize (Hfold rest acc).
    destruct (length rest) as [|n]; nia.
Qed.

(** X10. [n] segments give at most [n (n - 1) / 2] intersection points:
    [getIntersections], started on an empty accumulator, returns at most one
    point for each pair of segments ([std::sort] is any function that
    permutes its input). *)
Theorem getIntersections_count
    (std_sort : (Point2f -> Point2f -> bool) -> list Point2f -> list Point2f)
    (std_sort_permutes : forall cmp l, Permutation (std_sort cmp l) l)
    (dst_rows dst_cols : Z) (lines : list Vec4i) (imageSize : Size) :
  (2 * length (getIntersections std_sort dst_rows dst_cols lines imageSize [])
   <= length lines * (length lines - 1))%nat.
Proof.
  unfold getIntersections.
  rewrite (Permutation_length (std_sort_permutes comparePoints _)).
  pose proof (intersectionLoop_length dst_rows dst_cols imageSize lines []) as H.
  cbn [length] in H. lia.
Qed.

Lemma getIntersections_count_witness :
  (2 * length (getIntersections insertionSort 524 428 squareLines (mkSize 428 524) [])
   <= length squareLines * (length squareLines - 1))%nat.
Proof.
  exact (getIntersections_count insertionSort (@insertionSort_perm Point2f)
           524 428 squareLines (mkSize 428 524)).
Defined.

Lemma setRectangles_Ok_inv (intersections : list Point2f) (rectangles r : list Rect) :
  setRectangles intersections rectangles = Ok r -> (81 <= length intersections)%nat.
Proof.
  unfold setRectangles. intros E.
  destruct (for_loop_Ok_inv _ _ _ _ _ E 7 ltac:(lia)) as (s1 & s2 & E7).
  destruct (for_loop_Ok_inv _ _ _ _ _ E7 7 ltac:(lia)) as (s3 & s4 & E77).
  apply rectangleStep_Ok_inv in E77. simpl in E77. lia.
Qed.

Lemma setRectangles_Fault_inv (intersections : list Point2f) (rectangles : list Rect)
    (f : fault) :
  setRectangles intersections rectangles = Fault f ->
  exists index,
    f = UB_OutOfRange index (length intersections)
    /\ Z.of_nat (length intersections) <= index < 81.
Proof.
  unfold setRectangles. revert f.
  apply for_loop_Fault_inv. intros row s1 f1 Hrow. revert f1.
  apply for_loop_Fault_inv. intros col s2 f2 Hcol.
  apply rectangleStep_Fault; lia.
Qed.

Lemma setRectangles_firstn (intersections : list Point2f) (rectangles : list Rect) :
  (81 <= length intersections)%nat ->
  setRectangles intersections rectangles
  = setRectangles (firstn 81 intersections) rectangles.
Proof.
  intros Hlen.
  rewrite (setRectangles_Ok intersections) by exact Hlen.
  rewrite (setRectangles_Ok (firstn 81 intersections))
    by (rewrite length_firstn; lia).
  do 2 f_equal.
  assert (Hcell : forall row col, 0 <= row < 8 -> 0 <= col < 8 ->
            gridCell intersections row col = gridCell (firstn 81 intersections) row col).
  { intros row col Hrow Hcol. unfold gridCell.
    rewrite <- (firstn_skipn 81 intersections) at 1 2.
    rewrite !app_nth1 by (rewrite length_firstn; lia). reflexivity. }
  cbn [zrange flat_map map Z.add Pos.add Pos.succ app].
  rewrite !Hcell by lia. reflexivity.
Qed.

(** X11. [handleBoardFlow] passes whatever [getIntersections] finds to
    [setRectangles], with no check of the count in between.  With fewer
    than 81 intersection points, and so whenever there are at most 13
    segments, the flow reads beyond the end of the vector of points; with 81
    points or more it builds exactly 64 rectangles, from the first 81 points
    only. *)
Theorem findSquares_count
    (std_sort : (Point2f -> Point2f -> bool) -> list Point2f -> list Point2f)
    (std_sort_permutes : forall cmp l, Permutation (std_sort cmp l) l)
    (lines : list Vec4i) (srcSize : Size) :
  let intersections := getIntersections std_sort 524 428 lines (mkSize 428 524) [] in
  let originalPoints := scalePointsToOriginal intersections srcSize (mkSize 428 524) in
  ((length intersections < 81)%nat ->
   exists index,
     findSquares std_sort lines srcSize
     = Fault (UB_OutOfRange index (length intersections))
     /\ Z.of_nat (length intersections) <= index < 81)
  /\ ((length lines <= 13)%nat -> (length intersections < 81)%nat)
  /\ ((81 <= length intersections)%nat ->
      exists rectangles,
        findSquares std_sort lines srcSize = Ok rectangles
        /\ length rectangles = 64%nat
        /\ setRectangles (firstn 81 originalPoints) [] = Ok rectangles).
Proof.
  cbv zeta. unfold findSquares.
  set (intersections := getIntersections std_sort 524 428 lines (mkSize 428 524) []).
  set (originalPoints := scalePointsToOriginal intersections srcSize (mkSize 428 524)).
  assert (Hlen : length originalPoints = length intersections)
    by (unfold originalPoints, scalePointsToOriginal; apply length_map).
  repeat split.
  - intros Hfew.
    destruct (setRectangles originalPoints []) as [r|f] eqn:E.
    + apply setRectangles_Ok_inv in E. lia.
    + apply setRectangles_Fault_inv in E as (index & -> & H).
      rewrite Hlen in *. now exists index.
  - intros Hlines.
    assert (H : (2 * length intersections <= length lines * (length lines - 1))%nat).
    { unfold intersections, getIntersections.
      rewrite (Permutation_length (std_sort_permutes comparePoints _)).
      pose proof (intersectionLoop_length 524 428 (mkSize 428 524) lines []) as H.
      cbn [length] in H. lia. }
    nia.
  - intros Hmany.
    rewrite (setRectangles_firstn originalPoints) by lia.
    rewrite (setRectangles_Ok (firstn 81 originalPoints))
      by (rewrite length_firstn; lia).
    eexists. split; [reflexivity|]. split; [|reflexivity].
    cbn [app]. apply length_grid.
Qed.

Lemma findSquares_count_witness :
  ((length (getIntersections insertionSort 524 428 squareLines (mkSize 428 524) []) < 81)%nat ->
   exists index,
     findSquares insertionSort squareLines (mkSize 3024 4032)
     = Fault (UB_OutOfRange index
                (length (getIntersections insertionSort 524 428 squareLines
                           (mkSize 428 524) [])))
     /\ Z.of_nat (length (getIntersections insertionSort 524 428 squareLines
                            (mkSize 428 524) [])) <= index < 81)
  /\ ((length squareLines <= 13)%nat ->
      (length (getIntersections insertionSort 524 428 squareLines (mkSize 428 524) [])
       < 81)%nat)
  /\ ((81 <= length (getIntersections insertionSort 524 428 squareLines
                       (mkSize 428 524) []))%nat ->
      exists rectangles,
        findSquares insertionSort squareLines (mkSize 3024 4032) = Ok rectangles
        /\ length rectangles = 64%nat
        /\ setRectangles
             (firstn 81 (scalePointsToOriginal
                           (getIntersections insertionSort 524 428 squareLines
                              (mkSize 428 524) [])
                           (mkSize 3024 4032) (mkSize 428 524))) []
           = Ok rectangles).
Proof.
  exact (findSquares_count insertionSort (@insertionSort_perm Point2f) squareLines
           (mkSize 3024 4032)).
Defined.

Example findSquares_square :
  findSquares insertionSort squareLines (mkSize 3024 4032) = Fault (UB_OutOfRange 10 4).
Proof. vm_compute. reflexivity. Qed.

(* ------------------------------------------------------------------ *)
(** ** getHistogramFeature *)

Lemma zrange_In (n : nat) : forall i k, In k (zrange i n) <-> i <= k < i + Z.of_nat n.
Proof.
  induction n as [|n IH]; intros i k; cbn [zrange In].
  - lia.
  - rewrite IH. lia.
Qed.

Lemma indices_In (n k : Z) : In k (indices n) <-> 0 <= k < n.
Proof. unfold indices. rewrite zrange_In. lia. Qed.

Lemma zrange_length (n : nat) : forall i, length (zrange i n) = n.
Proof. induction n as [|n IH]; intros i; cbn [zrange length]; [|rewrite IH]; reflexivity. Qed.

Lemma sumQ_cons (v : Q) (l : list Q) : sumQ (v :: l) = (v + sumQ l)%Q.
Proof. reflexivity. Qed.

Lemma sumQ_app (a b : list Q) : (sumQ (a ++ b) == sumQ a + sumQ b)%Q.
Proof.
  induction a as [|v a IH]; cbn [app].
  - change (sumQ []) with 0%Q. ring.
  - rewrite !sumQ_cons, IH. ring.
Qed.

Lemma sumQ_flat_map {A : Type} (f : A -> list Q) (l : list A) :
  (sumQ (flat_map f l) == sumQ (map (fun a => sumQ (f a)) l))%Q.
Proof.
  induction l as [|a l IH]; cbn [flat_map map].
  - reflexivity.
  - rewrite sumQ_app, IH. reflexivity.
Qed.

Ltac zbool :=
  repeat match goal with
         | |- context [(?a <=? ?b)] => destruct (Z.leb_spec a b)
         | |- context [(?a <? ?b)] => destruct (Z.ltb_spec a b)
         | |- context [(?a =? ?b)] => destruct (Z.eqb_spec a b)
         end;
  cbn [andb]; try reflexivity; try lia.

(** Changing one term of a sum over a range of indices. *)
Lemma sumQ_bump (g g' : Z -> Q) (k : Z) (d : Q) (n : nat) :
  (forall j, j <> k -> (g' j == g j)%Q) ->
  (g' k == g k + d)%Q ->
  forall i,
    (sumQ (map g' (zrange i n))
     == sumQ (map g (zrange i n))
        + (if (i <=? k) && (k <? i + Z.of_nat n) then d else 0))%Q.
Proof.
  intros Hother Hk. induction n as [|n IH]; intros i.
  - cbn [zrange map]. change (sumQ []) with 0%Q.
    replace ((i <=? k) && (k <? i + Z.of_nat 0)) with false by zbool. ring.
  - cbn [zrange map]. rewrite !sumQ_cons.
    rewrite IH. destruct (Z.eq_dec i k) as [->|Hne].
    + rewrite Hk.
      replace ((k + 1 <=? k) && (k <? k + 1 + Z.of_nat n)) with false by zbool.
      replace ((k <=? k) && (k <? k + Z.of_nat (S n))) with true by zbool. ring.
    + rewrite (Hother i Hne).
      replace ((i <=? k) && (k <? i + Z.of_nat (S n)))
        with ((i + 1 <=? k) && (k <? i + 1 + Z.of_nat n)) by zbool.
      ring.
Qed.

Lemma sumQ_map_ext {A : Type} (g g' : A -> Q) (l : list A) :
  (forall a, (g' a == g a)%Q) -> (sumQ (map g' l) == sumQ (map g l))%Q.
Proof.
  intros H. induction l as [|a l IH]; cbn [map].
  - reflexivity.
  - rewrite !sumQ_cons, IH, H. reflexivity.
Qed.

Lemma sumQ_map_div {A : Type} (g : A -> Q) (t : Q) (l : list A) :
  (sumQ (map (fun a => g a / t) l) == sumQ (map g l) / t)%Q.
Proof.
  induction l as [|a l IH]; cbn [map].
  - change (sumQ []) with 0%Q. unfold Qdiv. ring.
  - rewrite !sumQ_cons, IH. unfold Qdiv. ring.
Qed.

(** The sum of the entries of a histogram grows by one with each pixel
    counted in one of its bins. *)
Lemma convertMatToVec_incr (m : Mat Q) (r c : Z) :
  0 <= r < rows m -> 0 <= c < cols m ->
  (sumQ (convertMatToVec (Mat_incr m r c)) == sumQ (convertMatToVec m) + 1)%Q.
Proof.
  intros Hr Hc. unfold convertMatToVec, Mat_incr, indices.
  cbn [rows cols at_]. rewrite !sumQ_flat_map.
  rewrite (sumQ_bump
             (fun row => sumQ (map (fun col => at_ m row col) (zrange 0 (Z.to_nat (cols m)))))
             _ r 1%Q).
  - replace ((0 <=? r) && (r <? 0 + Z.of_nat (Z.to_nat (rows m)))) with true by zbool.
    reflexivity.
  - intros row Hrow. apply sumQ_map_ext. intros col.
    replace (row =? r) with false by zbool. reflexivity.
  - rewrite (sumQ_bump (fun col => at_ m r col) _ c 1%Q).
    + replace ((0 <=? c) && (c <? 0 + Z.of_nat (Z.to_nat (cols m)))) with true by zbool.
      reflexivity.
    + intros col Hcol. replace (col =? c) with false by zbool.
      rewrite andb_false_r. reflexivity.
    + rewrite !Z.eqb_refl. reflexivity.
Qed.

Lemma convertMatToVec_normalize (m : Mat Q) (t : Q) :
  (sumQ (convertMatToVec (normalizeHistogram m t)) == sumQ (convertMatToVec m) / t)%Q.
Proof.
  unfold convertMatToVec, normalizeHistogram. cbn [rows cols at_].
  rewrite !sumQ_flat_map.
  rewrite <- (sumQ_map_div (fun row => sumQ (map (fun col => at_ m row col)
                                                (indices (cols m))))).
  apply sumQ_map_ext. intros row. apply sumQ_map_div.
Qed.

Lemma length_flat_map_const {A B : Type} (f : A -> list B) (l : list A) (m : nat) :
  (forall a, length (f a) = m) -> length (flat_map f l) = (length l * m)%nat.
Proof.
  intros H. induction l as [|a l IH]; cbn [flat_map length].
  - reflexivity.
  - rewrite length_app, H, IH. reflexivity.
Qed.

Lemma convertMatToVec_length (m : Mat Q) :
  length (convertMatToVec m) = (Z.to_nat (rows m) * Z.to_nat (cols m))%nat.
Proof.
  unfold convertMatToVec, indices.
  rewrite (length_flat_map_const _ _ (Z.to_nat (cols m))).
  - rewrite zrange_length. reflexivity.
  - intros row. rewrite length_map. apply zrange_length.
Qed.

Lemma convertMatToVec_nonneg (m : Mat Q) :
  (forall row col, (0 <= at_ m row col)%Q) ->
  Forall (fun v => (0 <= v)%Q) (convertMatToVec m).
Proof.
  intros H. apply Forall_forall. intros v Hv. unfold convertMatToVec in Hv.
  apply in_flat_map in Hv. destruct Hv as [row [_ Hv]].
  apply in_map_iff in Hv. destruct Hv as [col [<- _]]. apply H.
Qed.

(** What a run of increments does to a histogram. *)
Lemma histogram_counts {A : Type} (bin : A -> Z * Z) (l : list A) :
  forall h : Mat Q,
    (forall a, In a l -> 0 <= fst (bin a) < rows h /\ 0 <= snd (bin a) < cols h) ->
    let h' := fold_left (fun h a => Mat_incr h (fst (bin a)) (snd (bin a))) l h in
    rows h' = rows h /\ cols h' = cols h
    /\ (sumQ (convertMatToVec h')
        == sumQ (convertMatToVec h) + inject_Z (Z.of_nat (length l)))%Q
    /\ ((forall row col, (0 <= at_ h row col)%Q) ->
        forall row col, (0 <= at_ h' row col)%Q).
Proof.
  induction l as [|a l IH]; intros h Hbin; cbn [fold_left length].
  - repeat split; trivial. change (inject_Z (Z.of_nat 0)) with 0%Q. ring.
  - destruct (Hbin a (or_introl eq_refl)) as [Hr Hc].
    destruct (IH (Mat_incr h (fst (bin a)) (snd (bin a)))) as [Hrows [Hcols [Hsum Hpos]]].
    { intros b Hb. cbn [Mat_incr rows cols]. apply Hbin. right. exact Hb. }
    cbn zeta in *. rewrite Hrows, Hcols. cbn [Mat_incr rows cols].
    repeat split.
    + rewrite Hsum, convertMatToVec_incr by assumption.
      rewrite Nat2Z.inj_succ, <- Z.add_1_r, inject_Z_plus.
      change (inject_Z 1) with 1%Q. ring.
    + intros H0. apply Hpos. intros row col. cbn [Mat_incr at_].
      specialize (H0 row col).
      destruct ((row =? fst (bin a)) && (col =? snd (bin a))); lra.
Qed.

Lemma fold_left_flat_map {A B S : Type} (f : S -> B -> S) (g : A -> list B) (l : list A) :
  forall s, fold_left f (flat_map g l) s = fold_left (fun s a => fold_left f (g a) s) l s.
Proof.
  induction l as [|a l IH]; intros s; cbn [flat_map fold_left].
  - reflexivity.
  - rewrite fold_left_app. apply IH.
Qed.

Lemma fold_left_map_list {A B S : Type} (f : S -> B -> S) (g : A -> B) (l : list A) :
  forall s, fold_left f (map g l) s = fold_left (fun s a => f s (g a)) l s.
Proof.
  induction l as [|a l IH]; intros s; cbn [map fold_left]; [reflexivity | apply IH].
Qed.

Lemma fold_left_ext {A S : Type} (f g : S -> A -> S) (l : list A) :
  (forall s a, f s a = g s a) -> forall s, fold_left f l s = fold_left g l s.
Proof.
  intros H. induction l as [|a l IH]; intros s; cbn [fold_left].
  - reflexivity.
  - rewrite H. apply IH.
Qed.

(** The loops of [getHistogramFeature] count each pixel in its bin. *)
Lemma getHistogramFeature_unfold (image : Mat Vec3b) (numBins : Z) :
  getHistogramFeature image numBins
  = normalizeHistogram
      (fold_left (fun h (ij : Z * Z) =>
                    Mat_incr h (fst (pixelBin (at_ image (fst ij) (snd ij)) numBins))
                             (snd (pixelBin (at_ image (fst ij) (snd ij)) numBins)))
                 (flat_map (fun i => map (fun j => (i, j)) (indices (cols image)))
                           (indices (rows image)))
                 (mkMat numBins numBins (fun _ _ => 0%Q)))
      (inject_Z (rows image * cols image)).
Proof.
  unfold getHistogramFeature. cbn zeta. f_equal.
  rewrite fold_left_flat_map.
  apply fold_left_ext. intros h i. rewrite fold_left_map_list.
  apply fold_left_ext. intros h' j. unfold pixelBin. cbn [fst snd].
  destruct (Qeq_bool _ 0); reflexivity.
Qed.

Lemma Qtrunc_bin (q : Q) (numBins : Z) :
  (0 <= q <= 1)%Q -> 1 <= numBins ->
  0 <= Qtrunc (q * inject_Z (numBins - 1) + (1 # 2)) < numBins.
Proof.
  intros Hq Hn.
  assert (Hn1 : (0 <= inject_Z (numBins - 1))%Q).
  { change 0%Q with (inject_Z 0). rewrite <- Zle_Qle. lia. }
  assert (Hlo : (0 <= q * inject_Z (numBins - 1))%Q) by (apply Qmult_le_0_compat; tauto).
  assert (Hhi : (q * inject_Z (numBins - 1) <= inject_Z (numBins - 1))%Q).
  { rewrite <- (Qmult_1_l (inject_Z (numBins - 1))) at 2.
    apply Qmult_le_compat_r; tauto. }
  set (v := (q * inject_Z (numBins - 1) + (1 # 2))%Q).
  unfold Qtrunc. destruct (Qlt_bool_spec v 0) as [Hneg|_].
  { unfold v in Hneg. lra. }
  split.
  - change 0 with (Qfloor 0). apply Qfloor_resp_le. unfold v. lra.
  - rewrite Zlt_Qlt. apply Qle_lt_trans with v; [apply Qfloor_le|].
    assert (E : (inject_Z (numBins - 1) == inject_Z numBins - 1)%Q).
    { unfold Z.sub. rewrite inject_Z_plus. reflexivity. }
    unfold v. lra.
Qed.

Lemma ucharImage_spec (image : Mat Vec3b) (row col : Z) :
  ucharImage image = true ->
  0 <= row < rows image -> 0 <= col < cols image ->
  let p := at_ image row col in
  0 <= blue p <= 255 /\ 0 <= green p <= 255 /\ 0 <= red p <= 255.
Proof.
  intros H Hrow Hcol. unfold ucharImage in H.
  rewrite forallb_forall in H. specialize (H row (proj2 (indices_In _ _) Hrow)).
  rewrite forallb_forall in H. specialize (H col (proj2 (indices_In _ _) Hcol)).
  cbn zeta in *. lia.
Qed.

Lemma ratio_in_unit (a t : Z) : 0 <= a <= t -> 0 < t -> (0 <= inject_Z a / inject_Z t <= 1)%Q.
Proof.
  intros Ha Ht.
  assert (Htq : (0 < inject_Z t)%Q).
  { change 0%Q with (inject_Z 0). rewrite <- Zlt_Qlt. exact Ht. }
  split.
  - apply Qle_shift_div_l; [exact Htq|]. rewrite Qmult_0_l.
    change 0%Q with (inject_Z 0). rewrite <- Zle_Qle. lia.
  - apply Qle_shift_div_r; [exact Htq|]. rewrite Qmult_1_l. rewrite <- Zle_Qle. lia.
Qed.

Lemma pixelBin_range (p : Vec3b) (numBins : Z) :
  0 <= blue p -> 0 <= green p -> 0 <= red p -> 1 <= numBins ->
  0 <= fst (pixelBin p numBins) < numBins /\ 0 <= snd (pixelBin p numBins) < numBins.
Proof.
  intros Hb Hg Hr Hn. unfold pixelBin. cbn zeta.
  destruct (Qeq_bool (inject_Z (blue p + green p + red p)) 0) eqn:Htotal; cbn [fst snd].
  - split; apply Qtrunc_bin; trivial; lra.
  - apply Qeq_bool_neq in Htotal.
    assert (Hpos : 0 < blue p + green p + red p).
    { destruct (Z.eq_dec (blue p + green p + red p) 0) as [E|E]; [|lia].
      exfalso. apply Htotal. rewrite E. reflexivity. }
    split; apply Qtrunc_bin; trivial; apply ratio_in_unit; lia.
Qed.

Lemma length_pixels (n m : nat) (i j : Z) :
  length (flat_map (fun i => map (fun j => (i, j)) (zrange j m)) (zrange i n)) = (n * m)%nat.
Proof.
  rewrite (length_flat_map_const _ _ m).
  - rewrite zrange_length. reflexivity.
  - intros row. rewrite length_map. apply zrange_length.
Qed.

(** The histogram of [getHistogramFeature] has [numBins] rows and columns,
    whatever the image. *)
Lemma getHistogramFeature_size (image : Mat Vec3b) (numBins : Z) :
  rows (getHistogramFeature image numBins) = numBins
  /\ cols (getHistogramFeature image numBins) = numBins.
Proof.
  rewrite getHistogramFeature_unfold. unfold normalizeHistogram. cbn [rows cols].
  apply (fold_left_invariant (fun h : Mat Q => rows h = numBins /\ cols h = numBins)).
  - intros h a Hh. exact Hh.
  - split; reflexivity.
Qed.

(** The histogram of a region with at least one pixel: no entry is
    negative, and the entries sum to one. *)
Lemma getHistogramFeature_normalized (image : Mat Vec3b) (numBins : Z) :
  ucharImage image = true ->
  0 < rows image -> 0 < cols image -> 1 <= numBins ->
  (forall row col, (0 <= at_ (getHistogramFeature image numBins) row col)%Q)
  /\ (sumQ (convertMatToVec (getHistogramFeature image numBins)) == 1)%Q.
Proof.
  intros Huchar Hrows Hcols Hbins.
  rewrite getHistogramFeature_unfold.
  set (pixels := flat_map (fun i => map (fun j => (i, j)) (indices (cols image)))
                          (indices (rows image))).
  set (zeros := mkMat numBins numBins (fun _ _ => 0%Q)).
  destruct (histogram_counts
              (fun ij : Z * Z => pixelBin (at_ image (fst ij) (snd ij)) numBins)
              pixels zeros) as [Hr [Hc [Hsum Hpos]]].
  { intros [i j] Hin. unfold pixels in Hin. apply in_flat_map in Hin.
    destruct Hin as [i' [Hi Hin]]. apply in_map_iff in Hin.
    destruct Hin as [j' [E Hj]]. inversion E; subst i' j'.
    apply indices_In in Hi. apply indices_In in Hj.
    destruct (ucharImage_spec image i j Huchar Hi Hj) as [Hb [Hg Hred]].
    cbn [fst snd zeros rows cols]. apply pixelBin_range; lia. }
  cbn zeta in *.
  set (counts := fold_left _ pixels zeros) in *.
  assert (Htotal : (0 < inject_Z (rows image * cols image))%Q).
  { change 0%Q with (inject_Z 0). rewrite <- Zlt_Qlt. nia. }
  split.
  - intros row col. unfold normalizeHistogram. cbn [at_].
    apply Qle_shift_div_l; [exact Htotal|]. rewrite Qmult_0_l.
    apply Hpos. intros. cbn. lra.
  - rewrite convertMatToVec_normalize, Hsum.
    assert (Hzero : (sumQ (convertMatToVec zeros) == 0)%Q).
    { unfold convertMatToVec, zeros. cbn [rows cols at_]. rewrite sumQ_flat_map.
      rewrite (sumQ_map_ext (fun _ => 0%Q)).
      - induction (indices numBins) as [|a l IH]; cbn [map];
          [reflexivity|]. rewrite sumQ_cons, IH. ring.
      - intros row. induction (indices numBins) as [|a l IH]; cbn [map];
          [reflexivity|]. rewrite sumQ_cons, IH. ring. }
    rewrite Hzero. unfold pixels, indices. rewrite length_pixels.
    rewrite Nat2Z.inj_mul, !Z2Nat.id by lia.
    field. lra.
Qed.

Lemma convertMatToVec_getHistogramFeature_length (image : Mat Vec3b) (numBins : Z) :
  0 <= numBins ->
  length (convertMatToVec (getHistogramFeature image numBins)) = Z.to_nat (numBins * numBins).
Proof.
  intros Hbins. rewrite convertMatToVec_length.
  destruct (getHistogramFeature_size image numBins) as [-> ->].
  rewrite Z2Nat.inj_mul by lia. reflexivity.
Qed.




(* ------------------------------------------------------------------ *)
(** ** computeHistogramDiffs *)

Lemma ucharImage_intro (image : Mat Vec3b) :
  (forall row col, 0 <= row < rows image -> 0 <= col < cols image ->
     let p := at_ image row col in
     0 <= blue p <= 255 /\ 0 <= green p <= 255 /\ 0 <= red p <= 255) ->
  ucharImage image = true.
Proof.
  intros H. unfold ucharImage. apply forallb_forall. intros row Hrow.
  apply forallb_forall. intros col Hcol.
  apply indices_In in Hrow. apply indices_In in Hcol.
  specialize (H row col Hrow Hcol). cbn zeta in *. lia.
Qed.

(** A region of an image of [uchar] pixels is an image of [uchar] pixels. *)
Lemma ucharImage_roi (image square : Mat Vec3b) (r : Rect) :
  ucharImage image = true -> roi image r = Ok square ->
  ucharImage square = true /\ rows square = height r /\ cols square = width r.
Proof.
  intros Himage. unfold roi.
  destruct ((0 <=? x r) && (0 <=? width r) && (x r + width r <=? cols image)
            && (0 <=? y r) && (0 <=? height r) && (y r + height r <=? rows image)) eqn:E;
    [|discriminate].
  intros [= <-]. cbn [rows cols]. split; [|split; reflexivity].
  apply ucharImage_intro. cbn [rows cols at_]. intros row col Hrow Hcol.
  apply (ucharImage_spec image (row + y r) (col + x r) Himage); lia.
Qed.

Lemma intersectionQ_le_sum (h1 : list Q) :
  forall h2, length h1 = length h2 -> (intersectionQ h1 h2 <= sumQ h1)%Q.
Proof.
  induction h1 as [|a h1 IH]; intros [|b h2] Hlen; try discriminate Hlen.
  - apply Qle_refl.
  - cbn [intersectionQ]. rewrite sumQ_cons. injection Hlen as Hlen.
    specialize (IH h2 Hlen). pose proof (Q.le_min_l a b). lra.
Qed.

Lemma FLT_MAX_large : (1 < FLT_MAX)%Q.
Proof. reflexivity. Qed.

Lemma Qlt_bool_compat (a a' b b' : Q) :
  (a == a')%Q -> (b == b')%Q -> Qlt_bool a b = Qlt_bool a' b'.
Proof.
  intros Ha Hb.
  destruct (Qlt_bool_spec a b), (Qlt_bool_spec a' b'); try reflexivity; lra.
Qed.

Section BestMatch.

Variable features : list Q.
Variable labels : list string.
Variable featureData : list (list Q).

Hypothesis Hlen : length featureData = length labels.
Hypothesis Hsize : forall k, (k < length labels)%nat ->
                             length (nth k featureData []) = length features.
Hypothesis Hsmall :
  forall k, (k < length labels)%nat ->
            (dissimilarity features (nth k featureData []) < FLT_MAX)%Q.

Lemma bestMatch_step (m : nat) (best : Q * string) (tr : list event) :
  (m < length labels)%nat -> bestSoFar features labels featureData m best ->
  exists best',
    bestMatchStep features labels featureData (Z.of_nat m) best tr = (tr, Ok best')
    /\ bestSoFar features labels featureData (S m) best'.
Proof.
  intros Hm Hbest. destruct best as [bestDiff bestLabel]. unfold bestMatchStep.
  pose proof Hsmall as Hsmall'. unfold bestSoFar in *.
  unfold bindM at 1. unfold lift at 1.
  rewrite (vec_at_in_range featureData (Z.of_nat m) []) by lia.
  rewrite Nat2Z.id.
  destruct (computeHistogramIntersectionDifference_equal_sizes
              features (nth m featureData []) tr (eq_sym (Hsize m Hm)))
    as (v & Ev & Hv).
  unfold bindM at 1. rewrite Ev. fold (dissimilarity features (nth m featureData [])) in Hv.
  assert (Hcmp : Qlt_bool v bestDiff = true ->
                 bestSoFar features labels featureData (S m) (v, nth m labels "")).
  { intros Hlt. apply Qlt_bool_iff in Hlt. unfold bestSoFar. right. exists m. cbn [fst snd].
    split; [lia|]. split; [exact Hv|]. split; [reflexivity|].
    destruct Hbest as [[-> _] | (i & Hi & Hdi & _ & Hmin & _)].
    - split; intros j Hj; [|lia]. replace j with 0%nat by lia. lra.
    - cbn [fst] in Hdi.
      assert (Hall : forall j, (j < m)%nat ->
                               (dissimilarity features (nth m featureData [])
                                < dissimilarity features (nth j featureData []))%Q).
      { intros j Hj. specialize (Hmin j Hj). lra. }
      split; [|exact Hall]. intros j Hj.
      destruct (Nat.eq_dec j m) as [->|Hne]; [lra|].
      apply Qlt_le_weak. apply Hall. lia. }
  destruct (Qlt_bool v bestDiff) eqn:Hlt.
  - unfold bindM, lift, ret.
    rewrite (vec_at_in_range labels (Z.of_nat m) "") by lia. rewrite Nat2Z.id.
    eexists. split; [reflexivity|]. apply Hcmp. reflexivity.
  - unfold ret. eexists. split; [reflexivity|].
    destruct (Qlt_bool_spec v bestDiff) as [|Hge]; [discriminate|].
    destruct Hbest as [[-> [= -> ->]] | (i & Hi & Hdi & Hlabel & Hmin & Hfirst)].
    + exfalso. specialize (Hsmall' 0%nat Hm). lra.
    + cbn [fst snd] in *. right. exists i. cbn [fst snd].
      split; [lia|]. split; [exact Hdi|]. split; [exact Hlabel|].
      split; [|exact Hfirst]. intros j Hj.
      destruct (Nat.eq_dec j m) as [->|Hne]; [lra|]. apply Hmin. lia.
Qed.

Lemma bestMatch_loop (count : nat) :
  forall (m : nat) (best : Q * string) (tr : list event),
    (m + count = length labels)%nat -> bestSoFar features labels featureData m best ->
    exists best',
      for_each (zrange (Z.of_nat m) count) (bestMatchStep features labels featureData)
               best tr = (tr, Ok best')
      /\ bestSoFar features labels featureData (length labels) best'.
Proof.
  induction count as [|count IH]; intros m best tr Hm Hbest; cbn [zrange for_each].
  - exists best. split; [reflexivity|]. now replace (length labels) with m by lia.
  - destruct (bestMatch_step m best tr ltac:(lia) Hbest) as (best1 & E1 & H1).
    unfold bindM. rewrite E1.
    replace (Z.of_nat m + 1) with (Z.of_nat (S m)) by lia.
    apply IH; [lia | exact H1].
Qed.

End BestMatch.

(** The loop of [computeHistogramDiffs] on a table of features. *)
Lemma computeHistogramDiffs_loop (image square : Mat Vec3b) (currentRect : Rect)
    (labels : list string) (featureData : list (list Q)) (nBins : Z) (tr : list event) :
  ucharImage image = true ->
  roi image currentRect = Ok square ->
  0 < width currentRect -> 0 < height currentRect -> 1 <= nBins ->
  featureTable nBins labels featureData ->
  let features := convertMatToVec (getHistogramFeature square nBins) in
  (forall j, (j < length labels)%nat ->
             (0 <= dissimilarity features (nth j featureData []) <= 1)%Q)
  /\ exists best,
       computeHistogramDiffs image currentRect labels featureData nBins tr
       = (tr, Ok (snd best))
       /\ bestSoFar features labels featureData (length labels) best.
Proof.
  intros Himage Hroi Hw Hh Hbins [Hlen Htable]. cbn zeta.
  destruct (ucharImage_roi image square currentRect Himage Hroi) as [Hsq [Hrows Hcols]].
  destruct (getHistogramFeature_normalized square nBins Hsq ltac:(lia) ltac:(lia) Hbins)
    as [Hfpos Hfsum].
  apply convertMatToVec_nonneg in Hfpos.
  pose proof (convertMatToVec_getHistogramFeature_length square nBins ltac:(lia)) as Hflen.
  set (features := convertMatToVec (getHistogramFeature square nBins)) in *.
  assert (Hentry : forall k, (k < length labels)%nat ->
                             length (nth k featureData []) = length features
                             /\ Forall (fun v => (0 <= v)%Q) (nth k featureData [])).
  { intros k Hk. rewrite Forall_forall in Htable.
    destruct (Htable (nth k featureData [])) as [Hl Hp].
    - apply nth_In. lia.
    - split; [congruence | exact Hp]. }
  assert (Hrange : forall k, (k < length labels)%nat ->
                             (0 <= dissimilarity features (nth k featureData []) <= 1)%Q).
  { intros k Hk. destruct (Hentry k Hk) as [Hl Hp]. unfold dissimilarity.
    pose proof (intersectionQ_nonneg features _ Hfpos Hp).
    pose proof (intersectionQ_le_sum features _ (eq_sym Hl)). lra. }
  split; [exact Hrange|].
  destruct (bestMatch_loop features labels featureData Hlen
              (fun k Hk => proj1 (Hentry k Hk))
              (fun k Hk => Qle_lt_trans _ _ _ (proj2 (Hrange k Hk)) FLT_MAX_large)
              (length labels) 0%nat (FLT_MAX, "") tr eq_refl
              (or_introl (conj eq_refl eq_refl)))
    as (best & Eloop & Hbest).
  exists best. split; [|exact Hbest].
  unfold computeHistogramDiffs, bindM at 1, lift at 1. rewrite Hroi.
  unfold bindM at 1. unfold indices. rewrite Nat2Z.id.
  fold features. cbn [Z.of_nat] in Eloop. cbv beta delta [bestMatchStep] in Eloop.
  rewrite Eloop. reflexivity.
Qed.

Example computeHistogramDiffs_two_entries :
  computeHistogramDiffs twoPixels (mkRect 0 0 2 1) ["wp"; "bp"] twoEntries 2 []
  = ([], Ok "bp").
Proof. vm_compute. reflexivity. Qed.

(* ------------------------------------------------------------------ *)
(** ** The labels of the squares *)

Lemma bindM_Ok_inv {A B : Type} (m : M A) (k : A -> M B) (tr tr' : list event) (b : B) :
  bindM m k tr = (tr', Ok b) ->
  exists tr1 a, m tr = (tr1, Ok a) /\ k a tr1 = (tr', Ok b).
Proof.
  unfold bindM. destruct (m tr) as [tr1 [a|f]]; [|discriminate].
  intros H. now exists tr1, a.
Qed.

(** A loop that ends normally keeps what each of its rounds keeps. *)
Lemma for_each_count {A S : Type} (P : nat -> S -> Prop) (body : A -> S -> M S)
    (xs : list A) :
  forall (n : nat) (s s' : S) (tr tr' : list event),
    (forall k a s1 s2 tr1 tr2,
        In a xs -> P k s1 -> body a s1 tr1 = (tr2, Ok s2) -> P (Datatypes.S k) s2) ->
    P n s -> for_each xs body s tr = (tr', Ok s') -> P (n + length xs)%nat s'.
Proof.
  induction xs as [|a xs IH]; intros n s s' tr tr' Hbody Hs; cbn [for_each length].
  - intros [= _ <-]. now rewrite Nat.add_0_r.
  - intros H. apply bindM_Ok_inv in H as (tr1 & s1 & E1 & Erest).
    rewrite Nat.add_succ_r. apply (IH (Datatypes.S n) s1 s' tr1 tr').
    + intros k b s2 s3 tr2 tr3 Hb. apply Hbody. now right.
    + apply (Hbody n a s s1 tr tr1); [now left | exact Hs | exact E1].
    + exact Erest.
Qed.

(** The label that [computeHistogramDiffs] returns is a label of the table,
    or the empty string. *)
Lemma computeHistogramDiffs_label (image : Mat Vec3b) (currentRect : Rect)
    (labels : list string) (featureData : list (list Q)) (nBins : Z)
    (tr tr' : list event) (label : string) :
  computeHistogramDiffs image currentRect labels featureData nBins tr = (tr', Ok label) ->
  label = "" \/ In label labels.
Proof.
  unfold computeHistogramDiffs. intros H.
  apply bindM_Ok_inv in H as (tr1 & square & _ & H).
  apply bindM_Ok_inv in H as (tr2 & best & Hloop & H).
  injection H as _ <-.
  assert (Hgoal : snd best = "" \/ In (snd best) labels); [|exact Hgoal].
  apply (for_each_count (fun _ b => snd b = "" \/ In (snd b) labels) _ _ 0 _ _ _ _)
    in Hloop; [exact Hloop | | now left].
  intros _ i [bestDiff bestLabel] s2 tra trb _ Hbest Hbody. cbn [snd] in Hbest.
  apply bindM_Ok_inv in Hbody as (trc & data & _ & Hbody).
  apply bindM_Ok_inv in Hbody as (trd & currentDiff & _ & Hbody).
  destruct (Qlt_bool currentDiff bestDiff).
  - apply bindM_Ok_inv in Hbody as (tre & l & Hl & Hbody).
    injection Hbody as _ <-. injection Hl as _ Hl. cbn [snd]. right.
    apply vec_at_Ok in Hl as [_ Hl]. eapply nth_error_In. exact Hl.
  - injection Hbody as _ <-. exact Hbest.
Qed.

(** The label that [getNNPieceLabel] returns is one of [PIECE_VALUES]. *)
Lemma getNNPieceLabel_label (classifier : Mat Vec3b -> outcome (list Q))
    (image : Mat Vec3b) (currentRect : Rect) (tr tr' : list event) (label : string) :
  getNNPieceLabel classifier image currentRect tr = (tr', Ok label) ->
  In label PIECE_VALUES.
Proof.
  unfold getNNPieceLabel. intros H.
  apply bindM_Ok_inv in H as (tr1 & square & _ & H).
  apply bindM_Ok_inv in H as (tr2 & output & _ & H).
  apply bindM_Ok_inv in H as (tr3 & u & _ & H).
  apply bindM_Ok_inv in H as (tr4 & l & Hl & H).
  apply bindM_Ok_inv in H as (tr5 & u' & _ & H).
  injection H as _ <-. injection Hl as _ Hl.
  apply vec_at_Ok in Hl as [_ Hl]. eapply nth_error_In. exact Hl.
Qed.

Section Labels.

Variable cvtColor_BGR2GRAY : Mat Vec3b -> outcome (Mat Z).
Variable Canny : Mat Z -> Z -> Z -> outcome (Mat Z).
Variable putText : Mat Vec3b -> string -> Point2i -> Mat Vec3b.
Variable classifier : Mat Vec3b -> outcome (list Q).
Variable lightLabels darkLabels : list string.
Variable lightData darkData : list (list Q).
Variable temp : Mat Vec3b.
Variable showLabels : bool.

(** An iteration of [getPieceLabels] that ends normally appends one label:
    ["ee"], or what [computeHistogramDiffs] returns for the square on the
    image as it is then; it draws on the image only when asked to. *)
Lemma pieceLabelsStep_label (currentRect : Rect) (s s' : labelState) (tr tr' : list event) :
  pieceLabelsStep cvtColor_BGR2GRAY Canny putText lightLabels darkLabels lightData darkData
                  temp showLabels currentRect s tr = (tr', Ok s') ->
  exists label,
    squareLabels s' = squareLabels s ++ [label]
    /\ (label = "ee"
        \/ exists tr1 tr2,
             (if isDarkSquare s
              then computeHistogramDiffs (dst s) currentRect darkLabels darkData 16
              else computeHistogramDiffs (dst s) currentRect lightLabels lightData 16) tr1
             = (tr2, Ok label))
    /\ (showLabels = false -> dst s' = dst s).
Proof.
  unfold pieceLabelsStep. intros H.
  apply bindM_Ok_inv in H as (tr1 & empty & _ & H).
  apply bindM_Ok_inv in H as (tr2 & s1 & H1 & H).
  injection H as _ <-. cbn [squareLabels dst].
  destruct empty.
  - injection H1 as _ <-. cbn [squareLabels dst]. exists "ee".
    split; [reflexivity|]. split; [now left|]. now intros ->.
  - apply bindM_Ok_inv in H1 as (tr3 & label & Hlabel & H1).
    injection H1 as _ <-. cbn [squareLabels dst]. exists label.
    split; [reflexivity|]. split; [right; now exists tr1, tr3|]. now intros ->.
Qed.

(** The same for [getPieceLabelsNN]. *)
Lemma pieceLabelsNNStep_label (currentRect : Rect) (s s' : labelState)
    (tr tr' : list event) :
  pieceLabelsNNStep cvtColor_BGR2GRAY Canny putText classifier
                    temp showLabels currentRect s tr = (tr', Ok s') ->
  exists label,
    squareLabels s' = squareLabels s ++ [label]
    /\ encodable label
    /\ (showLabels = false -> dst s' = dst s).
Proof.
  unfold pieceLabelsNNStep. intros H.
  apply bindM_Ok_inv in H as (tr1 & empty & _ & H).
  apply bindM_Ok_inv in H as (tr2 & s1 & H1 & H).
  injection H as _ <-. cbn [squareLabels dst].
  destruct empty.
  - injection H1 as _ <-. cbn [squareLabels dst]. exists "ee".
    split; [reflexivity|]. split; [now left|]. now intros ->.
  - apply bindM_Ok_inv in H1 as (tr3 & label & Hlabel & H1).
    injection H1 as _ <-. cbn [squareLabels dst]. exists label.
    split; [reflexivity|]. split; [|now intros ->].
    right. eapply getNNPieceLabel_label. exact Hlabel.
Qed.

End Labels.

(** What a run of [getPieceLabels] that ends normally leaves: one label per
    rectangle, each satisfying [ok], after the labels the vector held; and
    the image of the call when nothing is to be shown.  [ok] is any property
    that ["ee"] has and that the labels of [computeHistogramDiffs] on the
    image of the call have. *)
Lemma getPieceLabels_loop
    (cvtColor_BGR2GRAY : Mat Vec3b -> outcome (Mat Z))
    (Canny : Mat Z -> Z -> Z -> outcome (Mat Z))
    (putText : Mat Vec3b -> string -> Point2i -> Mat Vec3b)
    (lightLabels darkLabels : list string) (lightData darkData : list (list Q))
    (ok : string -> Prop)
    (dst0 dst1 : Mat Vec3b) (rectangles : list Rect) (labels0 labels1 : list string)
    (showLabels : bool) (tr tr' : list event) :
  ok "ee" ->
  (forall image currentRect labels featureData tr1 tr2 label,
      In currentRect rectangles ->
      (showLabels = false -> image = dst0) ->
      (labels = lightLabels /\ featureData = lightData
       \/ labels = darkLabels /\ featureData = darkData) ->
      computeHistogramDiffs image currentRect labels featureData 16 tr1 = (tr2, Ok label) ->
      ok label) ->
  getPieceLabels cvtColor_BGR2GRAY Canny putText lightLabels darkLabels lightData darkData
                 dst0 rectangles labels0 showLabels tr = (tr', Ok (dst1, labels1)) ->
  exists new,
    labels1 = labels0 ++ new
    /\ length new = length rectangles
    /\ Forall ok new
    /\ (showLabels = false -> dst1 = dst0).
Proof.
  intros Hee Hok. unfold getPieceLabels. intros H.
  apply bindM_Ok_inv in H as (tr1 & s & Hloop & H). injection H as _ <- <-.
  apply (for_each_count
           (fun n s => exists new, squareLabels s = labels0 ++ new
                                   /\ length new = n /\ Forall ok new
                                   /\ (showLabels = false -> dst s = dst0))
           _ _ 0%nat) in Hloop.
  - exact Hloop.
  - intros k currentRect s1 s2 tra trb Hin (new & Hnew & Hlen & Hall & Hdst) Hstep.
    apply pieceLabelsStep_label in Hstep as (label & Hlabel & Hcase & Himage).
    exists (new ++ [label]). rewrite Hlabel, Hnew, app_assoc.
    split; [reflexivity|]. split; [rewrite length_app; cbn [length]; lia|].
    split; [|intros Hshow; rewrite (Himage Hshow); exact (Hdst Hshow)].
    apply Forall_app. split; [exact Hall|]. constructor; [|constructor].
    destruct Hcase as [-> | (trc & trd & Hcase)]; [exact Hee|].
    destruct (isDarkSquare s1).
    + eapply (Hok (dst s1) currentRect darkLabels darkData); eauto.
    + eapply (Hok (dst s1) currentRect lightLabels lightData); eauto.
  - exists []. rewrite app_nil_r. cbn [dst squareLabels]. repeat split. constructor.
Qed.

(** ** Labels that can be encoded *)

Lemma map_at_pieceToFen (label : string) :
  (In label PIECE_VALUES /\ exists c, map_at pieceToFen label = Ok c)
  \/ (~ In label PIECE_VALUES /\ map_at pieceToFen label = Fault std_out_of_range).
Proof.
  unfold pieceToFen. cbn [map_at].
  repeat match goal with
         | |- context [String.eqb ?k label] =>
             destruct (String.eqb_spec k label) as [<-|?];
             [left; split; [cbn; tauto | eexists; reflexivity]|]
         end.
  right. split; [|reflexivity].
  cbn [PIECE_VALUES In]. intuition congruence.
Qed.

Lemma fenStep_cases (i : Z) (label : string) (st : Z * string) :
  (encodable label /\ exists st', fenStep i label st = Ok st')
  \/ (~ encodable label /\ fenStep i label st = Fault std_out_of_range).
Proof.
  unfold fenStep, encodable.
  set (st1 := if (i mod 8 =? 0) && negb (i =? 0) then _ else st).
  destruct (String.eqb_spec label "ee") as [->|Hee].
  - left. split; [now left|]. destruct st1. eexists. reflexivity.
  - destruct (flushEmpty st1) as [n fen].
    destruct (map_at_pieceToFen label) as [[Hin [c ->]] | [Hnot ->]]; cbn [bind].
    + left. split; [now right|]. eexists. reflexivity.
    + right. split; [tauto | reflexivity].
Qed.

(** The loop of [getFenFromLabels] ends normally when every label can be
    encoded and throws [std::out_of_range] otherwise. *)
Lemma fenLoop_cases (labels : list string) :
  forall (i : Z) (st : Z * string),
    (Forall encodable labels /\ exists st', fenLoop labels i st = Ok st')
    \/ (Exists (fun label => ~ encodable label) labels
        /\ fenLoop labels i st = Fault std_out_of_range).
Proof.
  induction labels as [|label rest IH]; intros i st; cbn [fenLoop].
  - left. split; [constructor | now exists st].
  - destruct (fenStep_cases i label st) as [[Hok [st1 ->]] | [Hbad ->]]; cbn [bind].
    + destruct (IH (i + 1) st1) as [[Hall Hrest] | [Hex Hrest]].
      * left. split; [now constructor | exact Hrest].
      * right. split; [now apply Exists_cons_tl | exact Hrest].
    + right. split; [now apply Exists_cons_hd | reflexivity].
Qed.

Lemma readTurn_not_out_of_range (input out : list string) (io' : console) :
  readTurn input out <> (io', Fault std_out_of_range).
Proof.
  revert out. induction input as [|tok rest IH]; intros out; cbn [readTurn].
  - discriminate.
  - destruct (String.eqb tok "w" || String.eqb tok "b"); [discriminate | apply IH].
Qed.

Lemma getFenFromLabels_cases (squareLabels : list string) (io : console) :
  length squareLabels = 64%nat ->
  (Forall encodable squareLabels
   /\ snd (getFenFromLabels squareLabels io) <> Fault std_out_of_range
   /\ (forall turn rest, stdin io = turn :: rest -> turn = "w" \/ turn = "b" ->
         exists fen, fen <> "" /\ snd (getFenFromLabels squareLabels io) = Ok fen))
  \/ (Exists (fun label => ~ encodable label) squareLabels
      /\ getFenFromLabels squareLabels io = (io, Fault std_out_of_range)).
Proof.
  intros Hlen. unfold getFenFromLabels. rewrite Hlen. cbn [Nat.eqb negb].
  destruct (fenLoop_cases squareLabels 0 (0, "")) as [[Hall [[n fen] ->]] | [Hex ->]].
  - left. split; [exact Hall|]. split.
    + destruct (readTurn (stdin io) (stdout io)) as [io1 [turn|f]] eqn:E; cbn [snd].
      * discriminate.
      * intros [= ->]. exact (readTurn_not_out_of_range _ _ _ E).
    + intros turn rest Hin Hturn. rewrite Hin, readTurn_given by exact Hturn.
      cbn [snd]. eexists. split; [|reflexivity].
      intros E. apply string_app_nil in E as [_ E]. discriminate E.
  - right. split; [exact Hex | reflexivity].
Qed.

(** X14. [getFenFromLabels] on 64 labels throws [std::out_of_range] exactly
    when one of the labels is neither ["ee"] nor one of the twelve piece
    labels; it then has printed nothing and read nothing. *)
Theorem getFenFromLabels_out_of_range (squareLabels : list string) (io : console) :
  length squareLabels = 64%nat ->
  (snd (getFenFromLabels squareLabels io) = Fault std_out_of_range
   <-> exists label, In label squareLabels /\ label <> "ee" /\ ~ In label PIECE_VALUES)
  /\ (snd (getFenFromLabels squareLabels io) = Fault std_out_of_range ->
      fst (getFenFromLabels squareLabels io) = io).
Proof.
  intros Hlen.
  destruct (getFenFromLabels_cases squareLabels io Hlen) as [[Hall [Hno _]] | [Hex E]].
  - split; [split|]; try (intros H; contradiction).
    intros (label & Hin & Hee & Hpiece). rewrite Forall_forall in Hall.
    destruct (Hall label Hin); contradiction.
  - rewrite E. cbn [fst snd]. split; [split|]; trivial.
    intros _. apply Exists_exists in Hex as (label & Hin & Hbad).
    exists label. unfold encodable in Hbad. tauto.
Qed.

Lemma getFenFromLabels_out_of_range_witness :
  (snd (getFenFromLabels (repeat "ee" 63 ++ [""]) (mkConsole ["w"] []))
   = Fault std_out_of_range
   <-> exists label, In label (repeat "ee" 63 ++ [""]) /\ label <> "ee"
                     /\ ~ In label PIECE_VALUES)
  /\ (snd (getFenFromLabels (repeat "ee" 63 ++ [""]) (mkConsole ["w"] []))
      = Fault std_out_of_range ->
      fst (getFenFromLabels (repeat "ee" 63 ++ [""]) (mkConsole ["w"] []))
      = mkConsole ["w"] []).
Proof.
  apply (getFenFromLabels_out_of_range (repeat "ee" 63 ++ [""]) (mkConsole ["w"] [])).
  reflexivity.
Defined.

(** X15. A call of [getPieceLabels] that ends normally appends exactly one
    label per rectangle to the vector it is given (it does not clear the
    vector): ["ee"], a label of one of the two feature tables, or the empty
    string.  When [showLabels] is false the image is left as it was. *)
Theorem getPieceLabels_appends
    (cvtColor_BGR2GRAY : Mat Vec3b -> outcome (Mat Z))
    (Canny : Mat Z -> Z -> Z -> outcome (Mat Z))
    (putText : Mat Vec3b -> string -> Point2i -> Mat Vec3b)
    (lightLabels darkLabels : list string) (lightData darkData : list (list Q))
    (dst0 dst1 : Mat Vec3b) (rectangles : list Rect) (labels0 labels1 : list string)
    (showLabels : bool) (tr tr' : list event) :
  getPieceLabels cvtColor_BGR2GRAY Canny putText lightLabels darkLabels
                 lightData darkData dst0 rectangles labels0 showLabels tr
  = (tr', Ok (dst1, labels1)) ->
  exists new,
    labels1 = labels0 ++ new
    /\ length new = length rectangles
    /\ Forall (fun label => label = "ee" \/ label = ""
                            \/ In label lightLabels \/ In label darkLabels) new
    /\ (showLabels = false -> dst1 = dst0).
Proof.
  intros H. eapply getPieceLabels_loop; [| |exact H].
  - now left.
  - intros image currentRect labels featureData tr1 tr2 label _ _ Htable Hlabel.
    apply computeHistogramDiffs_label in Hlabel.
    destruct Htable as [[-> _] | [-> _]]; tauto.
Qed.

Lemma getPieceLabels_appends_witness :
  exists tr' dst1 labels1,
    getPieceLabels blueGray markEdges noText ["wp"] ["bp"] [zeroFeature] [zeroFeature]
                   twoTiles twoRects ["wk"] false [] = (tr', Ok (dst1, labels1))
    /\ exists new,
         labels1 = ["wk"] ++ new
         /\ length new = length twoRects
         /\ Forall (fun label => label = "ee" \/ label = ""
                                 \/ In label ["wp"] \/ In label ["bp"]) new
         /\ (false = false -> dst1 = twoTiles).
Proof.
  do 3 eexists.
  refine ((fun run =>
             conj run
               (getPieceLabels_appends blueGray markEdges noText ["wp"] ["bp"]
                  [zeroFeature] [zeroFeature] twoTiles _ twoRects ["wk"] _ false [] _
                  run)) _).
  vm_compute. reflexivity.
Defined.

(** X16. A call of [getPieceLabelsNN] that ends normally appends exactly one
    label per rectangle to the vector it is given, each of them ["ee"] or
    one of [PIECE_VALUES]; when [showLabels] is false the image is left as
    it was. *)
Theorem getPieceLabelsNN_appends
    (cvtColor_BGR2GRAY : Mat Vec3b -> outcome (Mat Z))
    (Canny : Mat Z -> Z -> Z -> outcome (Mat Z))
    (putText : Mat Vec3b -> string -> Point2i -> Mat Vec3b)
    (classifier : Mat Vec3b -> outcome (list Q))
    (dst0 dst1 : Mat Vec3b) (rectangles : list Rect) (labels0 labels1 : list string)
    (showLabels : bool) (tr tr' : list event) :
  getPieceLabelsNN cvtColor_BGR2GRAY Canny putText classifier
                   dst0 rectangles labels0 showLabels tr
  = (tr', Ok (dst1, labels1)) ->
  exists new,
    labels1 = labels0 ++ new
    /\ length new = length rectangles
    /\ Forall (fun label => label = "ee" \/ In label PIECE_VALUES) new
    /\ (showLabels = false -> dst1 = dst0).
Proof.
  unfold getPieceLabelsNN. intros H.
  apply bindM_Ok_inv in H as (tr1 & s & Hloop & H). injection H as _ <- <-.
  apply (for_each_count
           (fun n s => exists new, squareLabels s = labels0 ++ new
                                   /\ length new = n /\ Forall encodable new
                                   /\ (showLabels = false -> dst s = dst0))
           _ _ 0%nat) in Hloop.
  - exact Hloop.
  - intros k currentRect s1 s2 tra trb Hin (new & Hnew & Hlen & Hall & Hdst) Hstep.
    apply pieceLabelsNNStep_label in Hstep as (label & Hlabel & Hcase & Himage).
    exists (new ++ [label]). rewrite Hlabel, Hnew, app_assoc.
    split; [reflexivity|]. split; [rewrite length_app; cbn [length]; lia|].
    split; [|intros Hshow; rewrite (Himage Hshow); exact (Hdst Hshow)].
    apply Forall_app. split; [exact Hall|]. constructor; [exact Hcase | constructor].
  - exists []. rewrite app_nil_r. cbn [dst squareLabels]. repeat split. constructor.
Qed.

Lemma getPieceLabelsNN_appends_witness :
  exists tr' dst1 labels1,
    getPieceLabelsNN blueGray markEdges noText firstClass
                     twoTiles twoRects ["wk"] false [] = (tr', Ok (dst1, labels1))
    /\ exists new,
         labels1 = ["wk"] ++ new
         /\ length new = length twoRects
         /\ Forall (fun label => label = "ee" \/ In label PIECE_VALUES) new
         /\ (false = false -> dst1 = twoTiles).
Proof.
  do 3 eexists.
  refine ((fun run =>
             conj run
               (getPieceLabelsNN_appends blueGray markEdges noText firstClass
                  twoTiles _ twoRects ["wk"] _ false [] _ run)) _).
  vm_compute. reflexivity.
Defined.

(** ** From the labels to the notation *)

(** A feature table whose labels are piece labels. *)
Lemma computeHistogramDiffs_piece (image : Mat Vec3b) (currentRect : Rect)
    (labels : list string) (featureData : list (list Q)) (tr1 tr2 : list event)
    (label : string) :
  ucharImage image = true ->
  0 < width currentRect -> 0 < height currentRect ->
  pieceTable labels featureData ->
  computeHistogramDiffs image currentRect labels featureData 16 tr1 = (tr2, Ok label) ->
  In label PIECE_VALUES.
Proof.
  intros Himage Hw Hh (Hne & Htable & Hpieces) Hrun.
  assert (Hroi : exists square, roi image currentRect = Ok square).
  { unfold computeHistogramDiffs in Hrun.
    apply bindM_Ok_inv in Hrun as (tr3 & square & Hroi & _).
    injection Hroi as _ Hroi. now exists square. }
  destruct Hroi as [square Hroi].
  destruct (computeHistogramDiffs_loop image square currentRect labels featureData 16 tr1
              Himage Hroi Hw Hh ltac:(lia) Htable) as [_ (best & E & Hbest)].
  rewrite E in Hrun. injection Hrun as _ <-.
  cbn zeta in Hbest. unfold bestSoFar in Hbest.
  destruct Hbest as [[Hzero _] | (i & Hi & _ & -> & _)].
  - destruct labels; [contradiction | discriminate].
  - rewrite Forall_forall in Hpieces. apply Hpieces. apply nth_In. exact Hi.
Qed.

(** X17. From the squares to the notation, as [handleBoardFlow] chains the
    two calls: when both feature tables are non-empty tables of 256-bin
    histograms under piece labels, the image has [uchar] pixels and each of
    the 64 rectangles has at least one pixel, the labels that a normal run
    of [getPieceLabels(dst, rectangles, squareLabels)] leaves are 64 labels
    that [getFenFromLabels] encodes: it never throws [std::out_of_range],
    and it returns a non-empty string as soon as the input holds the
    turn. *)
Theorem getPieceLabels_encodable
    (cvtColor_BGR2GRAY : Mat Vec3b -> outcome (Mat Z))
    (Canny : Mat Z -> Z -> Z -> outcome (Mat Z))
    (putText : Mat Vec3b -> string -> Point2i -> Mat Vec3b)
    (lightLabels darkLabels : list string) (lightData darkData : list (list Q))
    (dst0 dst1 : Mat Vec3b) (rectangles : list Rect) (labels : list string)
    (tr tr' : list event) :
  ucharImage dst0 = true ->
  length rectangles = 64%nat ->
  Forall (fun r => 0 < width r /\ 0 < height r) rectangles ->
  pieceTable lightLabels lightData ->
  pieceTable darkLabels darkData ->
  getPieceLabels cvtColor_BGR2GRAY Canny putText lightLabels darkLabels
                 lightData darkData dst0 rectangles [] false tr
  = (tr', Ok (dst1, labels)) ->
  length labels = 64%nat
  /\ Forall encodable labels
  /\ (forall io, snd (getFenFromLabels labels io) <> Fault std_out_of_range)
  /\ (forall io turn rest,
         stdin io = turn :: rest -> turn = "w" \/ turn = "b" ->
         exists fen, fen <> "" /\ snd (getFenFromLabels labels io) = Ok fen).
Proof.
  intros Himage Hlen Hrects Hlight Hdark Hrun.
  destruct (getPieceLabels_loop cvtColor_BGR2GRAY Canny putText lightLabels darkLabels
              lightData darkData encodable dst0 dst1 rectangles [] labels false tr tr')
    as (new & -> & Hnew & Hall & _); [now left | | exact Hrun |].
  { intros image currentRect table featureData tr1 tr2 label Hin Hdst Htable Hlabel.
    right. rewrite Forall_forall in Hrects. destruct (Hrects currentRect Hin) as [Hw Hh].
    apply (computeHistogramDiffs_piece image currentRect table featureData tr1 tr2);
      try assumption.
    - rewrite (Hdst eq_refl). exact Himage.
    - destruct Htable as [[-> ->] | [-> ->]]; assumption. }
  cbn [app]. assert (H64 : length new = 64%nat) by congruence.
  split; [exact H64|]. split; [exact Hall|].
  split.
  - intros io. destruct (getFenFromLabels_cases new io H64) as [[_ [Hno _]] | [Hex _]].
    + exact Hno.
    + exfalso. apply Exists_exists in Hex as (label & Hin & Hbad).
      rewrite Forall_forall in Hall. exact (Hbad (Hall label Hin)).
  - intros io turn rest Hin Hturn.
    destruct (getFenFromLabels_cases new io H64) as [[_ [_ Hfen]] | [Hex _]].
    + exact (Hfen turn rest Hin Hturn).
    + exfalso. apply Exists_exists in Hex as (label & Hl & Hbad).
      rewrite Forall_forall in Hall. exact (Hbad (Hall label Hl)).
Qed.

Lemma getPieceLabels_encodable_witness :
  exists tr' dst1 labels,
    getPieceLabels blueGray markEdges noText ["wp"] ["bp"] [zeroFeature] [zeroFeature]
                   twoTiles tileRects [] false [] = (tr', Ok (dst1, labels))
    /\ length labels = 64%nat
    /\ Forall encodable labels
    /\ (forall io, snd (getFenFromLabels labels io) <> Fault std_out_of_range)
    /\ (forall io turn rest,
           stdin io = turn :: rest -> turn = "w" \/ turn = "b" ->
           exists fen, fen <> "" /\ snd (getFenFromLabels labels io) = Ok fen).
Proof.
  do 3 eexists.
  refine ((fun run =>
             conj run
               (getPieceLabels_encodable blueGray markEdges noText ["wp"] ["bp"]
                  [zeroFeature] [zeroFeature] twoTiles _ tileRects _ [] _
                  eq_refl eq_refl _ _ _ run)) _).
  - apply Forall_app. split.
    + apply Forall_forall. intros r Hr. apply repeat_spec in Hr. subst r. cbn. lia.
    + constructor; [cbn; lia | constructor].
  - split; [discriminate|]. split; [split; [reflexivity|]|].
    + constructor; [|constructor]. split; [reflexivity|].
      apply Forall_forall. intros v Hv. apply repeat_spec in Hv. subst v. discriminate.
    + constructor; [cbn; tauto | constructor].
  - split; [discriminate|]. split; [split; [reflexivity|]|].
    + constructor; [|constructor]. split; [reflexivity|].
      apply Forall_forall. intros v Hv. apply repeat_spec in Hv. subst v. discriminate.
    + constructor; [cbn; tauto | constructor].
  - vm_compute. reflexivity.
Defined.

(** X18. Without feature tables (the two feature files are missing or
    empty), a normal run of [getPieceLabels] on 64 rectangles labels every
    square ["ee"] or with the empty string; unless every square was found
    empty, [getFenFromLabels] then throws [std::out_of_range] on the labels,
    whatever the console holds. *)
Theorem getPieceLabels_missing_tables
    (cvtColor_BGR2GRAY : Mat Vec3b -> outcome (Mat Z))
    (Canny : Mat Z -> Z -> Z -> outcome (Mat Z))
    (putText : Mat Vec3b -> string -> Point2i -> Mat Vec3b)
    (lightData darkData : list (list Q))
    (dst0 dst1 : Mat Vec3b) (rectangles : list Rect) (labels : list string)
    (showLabels : bool) (tr tr' : list event) :
  length rectangles = 64%nat ->
  getPieceLabels cvtColor_BGR2GRAY Canny putText [] [] lightData darkData
                 dst0 rectangles [] showLabels tr
  = (tr', Ok (dst1, labels)) ->
  Forall (fun label => label = "ee" \/ label = "") labels
  /\ (labels = repeat "ee" 64
      \/ forall io, getFenFromLabels labels io = (io, Fault std_out_of_range)).
Proof.
  intros Hlen Hrun.
  destruct (getPieceLabels_loop cvtColor_BGR2GRAY Canny putText [] [] lightData darkData
              (fun label => label = "ee" \/ label = "")
              dst0 dst1 rectangles [] labels showLabels tr tr')
    as (new & -> & Hnew & Hall & _); [now left | | exact Hrun |].
  { intros image currentRect table featureData tr1 tr2 label _ _ Htable Hlabel.
    apply computeHistogramDiffs_label in Hlabel.
    destruct Htable as [[-> _] | [-> _]]; cbn [In] in Hlabel; tauto. }
  cbn [app]. split; [exact Hall|].
  assert (H64 : length new = 64%nat) by congruence.
  assert (Hcases : Forall (fun label => label = "ee") new \/ In "" new).
  { clear -Hall. induction Hall as [|label rest [-> | ->] _ IH].
    - left. constructor.
    - destruct IH as [IH | IH]; [left; now constructor | right; now right].
    - right. now left. }
  destruct Hcases as [Hee | Hin].
  - left. rewrite <- H64. clear -Hee. induction Hee as [|label rest -> _ IH].
    + reflexivity.
    + cbn [length repeat]. now rewrite <- IH.
  - right. intros io.
    destruct (getFenFromLabels_cases new io H64) as [[Hok _] | [_ E]]; [|exact E].
    exfalso. rewrite Forall_forall in Hok.
    destruct (Hok "" Hin) as [E | E]; [discriminate E|].
    cbn in E. intuition discriminate.
Qed.

Lemma getPieceLabels_missing_tables_witness :
  exists tr' dst1 labels,
    getPieceLabels blueGray markEdges noText [] [] [] []
                   twoTiles tileRects [] false [] = (tr', Ok (dst1, labels))
    /\ Forall (fun label => label = "ee" \/ label = "") labels
    /\ (labels = repeat "ee" 64
        \/ forall io, getFenFromLabels labels io = (io, Fault std_out_of_range)).
Proof.
  do 3 eexists.
  refine ((fun run =>
             conj run
               (getPieceLabels_missing_tables blueGray markEdges noText [] []
                  twoTiles _ tileRects _ false [] _ eq_refl run)) _).
  vm_compute. reflexivity.
Defined.

Example getPieceLabels_no_tables :
  snd (getPieceLabels blueGray markEdges noText [] [] [] []
                      twoTiles tileRects [] false [])
  = Ok (twoTiles, repeat "ee" 63 ++ [""]).
Proof. vm_compute. reflexivity. Qed.

(* ------------------------------------------------------------------ *)
(** ** The feature files *)

Lemma c_str_plain (s : string) : plainString s = true -> c_str s = s.
Proof.
  induction s as [|ch s IH]; cbn [plainString c_str]; [reflexivity|].
  intros H. apply andb_true_iff in H as [Hch Hs]. unfold plainChar in Hch.
  destruct (Ascii.eqb ch NUL); [now rewrite !andb_false_r in Hch|].
  now rewrite IH.
Qed.

Lemma plainChar_cases (ch : ascii) :
  plainChar ch = true ->
  Ascii.eqb ch "," = false /\ Ascii.eqb ch newline = false
  /\ Ascii.eqb ch EOF_char = false /\ Ascii.eqb ch NUL = false.
Proof.
  unfold plainChar.
  destruct (Ascii.eqb ch ","), (Ascii.eqb ch newline), (Ascii.eqb ch EOF_char),
    (Ascii.eqb ch NUL); cbn; intros H; try discriminate H; now repeat split.
Qed.

(** A field of plain characters that fits the buffer is read up to its
    separator. *)
Lemma scanField_field (capacity : nat) (field : string) :
  forall (os : string) (sep : ascii) (rest : string),
    plainString field = true ->
    (String.length os + String.length field < capacity)%nat ->
    sep = ","%char \/ sep = newline ->
    scanField capacity (field ++ String sep rest) os
    = Ok ((os ++ field)%string, negb (Ascii.eqb sep ","), rest).
Proof.
  induction field as [|ch field IH]; intros os sep rest Hplain Hlen Hsep.
  - cbn [String.append scanField]. rewrite string_app_nil_r.
    cbn [String.length] in Hlen. unfold endField.
    destruct (Nat.leb_spec capacity (String.length os)); [lia|].
    destruct Hsep as [-> | ->]; reflexivity.
  - cbn [String.append scanField]. cbn [plainString] in Hplain.
    apply andb_true_iff in Hplain as [Hch Hfield].
    apply plainChar_cases in Hch as (-> & -> & -> & _). cbn [orb].
    cbn [String.length] in Hlen.
    destruct (Nat.leb_spec capacity (String.length os)); [lia|].
    rewrite IH; [|exact Hfield | rewrite string_length_app; cbn; lia | exact Hsep].
    rewrite string_app_assoc. reflexivity.
Qed.

Lemma scanField_char (ch : ascii) (rest : string) :
  plainChar ch = true ->
  scanField 256 (String ch (String "," rest)) "" = Ok (String ch EmptyString, false, rest).
Proof.
  intros Hch. change (String ch (String "," rest)) with (String ch "" ++ String "," rest)%string.
  rewrite scanField_field; [reflexivity | | cbn; lia | now left].
  cbn [plainString]. now rewrite Hch.
Qed.

Section RoundTrip.

Variable atof : string -> Q.
Variable sprintf_4f : Q -> string.

Lemma writeValues_text (image_data : list Q) :
  forall fp, Forall (writable sprintf_4f) image_data ->
             writeValues sprintf_4f image_data fp = Ok (fp ++ valuesText sprintf_4f image_data)%string.
Proof.
  induction image_data as [|v rest IH]; intros fp Hall; cbn [writeValues valuesText].
  - now rewrite string_app_nil_r.
  - inversion Hall as [|? ? [Hplain Hlen] Hrest]; subst.
    cbn [String.append String.length].
    destruct (Nat.leb_spec 256 (Datatypes.S (String.length (sprintf_4f v)))); [lia|].
    assert (Hc : c_str (String "," (sprintf_4f v)) = String "," (sprintf_4f v)).
    { cbn [c_str]. change (Ascii.eqb "," NUL) with false. cbv iota.
      now rewrite (c_str_plain _ Hplain). }
    rewrite Hc, IH by exact Hrest.
    rewrite string_app_assoc. reflexivity.
Qed.

Lemma append_image_data_csv_text (file : string) (r : csvRecord) :
  storable sprintf_4f r ->
  append_image_data_csv sprintf_4f file (fst (fst r)) (snd (fst r)) (snd r) false
  = Ok (file ++ recordText sprintf_4f r)%string.
Proof.
  destruct r as [[label_name pieceColor] image_data].
  intros (Hl & Hc & _ & Hall). cbn [fst snd].
  unfold append_image_data_csv, recordText.
  assert (E : c_str (String label_name (String "," (String pieceColor EmptyString)))
              = String label_name (String "," (String pieceColor EmptyString))).
  { apply plainChar_cases in Hl as (_ & _ & _ & Hl).
    apply plainChar_cases in Hc as (_ & _ & _ & Hc).
    cbn [c_str]. rewrite Hl, Hc. change (Ascii.eqb "," NUL) with false. reflexivity. }
  rewrite E, writeValues_text by exact Hall. cbn [bind].
  rewrite !string_app_assoc. reflexivity.
Qed.

(** Reading the values of a line back. *)
Lemma readValues_text (image_data : list Q) :
  forall (v : Q) (fuel : nat) (dvec : list Q) (rest : string),
    Forall (writable sprintf_4f) (v :: image_data) ->
    (length image_data < fuel)%nat ->
    readValues atof fuel
               (sprintf_4f v ++ valuesText sprintf_4f image_data ++ String newline rest) dvec
    = Ok (dvec ++ map (fun v => atof (sprintf_4f v)) (v :: image_data), rest).
Proof.
  induction image_data as [|w image_data IH]; intros v fuel dvec rest Hall Hfuel;
    inversion Hall as [|? ? [Hplain Hlen] Hrest]; subst;
    (destruct fuel as [|fuel]; [cbn [length] in Hfuel; lia|]);
    cbn [readValues valuesText]; unfold getfloat.
  - cbn [String.append].
    rewrite scanField_field; [|exact Hplain | cbn; lia | now right].
    cbn [String.append negb]. rewrite (c_str_plain _ Hplain).
    change (Ascii.eqb newline ",") with false. cbn [negb map]. reflexivity.
  - cbn [String.append].
    rewrite scanField_field; [|exact Hplain | cbn; lia | now left].
    cbn [String.append]. rewrite (c_str_plain _ Hplain).
    rewrite Ascii.eqb_refl. cbn [negb].
    rewrite string_app_assoc.
    rewrite IH; [|exact Hrest | cbn [length] in Hfuel; lia].
    cbn [map]. rewrite <- app_assoc. reflexivity.
Qed.

Lemma valuesText_length (image_data : list Q) :
  (length image_data <= String.length (valuesText sprintf_4f image_data))%nat.
Proof.
  induction image_data as [|v rest IH]; cbn [valuesText length String.append String.length].
  - lia.
  - rewrite string_length_app. lia.
Qed.

(** Reading a record back. *)
Lemma readRecords_text (r : csvRecord) (fuel : nat) (rest : string)
    (labels : list string) (data : list (list Q)) :
  storable sprintf_4f r ->
  readRecords atof (Datatypes.S fuel) (recordText sprintf_4f r ++ rest) labels data
  = readRecords atof fuel rest
      (labels ++ [labelRead r])
      (data ++ [valuesRead atof sprintf_4f r]).
Proof.
  destruct r as [[label_name pieceColor] image_data].
  intros (Hl & Hc & Hne & Hall). unfold labelRead, valuesRead. cbn [fst snd].
  destruct image_data as [|v image_data]; [contradiction|].
  unfold recordText. cbn [readRecords valuesText]. unfold getstring.
  cbn [String.append]. rewrite (scanField_char _ _ Hl), (scanField_char _ _ Hc).
  rewrite !string_app_assoc.
  rewrite (readValues_text image_data v _ [] rest Hall).
  - assert (El : c_str (String label_name EmptyString) = String label_name EmptyString)
      by (apply c_str_plain; cbn [plainString]; now rewrite Hl).
    assert (Ec : c_str (String pieceColor EmptyString) = String pieceColor EmptyString)
      by (apply c_str_plain; cbn [plainString]; now rewrite Hc).
    rewrite El, Ec. cbn [app String.append]. reflexivity.
  - rewrite !string_length_app. pose proof (valuesText_length image_data). lia.
Qed.

Lemma readRecords_end (fuel : nat) (labels : list string) (data : list (list Q)) :
  readRecords atof (Datatypes.S fuel) "" labels data = Ok (labels, data).
Proof. reflexivity. Qed.

Lemma recordText_length (r : csvRecord) : (1 <= String.length (recordText sprintf_4f r))%nat.
Proof. destruct r as [[l c] d]. cbn. lia. Qed.

Lemma appendRecords_text (records : list csvRecord) :
  forall file, Forall (storable sprintf_4f) records ->
               appendRecords sprintf_4f records file = Ok (file ++ recordsText sprintf_4f records)%string.
Proof.
  induction records as [|[[l c] d] rest IH]; intros file Hall;
    cbn [appendRecords recordsText].
  - now rewrite string_app_nil_r.
  - inversion Hall as [|? ? Hr Hrest]; subst.
    pose proof (append_image_data_csv_text file (l, c, d) Hr) as E.
    cbn [fst snd] in E. rewrite E. cbn [bind].
    rewrite IH by exact Hrest. rewrite string_app_assoc. reflexivity.
Qed.

Lemma readRecords_all (records : list csvRecord) :
  forall (fuel : nat) (labels : list string) (data : list (list Q)),
    Forall (storable sprintf_4f) records ->
    (length records < fuel)%nat ->
    readRecords atof fuel (recordsText sprintf_4f records) labels data
    = Ok (labels ++ map labelRead records,
          data ++ map (valuesRead atof sprintf_4f) records).
Proof.
  induction records as [|r rest IH]; intros fuel labels data Hall Hfuel;
    (destruct fuel as [|fuel]; [cbn [length] in Hfuel; lia|]).
  - cbn [recordsText map]. rewrite readRecords_end, !app_nil_r. reflexivity.
  - inversion Hall as [|? ? Hr Hrest]; subst. cbn [recordsText].
    rewrite readRecords_text by exact Hr.
    rewrite IH; [|exact Hrest | cbn [length] in Hfuel; lia].
    cbn [map]. rewrite <- !app_assoc. reflexivity.
Qed.

Lemma recordsText_length (records : list csvRecord) :
  (length records <= String.length (recordsText sprintf_4f records))%nat.
Proof.
  induction records as [|r rest IH]; cbn [recordsText length]; [lia|].
  rewrite string_length_app. pose proof (recordText_length r). lia.
Qed.

End RoundTrip.

(** ** Reading any file *)

Lemma endField_Ok (capacity : nat) (os : string) (eol : bool) (fp : string)
    (r : string * bool * string) :
  endField capacity os eol fp = Ok r -> r = (os, eol, fp).
Proof.
  unfold endField. destruct (capacity <=? String.length os)%nat; [discriminate|].
  now intros [= <-].
Qed.

Lemma endField_Fault (capacity : nat) (os : string) (eol : bool) (fp : string) (f : fault) :
  endField capacity os eol fp = Fault f -> exists i, f = UB_OutOfRange i capacity.
Proof.
  unfold endField. destruct (capacity <=? String.length os)%nat; [|discriminate].
  intros [= <-]. eexists. reflexivity.
Qed.

(** A field read consumed the field and its separator: the stream is
    shorter unless it was at its end. *)
Lemma scanField_Ok (capacity : nat) (fp : string) :
  forall (os s fp' : string) (eol : bool),
    scanField capacity fp os = Ok (s, eol, fp') ->
    (String.length fp' <= String.length fp)%nat
    /\ (eol = false -> String.length fp' < String.length fp)%nat.
Proof.
  induction fp as [|ch rest IH]; intros os s fp' eol; cbn [scanField String.length].
  - intros H. apply endField_Ok in H. injection H as _ -> ->.
    split; [reflexivity | discriminate].
  - destruct (Ascii.eqb ch ",").
    { intros H. apply endField_Ok in H. injection H as _ -> ->. split; intros; lia. }
    destruct (Ascii.eqb ch newline || Ascii.eqb ch EOF_char).
    { intros H. apply endField_Ok in H. injection H as _ -> ->. split; intros; lia. }
    destruct (capacity <=? String.length os)%nat; [discriminate|].
    intros H. apply IH in H. split; intros; lia.
Qed.

Lemma scanField_Fault (capacity : nat) (fp : string) :
  forall (os : string) (f : fault),
    scanField capacity fp os = Fault f -> exists i, f = UB_OutOfRange i capacity.
Proof.
  induction fp as [|ch rest IH]; intros os f; cbn [scanField].
  - apply endField_Fault.
  - destruct (Ascii.eqb ch ","); [apply endField_Fault|].
    destruct (Ascii.eqb ch newline || Ascii.eqb ch EOF_char); [apply endField_Fault|].
    destruct (capacity <=? String.length os)%nat; [|apply IH].
    intros [= <-]. eexists. reflexivity.
Qed.

Section AnyFile.

Variable atof : string -> Q.

Lemma readValues_total (fuel : nat) :
  forall (fp : string) (dvec : list Q),
    (String.length fp < fuel)%nat ->
    match readValues atof fuel fp dvec with
    | Ok (dvec', fp') =>
        (String.length fp' <= String.length fp)%nat
        /\ exists v values, dvec' = dvec ++ v :: values
    | Fault f => exists i, f = UB_OutOfRange i 256
    end.
Proof.
  induction fuel as [|fuel IH]; intros fp dvec Hfuel; [lia|].
  cbn [readValues]. unfold getfloat.
  destruct (scanField 256 fp "") as [[[s eol] fp1]|f] eqn:E.
  - apply scanField_Ok in E as [Hle Hlt].
    destruct eol.
    + split; [exact Hle|]. now exists (atof (c_str s)), [].
    + specialize (Hlt eq_refl).
      specialize (IH fp1 (dvec ++ [atof (c_str s)]) ltac:(lia)).
      destruct (readValues atof fuel fp1 (dvec ++ [atof (c_str s)])) as [[dvec' fp']|f];
        [|exact IH].
      destruct IH as [Hle' (v & values & ->)]. split; [lia|].
      exists (atof (c_str s)), (v :: values). now rewrite <- app_assoc.
  - eapply scanField_Fault. exact E.
Qed.

Lemma readRecords_total (fuel : nat) :
  forall (fp : string) (labels : list string) (data : list (list Q)),
    (String.length fp < fuel)%nat ->
    match readRecords atof fuel fp labels data with
    | Ok (labels', data') =>
        exists newLabels newData,
          labels' = labels ++ newLabels /\ data' = data ++ newData
          /\ length newLabels = length newData
          /\ Forall (fun dvec => dvec <> []) newData
    | Fault f => exists i, f = UB_OutOfRange i 256
    end.
Proof.
  induction fuel as [|fuel IH]; intros fp labels data Hfuel; [lia|].
  cbn [readRecords]. unfold getstring.
  assert (Hstop : exists (newLabels : list string) (newData : list (list Q)),
             labels = labels ++ newLabels /\ data = data ++ newData
             /\ length newLabels = length newData
             /\ Forall (fun dvec => dvec <> []) newData).
  { exists [], []. rewrite !app_nil_r. repeat split. constructor. }
  destruct (scanField 256 fp "") as [[[label eol1] fp1]|f] eqn:E1;
    [|eapply scanField_Fault; exact E1].
  apply scanField_Ok in E1 as [_ Hlt1]. destruct eol1; [exact Hstop|].
  specialize (Hlt1 eq_refl).
  destruct (scanField 256 fp1 "") as [[[color eol2] fp2]|f] eqn:E2;
    [|eapply scanField_Fault; exact E2].
  apply scanField_Ok in E2 as [_ Hlt2]. destruct eol2; [exact Hstop|].
  specialize (Hlt2 eq_refl).
  pose proof (readValues_total (Datatypes.S (String.length fp2)) fp2 [] ltac:(lia)) as Hv.
  destruct (readValues atof (Datatypes.S (String.length fp2)) fp2 [])
    as [[dvec fp3]|f]; [|exact Hv].
  destruct Hv as [Hle3 (v & values & Hdvec)].
  specialize (IH fp3 (labels ++ [(c_str color ++ c_str label)%string]) (data ++ [dvec])
                ltac:(lia)).
  destruct (readRecords atof fuel fp3 _ _) as [[labels' data']|f]; [|exact IH].
  destruct IH as (newLabels & newData & -> & -> & Hlen & Hall).
  exists ((c_str color ++ c_str label)%string :: newLabels), (dvec :: newData).
  rewrite <- !app_assoc. cbn [app length]. repeat split; [now rewrite Hlen|].
  constructor; [|exact Hall]. rewrite Hdvec. cbn [app]. discriminate.
Qed.

(** A first line without a second comma ends the reading. *)
Lemma readRecords_short (fuel : nat) (label : string) (rest : string)
    (labels : list string) (data : list (list Q)) :
  plainString label = true -> (String.length label < 256)%nat ->
  readRecords atof (Datatypes.S fuel) (label ++ String newline rest) labels data
  = Ok (labels, data).
Proof.
  intros Hplain Hlen. cbn [readRecords]. unfold getstring.
  rewrite scanField_field; [reflexivity | exact Hplain | cbn; lia | now right].
Qed.

End AnyFile.

Lemma scanField_full (fp os : string) :
  String.length os = 256%nat ->
  scanField 256 fp os = Fault (UB_OutOfRange 256 256).
Proof.
  intros Hlen. destruct fp as [|ch rest]; cbn [scanField]; unfold endField; rewrite Hlen.
  - reflexivity.
  - destruct (Ascii.eqb ch ","); [reflexivity|].
    destruct (Ascii.eqb ch newline || Ascii.eqb ch EOF_char); reflexivity.
Qed.

Lemma scanField_long (field : string) :
  forall (os rest : string),
    plainString field = true ->
    (String.length os <= 256)%nat ->
    (256 <= String.length os + String.length field)%nat ->
    scanField 256 (field ++ rest) os = Fault (UB_OutOfRange 256 256).
Proof.
  induction field as [|ch field IH]; intros os rest Hplain Hos Hlen.
  - cbn [String.length] in Hlen. apply scanField_full. lia.
  - destruct (Nat.eq_dec (String.length os) 256) as [E|E]; [now apply scanField_full|].
    cbn [String.append scanField]. cbn [plainString] in Hplain.
    apply andb_true_iff in Hplain as [Hch Hfield].
    apply plainChar_cases in Hch as (-> & -> & -> & _). cbn [orb].
    destruct (Nat.leb_spec 256 (String.length os)); [lia|].
    apply IH; [exact Hfield | |]; rewrite string_length_app; cbn [String.length] in *; lia.
Qed.

(** X19. What [append_image_data_csv] stores, [read_image_data_csv] reads
    back: for records of plain characters with at least one value each,
    whose values [sprintf] writes in fewer than 255 plain characters,
    appending the records one after the other to an empty file succeeds, and
    reading the file appends to the two vectors, record by record, the label
    (the colour followed by the piece) and the values as [atof] reads what
    [sprintf] wrote; it prints nothing and returns 0. *)
Theorem read_image_data_csv_round_trip (atof : string -> Q) (sprintf_4f : Q -> string)
    (records : list csvRecord) :
  Forall (storable sprintf_4f) records ->
  exists file,
    appendRecords sprintf_4f records "" = Ok file
    /\ forall labels data,
         read_image_data_csv atof sprintf_4f (Some file) labels data false
         = ([], Ok (0, labels ++ map labelRead records,
                    data ++ map (valuesRead atof sprintf_4f) records)).
Proof.
  intros Hall. exists (recordsText sprintf_4f records). split.
  - rewrite appendRecords_text by exact Hall. reflexivity.
  - intros labels data. unfold read_image_data_csv.
    rewrite readRecords_all; [reflexivity | exact Hall |].
    pose proof (recordsText_length sprintf_4f records). lia.
Qed.

Lemma read_image_data_csv_round_trip_witness :
  exists file,
    appendRecords tenThousandths twoRecords "" = Ok file
    /\ forall labels data,
         read_image_data_csv fromTenThousandths tenThousandths (Some file) labels data false
         = ([], Ok (0, labels ++ map labelRead twoRecords,
                    data ++ map (valuesRead fromTenThousandths tenThousandths) twoRecords)).
Proof.
  apply (read_image_data_csv_round_trip fromTenThousandths tenThousandths twoRecords).
  repeat constructor; try discriminate; cbn; lia.
Defined.

Example read_image_data_csv_two_records :
  recordsText tenThousandths twoRecords
  = ("p,w,5000,0,5000" ++ String newline ("k,b,10000" ++ String newline ""))%string
  /\ read_image_data_csv fromTenThousandths tenThousandths
       (Some (recordsText tenThousandths twoRecords)) [] [] false
     = ([], Ok (0, ["wp"; "bk"], [[1 # 2; 0; 1 # 2]%Q; [1%Q]])).
Proof. split; vm_compute; reflexivity. Qed.

(** X20. [read_image_data_csv] on any contents of the file: it ends, either
    normally, returning 0 with as many labels as vectors of values appended
    to the two vectors and no vector of values empty, or by writing past a
    buffer of 256 bytes (a field of 256 bytes or more).  When the file
    cannot be opened it prints its message, returns -1 and leaves the two
    vectors as they are. *)
Theorem read_image_data_csv_any_file (atof : string -> Q) (sprintf_4f : Q -> string)
    (file : string) (labels : list string) (data : list (list Q)) (echo_file : bool) :
  match snd (read_image_data_csv atof sprintf_4f (Some file) labels data echo_file) with
  | Ok (code, labels', data') =>
      code = 0
      /\ exists newLabels newData,
           labels' = labels ++ newLabels /\ data' = data ++ newData
           /\ length newLabels = length newData
           /\ Forall (fun dvec => dvec <> []) newData
  | Fault f => exists i, f = UB_OutOfRange i 256
  end
  /\ read_image_data_csv atof sprintf_4f None labels data echo_file
     = ([("Unable to open feature file" ++ String newline "")%string],
        Ok (-1, labels, data)).
Proof.
  split; [|reflexivity]. unfold read_image_data_csv.
  pose proof (readRecords_total atof (Datatypes.S (String.length file)) file labels data
                ltac:(lia)) as H.
  destruct (readRecords atof (Datatypes.S (String.length file)) file labels data)
    as [[labels' data']|f]; cbn [snd].
  - split; [reflexivity | exact H].
  - exact H.
Qed.

(** X21. A first field of 256 plain characters or more makes
    [read_image_data_csv] write past its buffer [label[256]], whatever
    follows in the file. *)
Theorem read_image_data_csv_long_field (atof : string -> Q) (sprintf_4f : Q -> string)
    (field rest : string) (labels : list string) (data : list (list Q))
    (echo_file : bool) :
  plainString field = true ->
  (256 <= String.length field)%nat ->
  read_image_data_csv atof sprintf_4f (Some (field ++ rest)%string) labels data echo_file
  = ([], Fault (UB_OutOfRange 256 256)).
Proof.
  intros Hplain Hlen. unfold read_image_data_csv. cbn [readRecords]. unfold getstring.
  rewrite scanField_long; [reflexivity | exact Hplain | cbn; lia | cbn; lia].
Qed.

Lemma read_image_data_csv_long_field_witness :
  read_image_data_csv fromTenThousandths tenThousandths
    (Some (longField ++ ",w,5000" ++ String newline "")%string) [] [] false
  = ([], Fault (UB_OutOfRange 256 256)).
Proof.
  apply (read_image_data_csv_long_field fromTenThousandths tenThousandths longField).
  - reflexivity.
  - vm_compute. lia.
Defined.

(** X22. The reading stops at the first line with fewer than three fields
    (a blank line, or a record without values): for storable records
    followed by such a line, [read_image_data_csv] returns 0 with the
    records before the line, and whatever follows the line in the file is
    not read.  A record that [append_image_data_csv] is given without
    values is written as such a line. *)
Theorem read_image_data_csv_short_line (atof : string -> Q) (sprintf_4f : Q -> string)
    (records : list csvRecord) (line rest : string)
    (labels : list string) (data : list (list Q)) :
  Forall (storable sprintf_4f) records ->
  shortLine line ->
  read_image_data_csv atof sprintf_4f
    (Some (recordsText sprintf_4f records ++ line ++ String newline rest)%string)
    labels data false
  = ([], Ok (0, labels ++ map labelRead records,
             data ++ map (valuesRead atof sprintf_4f) records))
  /\ forall file label_name pieceColor,
       plainChar label_name = true -> plainChar pieceColor = true ->
       exists line',
         append_image_data_csv sprintf_4f file label_name pieceColor [] false
         = Ok (file ++ line' ++ String newline "")%string
         /\ shortLine line'.
Proof.
  intros Hall Hline. split.
  - unfold read_image_data_csv.
    rewrite string_length_app.
    assert (Hgen : forall fuel labels data,
               (length records < fuel)%nat ->
               readRecords atof fuel
                 (recordsText sprintf_4f records ++ line ++ String newline rest)%string
                 labels data
               = Ok (labels ++ map labelRead records,
                     data ++ map (valuesRead atof sprintf_4f) records)).
    { clear labels data. induction Hall as [|r rs Hr Hrs IH]; intros fuel labels data Hfuel;
        (destruct fuel as [|fuel]; [cbn [length] in Hfuel; lia|]).
      - cbn [recordsText String.append map]. rewrite !app_nil_r.
        destruct Hline as [[Hplain Hlen] | (a & b & -> & Ha & Hb & Hla & Hlb)].
        + apply readRecords_short; assumption.
        + cbn [readRecords]. unfold getstring. rewrite string_app_assoc.
          cbn [String.append].
          rewrite scanField_field; [|exact Ha | cbn; lia | now left].
          cbn [String.append]. rewrite Ascii.eqb_refl. cbn [negb].
          rewrite scanField_field; [reflexivity | exact Hb | cbn; lia | now right].
      - cbn [recordsText]. rewrite string_app_assoc, readRecords_text by exact Hr.
        rewrite IH by (cbn [length] in Hfuel; lia).
        cbn [map]. rewrite <- !app_assoc. reflexivity. }
    rewrite Hgen; [reflexivity|]. pose proof (recordsText_length sprintf_4f records). lia.
  - intros file label_name pieceColor Hl Hc.
    exists (String label_name (String "," (String pieceColor ""))).
    split.
    + unfold append_image_data_csv. cbn [writeValues bind c_str].
      apply plainChar_cases in Hl as (_ & _ & _ & ->).
      apply plainChar_cases in Hc as (_ & _ & _ & ->).
      change (Ascii.eqb "," NUL) with false. cbv iota.
      rewrite string_app_assoc. reflexivity.
    + right. exists (String label_name ""), (String pieceColor "").
      cbn [plainString String.length String.append]. rewrite Hl, Hc.
      repeat split; lia.
Qed.

Lemma read_image_data_csv_short_line_witness :
  read_image_data_csv fromTenThousandths tenThousandths
    (Some (recordsText tenThousandths twoRecords ++ "" ++ String newline "q,w,1")%string)
    [] [] false
  = ([], Ok (0, [] ++ map labelRead twoRecords,
             [] ++ map (valuesRead fromTenThousandths tenThousandths) twoRecords))
  /\ forall file label_name pieceColor,
       plainChar label_name = true -> plainChar pieceColor = true ->
       exists line',
         append_image_data_csv tenThousandths file label_name pieceColor [] false
         = Ok (file ++ line' ++ String newline "")%string
         /\ shortLine line'.
Proof.
  apply (read_image_data_csv_short_line fromTenThousandths tenThousandths twoRecords
           "" "q,w,1" [] []).
  - repeat constructor; try discriminate; cbn; lia.
  - left. split; [reflexivity | cbn; lia].
Defined.

(* ------------------------------------------------------------------ *)
(** ** addLabelFeatures *)

Lemma recordsText_app (sprintf_4f : Q -> string) (rs1 rs2 : list csvRecord) :
  recordsText sprintf_4f (rs1 ++ rs2)
  = (recordsText sprintf_4f rs1 ++ recordsText sprintf_4f rs2)%string.
Proof.
  induction rs1 as [|r rs1 IH]; cbn [app recordsText]; [reflexivity|].
  now rewrite IH, string_app_assoc.
Qed.

Lemma read_recordsText (atof : string -> Q) (sprintf_4f : Q -> string)
    (records : list csvRecord) (labels : list string) (data : list (list Q)) :
  Forall (storable sprintf_4f) records ->
  read_image_data_csv atof sprintf_4f (Some (recordsText sprintf_4f records)) labels data false
  = ([], Ok (0, labels ++ map labelRead records,
             data ++ map (valuesRead atof sprintf_4f) records)).
Proof.
  intros Hall. unfold read_image_data_csv.
  rewrite readRecords_all; [reflexivity | exact Hall |].
  pose proof (recordsText_length sprintf_4f records). lia.
Qed.

(** X23. Labelling a square: on feature files that hold storable records,
    for a rectangle inside the image, a piece and a colour that are plain
    characters, and a feature vector whose values [sprintf] can write,
    [addLabelFeatures] succeeds; it appends one record to the file of the
    colour of the square and leaves the other file as it is.  Read back,
    the record is the label made of the colour followed by the piece, with
    256 values: what [atof] reads of the histogram of the square. *)
Theorem addLabelFeatures_stores (atof : string -> Q) (sprintf_4f : Q -> string)
    (src square : Mat Vec3b) (rectangle : Rect) (label pieceColor : ascii)
    (isDarkSquare : bool) (lightRecords darkRecords : list csvRecord) :
  roi src rectangle = Ok square ->
  plainChar label = true -> plainChar pieceColor = true ->
  Forall (writable sprintf_4f) (convertMatToVec (getHistogramFeature square 16)) ->
  Forall (storable sprintf_4f) lightRecords ->
  Forall (storable sprintf_4f) darkRecords ->
  let features := convertMatToVec (getHistogramFeature square 16) in
  let record : csvRecord := (label, pieceColor, features) in
  let lightRecords' := if isDarkSquare then lightRecords else lightRecords ++ [record] in
  let darkRecords' := if isDarkSquare then darkRecords ++ [record] else darkRecords in
  exists light dark,
    addLabelFeatures sprintf_4f src rectangle label pieceColor isDarkSquare
      (recordsText sprintf_4f lightRecords, recordsText sprintf_4f darkRecords)
    = Ok (light, dark)
    /\ read_image_data_csv atof sprintf_4f (Some light) [] [] false
       = ([], Ok (0, map labelRead lightRecords',
                  map (valuesRead atof sprintf_4f) lightRecords'))
    /\ read_image_data_csv atof sprintf_4f (Some dark) [] [] false
       = ([], Ok (0, map labelRead darkRecords',
                  map (valuesRead atof sprintf_4f) darkRecords'))
    /\ labelRead record = String pieceColor (String label EmptyString)
    /\ length (valuesRead atof sprintf_4f record) = 256%nat.
Proof.
  intros Hroi Hl Hc Hvalues Hlight Hdark. cbn zeta.
  set (features := convertMatToVec (getHistogramFeature square 16)) in *.
  assert (Hlen : length features = 256%nat).
  { unfold features. rewrite convertMatToVec_length.
    destruct (getHistogramFeature_size square 16) as [-> ->]. reflexivity. }
  assert (Hrecord : storable sprintf_4f (label, pieceColor, features)).
  { repeat split; try assumption. intros E. rewrite E in Hlen. discriminate Hlen. }
  pose proof (append_image_data_csv_text sprintf_4f) as Happend.
  unfold addLabelFeatures. rewrite Hroi. cbn [bind fst snd]. fold features.
  destruct isDarkSquare.
  - specialize (Happend (recordsText sprintf_4f darkRecords) _ Hrecord).
    cbn [fst snd] in Happend. rewrite Happend. cbn [bind].
    exists (recordsText sprintf_4f lightRecords),
      (recordsText sprintf_4f (darkRecords ++ [(label, pieceColor, features)])).
    split; [now rewrite recordsText_app; cbn [recordsText]; rewrite string_app_nil_r|].
    split; [now apply read_recordsText|].
    split; [apply read_recordsText, Forall_app; split; [assumption | now constructor]|].
    split; [reflexivity|]. unfold valuesRead. cbn [snd]. now rewrite length_map.
  - specialize (Happend (recordsText sprintf_4f lightRecords) _ Hrecord).
    cbn [fst snd] in Happend. rewrite Happend. cbn [bind].
    exists (recordsText sprintf_4f (lightRecords ++ [(label, pieceColor, features)])),
      (recordsText sprintf_4f darkRecords).
    split; [now rewrite recordsText_app; cbn [recordsText]; rewrite string_app_nil_r|].
    split; [apply read_recordsText, Forall_app; split; [assumption | now constructor]|].
    split; [now apply read_recordsText|].
    split; [reflexivity|]. unfold valuesRead. cbn [snd]. now rewrite length_map.
Qed.

Lemma Forall_writable (sprintf_4f : Q -> string) (values : list Q) :
  forallb (fun v => plainString (sprintf_4f v)
                    && (String.length (sprintf_4f v) <? 255)%nat) values = true ->
  Forall (writable sprintf_4f) values.
Proof.
  intros H. apply Forall_forall. intros v Hv.
  rewrite forallb_forall in H. specialize (H v Hv).
  apply andb_true_iff in H as [Hp Hl]. split; [exact Hp|].
  now apply Nat.ltb_lt.
Qed.

Lemma addLabelFeatures_stores_witness :
  exists square,
    roi twoPixels (mkRect 0 0 2 1) = Ok square
    /\ let features := convertMatToVec (getHistogramFeature square 16) in
       let record : csvRecord := ("p"%char, "w"%char, features) in
       let lightRecords' := if true then twoRecords else twoRecords ++ [record] in
       let darkRecords' := if true then [] ++ [record] else [] in
       exists light dark,
         addLabelFeatures tenThousandths twoPixels (mkRect 0 0 2 1) "p" "w" true
           (recordsText tenThousandths twoRecords, recordsText tenThousandths [])
         = Ok (light, dark)
         /\ read_image_data_csv fromTenThousandths tenThousandths (Some light) [] [] false
            = ([], Ok (0, map labelRead lightRecords',
                       map (valuesRead fromTenThousandths tenThousandths) lightRecords'))
         /\ read_image_data_csv fromTenThousandths tenThousandths (Some dark) [] [] false
            = ([], Ok (0, map labelRead darkRecords',
                       map (valuesRead fromTenThousandths tenThousandths) darkRecords'))
         /\ labelRead record = "wp"
         /\ length (valuesRead fromTenThousandths tenThousandths record) = 256%nat.
Proof.
  eexists. split; [reflexivity|].
  apply (addLabelFeatures_stores fromTenThousandths tenThousandths twoPixels _
           (mkRect 0 0 2 1) "p" "w" true twoRecords []).
  - reflexivity.
  - reflexivity.
  - reflexivity.
  - apply Forall_writable. vm_compute. reflexivity.
  - repeat constructor; try discriminate; cbn; lia.
  - constructor.
Defined.

(* ------------------------------------------------------------------ *)
(** ** The region that isEmptySpace looks at *)

(** A product in [double] that is stored in a [float]: the relative error
    is at most [2^-23]. *)
Lemma float_of_double (P : Q) :
  (1 # 8 <= P)%Q ->
  (P * (1 - (1 # 8388608)) <= fl32 (fl64 P))%Q
  /\ (fl32 (fl64 P) <= P * (1 + (1 # 8388608)))%Q.
Proof.
  intros HP.
  assert (H64 : (2 ^ (-1022) <= P)%Q).
  { apply Qle_trans with (2 ^ (-3))%Q; [apply pow2_le; lia | exact HP]. }
  destruct (roundBinary_error 53 (-1022) P ltac:(lia) H64) as [Dlo Dhi].
  fold (fl64 P) in Dlo, Dhi.
  change (2 ^ (- (53)))%Q with (1 # 9007199254740992)%Q in Dlo, Dhi.
  assert (H32 : (2 ^ (-126) <= fl64 P)%Q).
  { apply Qle_trans with (2 ^ (-4))%Q; [apply pow2_le; lia|].
    change (2 ^ (-4))%Q with (1 # 16)%Q. lra. }
  destruct (roundBinary_error 24 (-126) (fl64 P) ltac:(lia) H32) as [Slo Shi].
  fold (fl32 (fl64 P)) in Slo, Shi.
  change (2 ^ (- (24)))%Q with (1 # 16777216)%Q in Slo, Shi.
  set (D := fl64 P) in *. set (S := fl32 D) in *.
  split; nra.
Qed.

Lemma double_constants :
  fl64 (2 # 10) = (3602879701896397 # 18014398509481984)%Q
  /\ fl64 (8 # 10) = (3602879701896397 # 4503599627370496)%Q.
Proof. split; vm_compute; reflexivity. Qed.

(** The two bounds of the region along a side of [w] pixels. *)
Lemma central_bounds (w : Z) :
  0 <= w <= INT_MAX ->
  let startX := fl32 (dmul (inject_Z w) (fl64 (2 # 10))) in
  let endX := fl32 (dmul (inject_Z w) (fl64 (8 # 10))) in
  0 <= cvRound startX <= cvRound endX /\ cvRound endX <= w
  /\ saturate_cast_int startX = cvRound startX
  /\ saturate_cast_int endX = cvRound endX
  /\ fractionOf (2 # 10) w (cvRound startX)
  /\ fractionOf (8 # 10) w (cvRound endX).
Proof.
  intros Hw. cbv zeta. destruct double_constants as [-> ->]. unfold dmul.
  set (c2 := (3602879701896397 # 18014398509481984)%Q).
  set (c8 := (3602879701896397 # 4503599627370496)%Q).
  assert (Hq : (0 <= inject_Z w)%Q).
  { change 0%Q with (inject_Z 0). rewrite <- Zle_Qle. lia. }
  assert (Hmono : (fl32 (fl64 (inject_Z w * c2)) <= fl32 (fl64 (inject_Z w * c8)))%Q).
  { apply fl32_monotone, fl64_monotone. unfold c2, c8. lra. }
  assert (Hpos : (0 <= fl32 (fl64 (inject_Z w * c2)))%Q).
  { apply roundBinary_nonneg; [lia|]. apply roundBinary_nonneg; [lia|].
    unfold c2. lra. }
  assert (Hbounds :
            (Qabs (fl32 (fl64 (inject_Z w * c2)) - (2 # 10) * inject_Z w)
             <= inject_Z w * (1 # 4194304))%Q
            /\ (Qabs (fl32 (fl64 (inject_Z w * c8)) - (8 # 10) * inject_Z w)
                <= inject_Z w * (1 # 4194304))%Q
            /\ (fl32 (fl64 (inject_Z w * c8)) <= inject_Z w)%Q).
  { destruct (Z.eq_dec w 0) as [->|Hne].
    - repeat split; vm_compute; discriminate.
    - assert (H1 : (1 <= inject_Z w)%Q).
      { change 1%Q with (inject_Z 1). rewrite <- Zle_Qle. lia. }
      destruct (float_of_double (inject_Z w * c2)) as [L2 U2]; [unfold c2; lra|].
      destruct (float_of_double (inject_Z w * c8)) as [L8 U8]; [unfold c8; lra|].
      unfold c2, c8 in *.
      split; [|split]; try (apply Qabs_Qle_condition; split); lra. }
  destruct Hbounds as (B2 & B8 & Hle).
  set (startX := fl32 (fl64 (inject_Z w * c2))) in *.
  set (endX := fl32 (fl64 (inject_Z w * c8))) in *.
  assert (H0 : 0 <= cvRound startX).
  { rewrite <- (cvRound_inject_Z 0). apply cvRound_monotone. exact Hpos. }
  assert (H1 : cvRound startX <= cvRound endX) by now apply cvRound_monotone.
  assert (H2 : cvRound endX <= w).
  { apply Z.le_trans with (cvRound (inject_Z w)); [now apply cvRound_monotone|].
    rewrite cvRound_inject_Z. lia. }
  split; [lia|]. split; [exact H2|].
  unfold saturate_cast_int, INT_MIN, INT_MAX in *.
  split.
  { destruct (Z.leb_spec (-2147483648) (cvRound startX));
      destruct (Z.leb_spec (cvRound startX) 2147483647); cbn [andb]; lia. }
  split.
  { destruct (Z.leb_spec (-2147483648) (cvRound endX));
      destruct (Z.leb_spec (cvRound endX) 2147483647); cbn [andb]; lia. }
  unfold fractionOf.
  pose proof (cvRound_error startX) as E2. pose proof (cvRound_error endX) as E8.
  split.
  - apply Qabs_Qle_condition in E2, B2. apply Qabs_Qle_condition. split; lra.
  - apply Qabs_Qle_condition in E8, B8. apply Qabs_Qle_condition. split; lra.
Qed.

(** X24. The region that [isEmptySpace] looks at: for a rectangle inside
    the image, when the grey conversion and the edge detection succeed and
    return an image of the size of the square, the call succeeds, and its
    verdict is whether the edge image sums to less than 7000 over the
    columns [x0 .. x1 - 1] and the rows [y0 .. y1 - 1] of the square, where
    [x0] and [x1] are the fractions 0.2 and 0.8 of the width and [y0] and
    [y1] those of the height, up to the rounding of the code: a region
    inside the square, so that cutting it out never throws. *)
Theorem isEmptySpace_region
    (cvtColor_BGR2GRAY : Mat Vec3b -> outcome (Mat Z))
    (Canny : Mat Z -> Z -> Z -> outcome (Mat Z))
    (image square : Mat Vec3b) (gray edges : Mat Z) (currentRect : Rect)
    (isDarkSquare : bool) :
  roi image currentRect = Ok square ->
  cvtColor_BGR2GRAY square = Ok gray ->
  Canny gray 10 250 = Ok edges ->
  rows edges = height currentRect -> cols edges = width currentRect ->
  width currentRect <= INT_MAX -> height currentRect <= INT_MAX ->
  exists x0 x1 y0 y1,
    0 <= x0 <= x1 /\ x1 <= width currentRect
    /\ 0 <= y0 <= y1 /\ y1 <= height currentRect
    /\ fractionOf (2 # 10) (width currentRect) x0
    /\ fractionOf (8 # 10) (width currentRect) x1
    /\ fractionOf (2 # 10) (height currentRect) y0
    /\ fractionOf (8 # 10) (height currentRect) y1
    /\ isEmptySpace cvtColor_BGR2GRAY Canny image currentRect isDarkSquare
       = Ok (cv_sum (mkMat (y1 - y0) (x1 - x0)
                           (fun row col => at_ edges (row + y0) (col + x0))) <? 7000).
Proof.
  intros Hroi Hgray Hedges Hrows Hcols Hw Hh.
  assert (Hpos : 0 <= width currentRect /\ 0 <= height currentRect).
  { unfold roi in Hroi.
    match type of Hroi with
    | (if ?c then _ else _) = _ => destruct c eqn:E; [|discriminate Hroi]
    end.
    repeat (apply andb_true_iff in E as [E ?]). split; apply Z.leb_le; assumption. }
  destruct Hpos as [Hw0 Hh0].
  destruct (central_bounds (width currentRect) (conj Hw0 Hw))
    as (Hx & Hx1 & Ex0 & Ex1 & Fx0 & Fx1).
  destruct (central_bounds (height currentRect) (conj Hh0 Hh))
    as (Hy & Hy1 & Ey0 & Ey1 & Fy0 & Fy1).
  cbv zeta in *.
  set (startX := fl32 (dmul (inject_Z (width currentRect)) (fl64 (2 # 10)))) in *.
  set (endX := fl32 (dmul (inject_Z (width currentRect)) (fl64 (8 # 10)))) in *.
  set (startY := fl32 (dmul (inject_Z (height currentRect)) (fl64 (2 # 10)))) in *.
  set (endY := fl32 (dmul (inject_Z (height currentRect)) (fl64 (8 # 10)))) in *.
  exists (cvRound startX), (cvRound endX), (cvRound startY), (cvRound endY).
  split; [exact Hx|]. split; [exact Hx1|]. split; [exact Hy|]. split; [exact Hy1|].
  split; [exact Fx0|]. split; [exact Fx1|]. split; [exact Fy0|]. split; [exact Fy1|].
  unfold isEmptySpace. rewrite Hroi. cbn [bind]. rewrite Hgray. cbn [bind].
  rewrite Hedges. cbn [bind].
  fold startX endX startY endY.
  unfold toPoint2i, Rect_. cbn [px py ix iy]. rewrite Ex0, Ex1, Ey0, Ey1.
  rewrite !Z.min_l, !Z.max_r by lia.
  rewrite !wrap32_small by (unfold INT_MIN, INT_MAX in *; lia).
  unfold roi. cbn [x y width height]. rewrite Hrows, Hcols.
  replace ((0 <=? cvRound startX)
           && (0 <=? cvRound endX - cvRound startX)
           && (cvRound startX + (cvRound endX - cvRound startX) <=? width currentRect)
           && (0 <=? cvRound startY)
           && (0 <=? cvRound endY - cvRound startY)
           && (cvRound startY + (cvRound endY - cvRound startY) <=? height currentRect))
    with true.
  - reflexivity.
  - symmetry. repeat (apply andb_true_iff; split); apply Z.leb_le; lia.
Qed.

Lemma isEmptySpace_region_witness :
  exists square gray edges,
    roi twoTiles (mkRect 10 0 10 10) = Ok square
    /\ blueGray square = Ok gray
    /\ markEdges gray 10 250 = Ok edges
    /\ exists x0 x1 y0 y1,
         0 <= x0 <= x1 /\ x1 <= 10
         /\ 0 <= y0 <= y1 /\ y1 <= 10
         /\ fractionOf (2 # 10) 10 x0
         /\ fractionOf (8 # 10) 10 x1
         /\ fractionOf (2 # 10) 10 y0
         /\ fractionOf (8 # 10) 10 y1
         /\ isEmptySpace blueGray markEdges twoTiles (mkRect 10 0 10 10) false
            = Ok (cv_sum (mkMat (y1 - y0) (x1 - x0)
                                (fun row col => at_ edges (row + y0) (col + x0))) <? 7000).
Proof.
  do 3 eexists. split; [reflexivity|]. split; [reflexivity|]. split; [reflexivity|].
  eapply (isEmptySpace_region blueGray markEdges twoTiles _ _ _ (mkRect 10 0 10 10) false);
    try reflexivity; discriminate.
Defined.

(** The region of a tile of 10 by 10 pixels, and the first column of the
    region for a side of 10485763 pixels: the product [width * 0.2] is
    rounded to a [float] before it is rounded to an integer. *)
Example isEmptySpace_tile :
  isEmptySpace blueGray markEdges twoTiles (mkRect 10 0 10 10) false = Ok false
  /\ cvRound (fl32 (dmul 10 (fl64 (2 # 10)))) = 2
  /\ cvRound (fl32 (dmul 10 (fl64 (8 # 10)))) = 8
  /\ cvRound (fl32 (dmul 10485763 (fl64 (2 # 10)))) = 2097152
  /\ cvRound (10485763 * (2 # 10)) = 2097153.
Proof. repeat split; vm_compute; reflexivity. Qed.

(* ------------------------------------------------------------------ *)
(** ** labelImages *)

Section LabelImagesLoop.

Variable sprintf_4f : Q -> string.
Variable src : Mat Vec3b.
Variable rectangles : list Rect.
Variable files0 : string * string.

Lemma storeAll_app (calls1 calls2 : list (Z * ascii * ascii * bool)) :
  forall files1,
    storeAll sprintf_4f src rectangles (calls1 ++ calls2) files1
    = (files2 <- storeAll sprintf_4f src rectangles calls1 files1 ;;
       storeAll sprintf_4f src rectangles calls2 files2).
Proof.
  induction calls1 as [|[[[k l] c] d] calls1 IH]; intros files1; cbn [app storeAll].
  - reflexivity.
  - destruct (vec_at rectangles k) as [r|f]; cbn [bind]; [|reflexivity].
    destruct (addLabelFeatures sprintf_4f src r l c d files1) as [files2|f]; cbn [bind];
      [apply IH | reflexivity].
Qed.

Lemma labelImagesStep_before (k : nat) (currentRect : Rect) (s s' : labelling) :
  nth_error rectangles k = Some currentRect ->
  labelledBefore sprintf_4f src rectangles files0 k s ->
  labelImagesStep sprintf_4f src currentRect s = Ok s' ->
  labelledBefore sprintf_4f src rectangles files0 (Datatypes.S k) s'.
Proof.
  intros Hrect (Hcur & Hdark & Hcalls & Hfiles). unfold labelImagesStep.
  destruct (keys s) as [|key keys1]; [discriminate|].
  assert (Hweaken : Forall (fun call : Z * ascii * ascii * bool =>
                              let '(i, label, pieceColor, isDark) := call in
                              0 <= i < Z.of_nat (Datatypes.S k)
                              /\ isDark = checkerboard (Z.to_nat i)
                              /\ In label possibleLabels) (stored s)).
  { eapply Forall_impl; [|exact Hcalls]. intros [[[i l] c] d] (Hi & Hd & Hl).
    repeat split; try assumption; lia. }
  assert (Hflag : (if negb (Z.of_nat k mod 8 =? 7) then negb (checkerboard k)
                   else checkerboard k) = checkerboard (Datatypes.S k)).
  { symmetry. apply checkerboard_succ. }
  destruct (existsb (Ascii.eqb (char_of_key key)) possibleLabels) eqn:Hkey.
  - destruct keys1 as [|color keys2]; [discriminate|].
    destruct (addLabelFeatures sprintf_4f src currentRect (char_of_key key)
                (char_of_key color) (darkSquare s) (files s)) as [files1|f] eqn:Eadd;
      cbn [bind]; [|discriminate].
    intros [= <-]. unfold labelledBefore.
    cbn [currentSquare darkSquare stored files]. rewrite Hcur, Hdark.
    split; [lia|]. split; [exact Hflag|]. split.
    + apply Forall_app. split; [exact Hweaken|]. constructor; [|constructor].
      split; [lia|]. split; [now rewrite Nat2Z.id|].
      apply existsb_exists in Hkey as (l & Hin & Heq).
      apply Ascii.eqb_eq in Heq. now rewrite Heq.
    + rewrite storeAll_app, Hfiles. cbn [bind storeAll].
      rewrite (proj2 (vec_at_Ok rectangles (Z.of_nat k) currentRect))
        by (split; [lia | now rewrite Nat2Z.id]).
      cbn [bind]. rewrite <- Hdark, Eadd. reflexivity.
  - cbn [bind]. intros [= <-]. unfold labelledBefore.
    cbn [currentSquare darkSquare stored files]. rewrite Hcur, Hdark.
    split; [lia|]. split; [exact Hflag|]. split; [exact Hweaken | exact Hfiles].
Qed.

Lemma labelImages_loop (rest : list Rect) :
  forall (k : nat) (s s' : labelling),
    (forall i currentRect, nth_error rest i = Some currentRect ->
                           nth_error rectangles (k + i) = Some currentRect) ->
    labelledBefore sprintf_4f src rectangles files0 k s ->
    for_range rest (labelImagesStep sprintf_4f src) s = Ok s' ->
    labelledBefore sprintf_4f src rectangles files0 (k + length rest) s'.
Proof.
  induction rest as [|currentRect rest IH]; intros k s s' Hrest Hs; cbn [for_range length].
  - intros [= <-]. now rewrite Nat.add_0_r.
  - destruct (labelImagesStep sprintf_4f src currentRect s) as [s1|f] eqn:E; cbn [bind];
      [|discriminate].
    intros Hloop. rewrite Nat.add_succ_r.
    apply (IH (Datatypes.S k) s1 s'); [| |exact Hloop].
    + intros i r Hi. specialize (Hrest (Datatypes.S i) r Hi).
      now rewrite Nat.add_succ_r in Hrest.
    + apply (labelImagesStep_before k currentRect s s1); [|exact Hs | exact E].
      specialize (Hrest 0%nat currentRect eq_refl). now rewrite Nat.add_0_r in Hrest.
Qed.

End LabelImagesLoop.

(** X25. Which file a labelled square goes to: when [labelImages] ends
    normally it went through 64 squares, and each call of
    [addLabelFeatures] it made was for a square whose key is one of
    [possibleLabels], with the flag of the checkerboard at the index of the
    square, the flag that [getPieceLabels] passes for the same square; the
    two feature files are what these calls made of them, in the order of
    the squares. *)
Theorem labelImages_checkerboard (sprintf_4f : Q -> string)
    (std_sort : (Point2f -> Point2f -> bool) -> list Point2f -> list Point2f)
    (src : Mat Vec3b) (lines : list Vec4i) (keys0 : list Z) (files0 : string * string)
    (s : labelling) :
  labelImages sprintf_4f std_sort src lines keys0 files0 = Ok s ->
  exists rectangles,
    findSquares std_sort lines (mkSize (cols src) (rows src)) = Ok rectangles
    /\ length rectangles = 64%nat
    /\ currentSquare s = 64
    /\ Forall (fun call : Z * ascii * ascii * bool =>
                 let '(i, label, pieceColor, isDark) := call in
                 0 <= i < 64
                 /\ isDark = checkerboard (Z.to_nat i)
                 /\ In label possibleLabels) (stored s)
    /\ storeAll sprintf_4f src rectangles (stored s) files0 = Ok (files s).
Proof.
  unfold labelImages. intros H.
  destruct (findSquares std_sort lines (mkSize (cols src) (rows src)))
    as [rectangles|f] eqn:Esq; cbn [bind] in H; [|discriminate].
  assert (Hlen : length rectangles = 64%nat).
  { unfold findSquares in Esq.
    pose proof (setRectangles_Ok_inv _ _ _ Esq) as Hmany.
    rewrite setRectangles_Ok in Esq by exact Hmany.
    injection Esq as <-. cbn [app]. apply length_grid. }
  exists rectangles. split; [reflexivity|]. split; [exact Hlen|].
  apply (labelImages_loop sprintf_4f src rectangles files0 rectangles 0%nat) in H.
  - destruct H as (Hcur & _ & Hcalls & Hfiles). cbn [Nat.add] in *.
    rewrite Hlen in *. split; [exact Hcur|]. split; [exact Hcalls | exact Hfiles].
  - intros i r Hi. exact Hi.
  - repeat split. constructor.
Qed.

Lemma labelImages_checkerboard_witness :
  exists s,
    labelImages tenThousandths insertionSort greenBoard gridLines someKeys ("", "") = Ok s
    /\ exists rectangles,
         findSquares insertionSort gridLines (mkSize (cols greenBoard) (rows greenBoard))
         = Ok rectangles
         /\ length rectangles = 64%nat
         /\ currentSquare s = 64
         /\ Forall (fun call : Z * ascii * ascii * bool =>
                      let '(i, label, pieceColor, isDark) := call in
                      0 <= i < 64
                      /\ isDark = checkerboard (Z.to_nat i)
                      /\ In label possibleLabels) (stored s)
         /\ storeAll tenThousandths greenBoard rectangles (stored s) ("", "")
            = Ok (files s).
Proof.
  eexists.
  refine ((fun run =>
             conj run
               (labelImages_checkerboard tenThousandths insertionSort greenBoard gridLines
                  someKeys ("", "") _ run)) _).
  vm_compute. reflexivity.
Defined.

Example labelImages_two_squares :
  match labelImages tenThousandths insertionSort greenBoard gridLines someKeys ("", "") with
  | Ok s =>
      keys s = []
      /\ stored s = [(0, "p"%char, "w"%char, false); (1, "k"%char, "b"%char, true)]
      /\ match snd (read_image_data_csv fromTenThousandths tenThousandths
                      (Some (fst (files s))) [] [] false),
               snd (read_image_data_csv fromTenThousandths tenThousandths
                      (Some (snd (files s))) [] [] false) with
         | Ok (_, light, _), Ok (_, dark, _) => light = ["wp"] /\ dark = ["bk"]
         | _, _ => False
         end
  | Fault _ => False
  end.
Proof. vm_compute. repeat split. Qed.
